(** * ArcheroGame: the arena shooter's simulation core

    A shallow embedding of the shooter component ([ArcheroGame], the
    1280x720 trapezoid-arena version): projection, collision helpers,
    perk application, the two spawners, the volley, and the stages of
    [gameLoop].

    Numbers.  JavaScript numbers are modelled by exact rationals [Q];
    counters that only ever hold integers ([kills], [nextMilestone],
    [piercesLeft], [slpCount]) by [Z], and [arrowCount] by [nat].
    Where [Math.sqrt] occurs under a comparison with a radius it is
    modelled by the equivalent comparison of squares.  [Math.atan2],
    [Math.cos], [Math.sin], the [Math.sqrt] the enemy-advance stage
    divides by, and the stream of [Math.random] draws are parameters of
    the functions that use them.  The renderer is not embedded.

    React state.  Every [useState] cell is a field of [Game].  A stage
    reads the values captured by its closure from a snapshot [s] and
    applies its [setX] calls, in call order, to the pending state [n].
    The combat pass also writes to the projectile objects of the
    snapshot in place; the updaters queued on the [projectiles] cell
    read those objects after the pass, which [commitCombat] accounts
    for.

    The earlier 640x360 version of the component and the snake game are
    embedded in the modules [Earlier] and [Snake]. *)

From Stdlib Require Import QArith Qminmax Qround Qabs ZArith List String Bool Lia Lqa.
Import ListNotations.
Open Scope Q_scope.

(** ** Numbers *)

(** [a < b] as a boolean test. *)
Definition Qltb (a b : Q) : bool := negb (Qle_bool b a).

(** [Math.sqrt(s) < r]: over the reals, for [s] a sum of squares, this is
    [0 < r] and [s < r*r]. *)
Definition sqrt_lt (s r : Q) : bool := Qltb 0 r && Qltb s (r * r).

(** [Math.sqrt(s) > r]: over the reals this is [r < 0] or [r*r < s]. *)
Definition sqrt_gt (s r : Q) : bool := Qltb r 0 || Qltb (r * r) s.

(** ** Data model *)

Module Player.
Record t := mk {
  x : Q; y : Q; vx : Q; vy : Q; radius : Q;
  aimX : Q; aimY : Q; lastFireTime : Q }.
End Player.

Module Projectile.
Record t := mk {
  x : Q; y : Q; vx : Q; vy : Q; radius : Q;
  createdAt : Q; piercesLeft : Z; canRicochet : bool }.
End Projectile.

Module Enemy.
Record t := mk {
  x : Q; y : Q; vx : Q; vy : Q; radius : Q;
  spawnInvulUntil : Q }.
End Enemy.

Module Drop.
Record t := mk { x : Q; y : Q; radius : Q }.
End Drop.

(** Center-based, axis-aligned. *)
Module Obstacle.
Record t := mk { x : Q; y : Q; width : Q; height : Q }.
End Obstacle.

Module Stats.
Record t := mk {
  playerSpeed : Q; projectileSpeed : Q; arrowCount : nat;
  pierce : bool; ricochet : bool }.
End Stats.

Module Perk.
Record t := mk { id : string; label : string }.
End Perk.

(** The ground colour pair: the two initial hex colours, or the pair
    [hsl(hue 55% 65%)], [hsl(hue 55% 45%)] built from one hue. *)
Inductive GroundColors := GroundDefault | GroundHsl (hue : Z).

(** The [useState] cells of the component. *)
Record Game := mkGame {
  running : bool;
  gameOver : bool;
  score : Z;
  kills : Z;
  slpCount : Z;
  obstacles : list Obstacle.t;
  stats : Stats.t;
  perkOpen : bool;
  perkChoices : list Perk.t;
  nextMilestone : Z;
  player : Player.t;
  projectiles : list Projectile.t;
  enemies : list Enemy.t;
  drops : list Drop.t;
  lastEnemySpawn : Q;
  enemySpeed : Q;
  groundColors : GroundColors }.

Definition setRunning (v : bool) (g : Game) : Game :=
  mkGame v (gameOver g) (score g) (kills g) (slpCount g) (obstacles g)
    (stats g) (perkOpen g) (perkChoices g) (nextMilestone g) (player g)
    (projectiles g) (enemies g) (drops g) (lastEnemySpawn g) (enemySpeed g)
    (groundColors g).

Definition setGameOver (v : bool) (g : Game) : Game :=
  mkGame (running g) v (score g) (kills g) (slpCount g) (obstacles g)
    (stats g) (perkOpen g) (perkChoices g) (nextMilestone g) (player g)
    (projectiles g) (enemies g) (drops g) (lastEnemySpawn g) (enemySpeed g)
    (groundColors g).

Definition setScore (v : Z) (g : Game) : Game :=
  mkGame (running g) (gameOver g) v (kills g) (slpCount g) (obstacles g)
    (stats g) (perkOpen g) (perkChoices g) (nextMilestone g) (player g)
    (projectiles g) (enemies g) (drops g) (lastEnemySpawn g) (enemySpeed g)
    (groundColors g).

Definition setKills (v : Z) (g : Game) : Game :=
  mkGame (running g) (gameOver g) (score g) v (slpCount g) (obstacles g)
    (stats g) (perkOpen g) (perkChoices g) (nextMilestone g) (player g)
    (projectiles g) (enemies g) (drops g) (lastEnemySpawn g) (enemySpeed g)
    (groundColors g).

Definition setSlpCount (v : Z) (g : Game) : Game :=
  mkGame (running g) (gameOver g) (score g) (kills g) v (obstacles g)
    (stats g) (perkOpen g) (perkChoices g) (nextMilestone g) (player g)
    (projectiles g) (enemies g) (drops g) (lastEnemySpawn g) (enemySpeed g)
    (groundColors g).

Definition setObstacles (v : list Obstacle.t) (g : Game) : Game :=
  mkGame (running g) (gameOver g) (score g) (kills g) (slpCount g) v
    (stats g) (perkOpen g) (perkChoices g) (nextMilestone g) (player g)
    (projectiles g) (enemies g) (drops g) (lastEnemySpawn g) (enemySpeed g)
    (groundColors g).

Definition setStats (v : Stats.t) (g : Game) : Game :=
  mkGame (running g) (gameOver g) (score g) (kills g) (slpCount g)
    (obstacles g) v (perkOpen g) (perkChoices g) (nextMilestone g) (player g)
    (projectiles g) (enemies g) (drops g) (lastEnemySpawn g) (enemySpeed g)
    (groundColors g).

Definition setPerkOpen (v : bool) (g : Game) : Game :=
  mkGame (running g) (gameOver g) (score g) (kills g) (slpCount g)
    (obstacles g) (stats g) v (perkChoices g) (nextMilestone g) (player g)
    (projectiles g) (enemies g) (drops g) (lastEnemySpawn g) (enemySpeed g)
    (groundColors g).

Definition setPerkChoices (v : list Perk.t) (g : Game) : Game :=
  mkGame (running g) (gameOver g) (score g) (kills g) (slpCount g)
    (obstacles g) (stats g) (perkOpen g) v (nextMilestone g) (player g)
    (projectiles g) (enemies g) (drops g) (lastEnemySpawn g) (enemySpeed g)
    (groundColors g).

Definition setNextMilestone (v : Z) (g : Game) : Game :=
  mkGame (running g) (gameOver g) (score g) (kills g) (slpCount g)
    (obstacles g) (stats g) (perkOpen g) (perkChoices g) v (player g)
    (projectiles g) (enemies g) (drops g) (lastEnemySpawn g) (enemySpeed g)
    (groundColors g).

Definition setPlayer (v : Player.t) (g : Game) : Game :=
  mkGame (running g) (gameOver g) (score g) (kills g) (slpCount g)
    (obstacles g) (stats g) (perkOpen g) (perkChoices g) (nextMilestone g) v
    (projectiles g) (enemies g) (drops g) (lastEnemySpawn g) (enemySpeed g)
    (groundColors g).

Definition setProjectiles (v : list Projectile.t) (g : Game) : Game :=
  mkGame (running g) (gameOver g) (score g) (kills g) (slpCount g)
    (obstacles g) (stats g) (perkOpen g) (perkChoices g) (nextMilestone g)
    (player g) v (enemies g) (drops g) (lastEnemySpawn g) (enemySpeed g)
    (groundColors g).

Definition setEnemies (v : list Enemy.t) (g : Game) : Game :=
  mkGame (running g) (gameOver g) (score g) (kills g) (slpCount g)
    (obstacles g) (stats g) (perkOpen g) (perkChoices g) (nextMilestone g)
    (player g) (projectiles g) v (drops g) (lastEnemySpawn g) (enemySpeed g)
    (groundColors g).

Definition setDrops (v : list Drop.t) (g : Game) : Game :=
  mkGame (running g) (gameOver g) (score g) (kills g) (slpCount g)
    (obstacles g) (stats g) (perkOpen g) (perkChoices g) (nextMilestone g)
    (player g) (projectiles g) (enemies g) v (lastEnemySpawn g) (enemySpeed g)
    (groundColors g).

Definition setLastEnemySpawn (v : Q) (g : Game) : Game :=
  mkGame (running g) (gameOver g) (score g) (kills g) (slpCount g)
    (obstacles g) (stats g) (perkOpen g) (perkChoices g) (nextMilestone g)
    (player g) (projectiles g) (enemies g) (drops g) v (enemySpeed g)
    (groundColors g).

Definition setEnemySpeed (v : Q) (g : Game) : Game :=
  mkGame (running g) (gameOver g) (score g) (kills g) (slpCount g)
    (obstacles g) (stats g) (perkOpen g) (perkChoices g) (nextMilestone g)
    (player g) (projectiles g) (enemies g) (drops g) (lastEnemySpawn g) v
    (groundColors g).

Definition setGroundColors (v : GroundColors) (g : Game) : Game :=
  mkGame (running g) (gameOver g) (score g) (kills g) (slpCount g)
    (obstacles g) (stats g) (perkOpen g) (perkChoices g) (nextMilestone g)
    (player g) (projectiles g) (enemies g) (drops g) (lastEnemySpawn g)
    (enemySpeed g) v.

(** ** Trapezoid arena geometry *)

Definition canvasWidth : Q := 1280.
Definition canvasHeight : Q := 720.
Definition TOP_Y : Q := canvasHeight * 0.06.
Definition BOTTOM_Y : Q := canvasHeight * 0.98.
Definition TOP_HALF_W : Q := canvasWidth * 0.16.
Definition BOT_HALF_W : Q := canvasWidth * 0.28.
Definition cxArena : Q := canvasWidth / 2.

Definition halfWAt (y : Q) : Q :=
  TOP_HALF_W + (BOT_HALF_W - TOP_HALF_W) * (y / canvasHeight).

Definition MAX_ENEMIES : nat := 35.
Definition fireRate : Q := 500.
Definition enemySpawnRate : Q := 1200.
Definition projectileLifetime : Q := 2500.
Definition dropChance : Q := 0.25.

Record Projected := mkProjected { sx : Q; sy : Q; scale : Q }.

Definition project (x y : Q) : Projected :=
  let t := Qmax 0 (Qmin 1 (y / canvasHeight)) in
  let halfW := halfWAt y in
  let sx := cxArena + (x - cxArena) * (halfW / BOT_HALF_W) in
  let sy := TOP_Y + (BOTTOM_Y - TOP_Y) * t in
  let scale := halfW / BOT_HALF_W in
  mkProjected sx sy scale.

(** ** Collision helpers *)

Definition circleRectCollides (cx cy cr : Q) (ob : Obstacle.t) : bool :=
  let left := Obstacle.x ob - Obstacle.width ob / 2 in
  let right := Obstacle.x ob + Obstacle.width ob / 2 in
  let top := Obstacle.y ob - Obstacle.height ob / 2 in
  let bottom := Obstacle.y ob + Obstacle.height ob / 2 in
  let closestX := Qmax left (Qmin cx right) in
  let closestY := Qmax top (Qmin cy bottom) in
  let dx := cx - closestX in
  let dy := cy - closestY in
  Qltb (dx * dx + dy * dy) (cr * cr).

Inductive Axis := AxisX | AxisY.

Definition circleRectCollisionAxis (cx cy cr : Q) (ob : Obstacle.t) : Axis :=
  let left := Obstacle.x ob - Obstacle.width ob / 2 in
  let right := Obstacle.x ob + Obstacle.width ob / 2 in
  let top := Obstacle.y ob - Obstacle.height ob / 2 in
  let bottom := Obstacle.y ob + Obstacle.height ob / 2 in
  let closestX := Qmax left (Qmin cx right) in
  let closestY := Qmax top (Qmin cy bottom) in
  let dx := Qabs (cx - closestX) in
  let dy := Qabs (cy - closestY) in
  if Qltb dy dx then AxisX else AxisY.

(** The loop over the obstacles returns at the first colliding one. *)
Definition checkObstacleCollision (obs : list Obstacle.t) (x y radius : Q)
  : bool :=
  existsb (circleRectCollides x y radius) obs.

(** ** Perk application *)

Definition perkEffect (id : string) (prev : Stats.t) : Stats.t :=
  if String.eqb id "arrow_speed" then
    Stats.mk (Stats.playerSpeed prev) (Stats.projectileSpeed prev * 1.1)
      (Stats.arrowCount prev) (Stats.pierce prev) (Stats.ricochet prev)
  else if String.eqb id "player_speed" then
    Stats.mk (Stats.playerSpeed prev * 1.25) (Stats.projectileSpeed prev)
      (Stats.arrowCount prev) (Stats.pierce prev) (Stats.ricochet prev)
  else if String.eqb id "arrow_count" then
    Stats.mk (Stats.playerSpeed prev) (Stats.projectileSpeed prev)
      (Stats.arrowCount prev + 1)%nat (Stats.pierce prev) (Stats.ricochet prev)
  else if String.eqb id "pierce" then
    Stats.mk (Stats.playerSpeed prev) (Stats.projectileSpeed prev)
      (Stats.arrowCount prev) true (Stats.ricochet prev)
  else if String.eqb id "ricochet" then
    Stats.mk (Stats.playerSpeed prev) (Stats.projectileSpeed prev)
      (Stats.arrowCount prev) (Stats.pierce prev) true
  else prev.

(** [applyPerk id], run by a closure that captured the snapshot [s], on
    the pending state [n]. *)
Definition applyPerk (id : string) (s n : Game) : Game :=
  let n := setStats (perkEffect id (stats n)) n in
  let n := setPerkOpen false n in
  if negb (gameOver s) then setRunning true n else n.

(** ** Lists used as arrays *)

(** [arr.filter((_, index) => index !== i)]. *)
Definition removeAt {A : Type} (i : nat) (l : list A) : list A :=
  firstn i l ++ skipn (S i) l.

(** In-place update of the object stored at index [i]. *)
Fixpoint updateAt {A : Type} (i : nat) (f : A -> A) (l : list A) : list A :=
  match l, i with
  | [], _ => []
  | a :: l', O => f a :: l'
  | a :: l', S i' => a :: updateAt i' f l'
  end.

(** An array together with the index of each element. *)
Definition indexed {A : Type} (l : list A) : list (nat * A) :=
  combine (seq 0 (List.length l)) l.

(** The objects a list of references points to. *)
Definition deref {A : Type} (heap : list A) (refs : list nat) : list A :=
  flat_map (fun r => match nth_error heap r with
                     | Some a => [a]
                     | None => []
                     end) refs.

(** ** Stages that draw random numbers or use trigonometry *)

(** What a loop that may run for ever, and whose body may throw, yields
    within a given number of iterations. *)
Inductive Outcome (A : Type) : Type :=
| Done (a : A)
| OutOfFuel
| TypeError.
Arguments Done {A} a.
Arguments OutOfFuel {A}.
Arguments TypeError {A}.

Section Environment.

(** [draws k] is the result of the [k]-th call of [Math.random] since
    the page was loaded; a cursor counts the calls made so far. *)
Variable draws : nat -> Q.
Variable atan2 : Q -> Q -> Q.
Variables cos sin : Q -> Q.

(** *** spawnEnemy *)

Definition enemyCandidateOk (s : Game) (x y : Q) : bool :=
  let dx := Player.x (player s) - x in
  let dy := Player.y (player s) - y in
  let collidesWithObstacle :=
    existsb (circleRectCollides x y 12) (obstacles s) in
  sqrt_gt (dx * dx + dy * dy) 160 && negb collidesWithObstacle.

(** The rejection-sampling loop, with [budget] attempts left: the
    position found, if any, and the cursor after the loop. *)
Fixpoint sampleEnemy (s : Game) (budget k : nat) : option (Q * Q) * nat :=
  match budget with
  | O => (None, k)
  | S b =>
      let y := 40 + draws k * (canvasHeight - 80) in
      let hw := halfWAt y - 40 in
      let x := cxArena - hw + draws (S k) * (hw * 2) in
      if enemyCandidateOk s x y then (Some (x, y), S (S k))
      else sampleEnemy s b (S (S k))
  end.

Definition enemyFallback (k : nat) : Q * Q :=
  (canvasWidth / 2 + (draws k - 0.5) * (canvasWidth - 200),
   canvasHeight / 2 + (draws (S k) - 0.5) * (canvasHeight - 200)).

Definition spawnEnemy (time : Q) (s n : Game) (k : nat) : Game * nat :=
  if (MAX_ENEMIES <=? List.length (enemies s))%nat then
    (setLastEnemySpawn time n, k)
  else
    let '(found, k1) := sampleEnemy s 20 k in
    let '(pos, k2) :=
      match found with
      | Some pos => (pos, k1)
      | None => (enemyFallback k1, S (S k1))
      end in
    let n :=
      setEnemies
        (enemies n ++ [Enemy.mk (fst pos) (snd pos) 0 0 12 (time + 300)]) n in
    (setLastEnemySpawn time n, k2).

(** The spawn condition of [gameLoop]. *)
Definition spawnStage (timestamp : Q) (s n : Game) (k : nat) : Game * nat :=
  if Qle_bool enemySpawnRate (timestamp - lastEnemySpawn s)
  then spawnEnemy timestamp s n k else (n, k).

(** *** fireProjectile *)

Definition countQ (count : nat) : Q := inject_Z (Z.of_nat count).

Definition volleySpread (count : nat) : Q :=
  Qmin 0.3 (0.08 * (countQ count - 1)).

Definition volleyOffset (count i : nat) : Q :=
  if (count =? 1)%nat then 0
  else (- volleySpread count) / 2
       + (volleySpread count / (countQ count - 1)) * countQ i.

Definition volleyAngle (pl : Player.t) (count i : nat) : Q :=
  atan2 (Player.aimY pl) (Player.aimX pl) + volleyOffset count i.

Definition newShots (time : Q) (s : Game) : list Projectile.t :=
  let count := Stats.arrowCount (stats s) in
  map (fun i =>
         let angle := volleyAngle (player s) count i in
         Projectile.mk (Player.x (player s)) (Player.y (player s))
           (cos angle * Stats.projectileSpeed (stats s))
           (sin angle * Stats.projectileSpeed (stats s))
           4 time
           (if Stats.pierce (stats s) then 1%Z else 0%Z)
           (Stats.ricochet (stats s)))
      (seq 0 count).

Definition withLastFireTime (time : Q) (prev : Player.t) : Player.t :=
  Player.mk (Player.x prev) (Player.y prev) (Player.vx prev)
    (Player.vy prev) (Player.radius prev) (Player.aimX prev)
    (Player.aimY prev) time.

Definition fireProjectile (time : Q) (s n : Game) : Game :=
  let n := setProjectiles (projectiles n ++ newShots time s) n in
  setPlayer (withLastFireTime time (player n)) n.

(** The fire condition of [gameLoop]. *)
Definition mayFire (timestamp : Q) (s : Game) : bool :=
  Qeq_bool (Player.vx (player s)) 0
  && Qeq_bool (Player.vy (player s)) 0
  && Qle_bool fireRate (timestamp - Player.lastFireTime (player s)).

Definition fireStage (timestamp : Q) (s n : Game) : Game :=
  if mayFire timestamp s then fireProjectile timestamp s n else n.

(** *** spawnObstacles *)

Definition obstacleOverlaps (x y diam : Q) (ob : Obstacle.t) : bool :=
  Qltb (Qabs (x - Obstacle.x ob)) ((diam + Obstacle.width ob) / 2)
  && Qltb (Qabs (y - Obstacle.y ob)) ((diam * 2 + Obstacle.height ob) / 2).

Definition obstacleCandidateOk (s : Game) (newObstacles : list Obstacle.t)
           (x y : Q) : bool :=
  let diam := Player.radius (player s) * 2 in
  let dx := Player.x (player s) - x in
  let dy := Player.y (player s) - y in
  let overlapsObstacle :=
    existsb (obstacleOverlaps x y diam) (obstacles s ++ newObstacles) in
  sqrt_gt (dx * dx + dy * dy) 120 && negb overlapsObstacle.

Fixpoint sampleObstacle (s : Game) (newObstacles : list Obstacle.t)
         (budget k : nat) : option (Q * Q) * nat :=
  match budget with
  | O => (None, k)
  | S b =>
      let y := 50 + draws k * (canvasHeight - 100) in
      let diam := Player.radius (player s) * 2 in
      let margin := diam / 2 + 8 in
      let hw := halfWAt y - margin in
      let x := cxArena - hw + draws (S k) * (hw * 2) in
      if obstacleCandidateOk s newObstacles x y then (Some (x, y), S (S k))
      else sampleObstacle s newObstacles b (S (S k))
  end.

(** The [for] loop over the [toAdd] placements. *)
Fixpoint placeObstacles (s : Game) (toAdd : nat)
         (newObstacles : list Obstacle.t) (k : nat)
  : list Obstacle.t * nat :=
  match toAdd with
  | O => (newObstacles, k)
  | S m =>
      let '(found, k1) := sampleObstacle s newObstacles 20 k in
      let newObstacles :=
        match found with
        | Some (x, y) =>
            let diam := Player.radius (player s) * 2 in
            newObstacles ++ [Obstacle.mk x y diam (diam * 2)]
        | None => newObstacles
        end in
      placeObstacles s m newObstacles k1
  end.

Definition obstaclesToAdd (k : nat) : Z := (1 + Qfloor (draws k * 2))%Z.

Definition spawnObstacles (s n : Game) (k : nat) : Game * nat :=
  let toAdd := obstaclesToAdd k in
  let '(newObstacles, k1) := placeObstacles s (Z.to_nat toAdd) [] (S k) in
  (setObstacles (obstacles n ++ newObstacles) n, k1).

(** *** The roguelike milestone block *)

Definition pool : list Perk.t :=
  [ Perk.mk "arrow_speed" "Increase arrow speed by 10%";
    Perk.mk "player_speed" "Increase player movement speed by 25%";
    Perk.mk "arrow_count" "Increase amount of arrows +1";
    Perk.mk "pierce" "Allow arrows to pierce first enemy";
    Perk.mk "ricochet" "Allow arrows to ricochet off borders" ].

(** [Math.floor(Math.random() * pool.length)]. *)
Definition poolIndex (k : nat) : Z :=
  Qfloor (draws k * countQ (List.length pool)).

(** [pool[i]]: [None] stands for [undefined]. *)
Definition poolAt (i : Z) : option Perk.t :=
  if (i <? 0)%Z then None else nth_error pool (Z.to_nat i).

(** [while (picks.length < 3) ...]: reading [c.id] of an undefined [c]
    throws. *)
Fixpoint pickPerks (fuel : nat) (picks : list Perk.t) (k : nat)
  : Outcome (list Perk.t * nat) :=
  if (List.length picks <? 3)%nat then
    match fuel with
    | O => OutOfFuel
    | S f =>
        match poolAt (poolIndex k) with
        | None => TypeError
        | Some c =>
            if existsb (fun p => String.eqb (Perk.id p) (Perk.id c)) picks
            then pickPerks f picks (S k)
            else pickPerks f (picks ++ [c]) (S k)
        end
    end
  else Done (picks, k).

Definition pickRandomGroundColors (k : nat) : GroundColors :=
  GroundHsl (Qfloor (draws k * 360)).

Definition milestone (fuel : nat) (newKills : Z) (s n : Game) (k : nat)
  : Outcome (Game * nat) :=
  if (nextMilestone s <=? newKills)%Z && negb (perkOpen s) then
    match pickPerks fuel [] k with
    | Done (picks, k1) =>
        let n := setPerkChoices picks n in
        let n := setPerkOpen true n in
        let n := setRunning false n in
        let n := setGroundColors (pickRandomGroundColors k1) n in
        let n := setEnemySpeed (enemySpeed n * 1.1) n in
        let n := setNextMilestone (nextMilestone s + 10)%Z n in
        Done (spawnObstacles s n (S k1))
    | OutOfFuel => OutOfFuel
    | TypeError => TypeError
    end
  else Done (n, k).

(** *** The combat pass of [gameLoop]

    [newEnemies] and [newProjectiles] are shallow copies of the
    snapshot arrays: they hold references to the same objects.  A
    reference is the index of the object in its snapshot array;
    [heap] holds the projectile objects, which the pass mutates. *)

Record Combat := mkCombat {
  newGameOver : bool;
  newKills : Z;
  newDrops : list Drop.t;
  newEnemies : list nat;
  newProjectiles : list nat;
  heap : list Projectile.t;
  dropsChanged : bool;
  enemiesChanged : bool;
  projectilesChanged : bool;
  cursor : nat }.

Definition hitsEnemy (enemy : Enemy.t) (projectile : Projectile.t) : bool :=
  let pdx := Projectile.x projectile - Enemy.x enemy in
  let pdy := Projectile.y projectile - Enemy.y enemy in
  sqrt_lt (pdx * pdx + pdy * pdy)
    (Projectile.radius projectile + Enemy.radius enemy).

(** The index at which the inner [for] loop breaks, scanning from index
    [i] on. *)
Fixpoint firstHit (enemy : Enemy.t) (ps : list Projectile.t) (i : nat)
  : option nat :=
  match ps with
  | [] => None
  | p :: ps' => if hitsEnemy enemy p then Some i
                else firstHit enemy ps' (S i)
  end.

Definition decPierces (p : Projectile.t) : Projectile.t :=
  Projectile.mk (Projectile.x p) (Projectile.y p) (Projectile.vx p)
    (Projectile.vy p) (Projectile.radius p) (Projectile.createdAt p)
    (Projectile.piercesLeft p - 1)%Z (Projectile.canRicochet p).

Definition piercesAt (hp : list Projectile.t) (i : nat) : Z :=
  match nth_error hp i with
  | Some p => Projectile.piercesLeft p
  | None => 0%Z
  end.

(** The body of the inner loop once projectile [i] overlaps the enemy
    referenced by [j]. *)
Definition strike (j : nat) (enemy : Enemy.t) (i : nat) (c : Combat)
  : Combat :=
  let pierces := (0 <? piercesAt (heap c) i)%Z in
  let dropped := Qltb (draws (cursor c)) dropChance in
  mkCombat
    (newGameOver c)
    (newKills c + 1)%Z
    (if dropped
     then newDrops c ++ [Drop.mk (Enemy.x enemy) (Enemy.y enemy) 12]
     else newDrops c)
    (filter (fun e => negb (e =? j)%nat) (newEnemies c))
    (if pierces then newProjectiles c else removeAt i (newProjectiles c))
    (if pierces then updateAt i decPierces (heap c) else heap c)
    (if dropped then true else dropsChanged c)
    true
    (if pierces then projectilesChanged c else true)
    (S (cursor c)).

Definition withGameOver (c : Combat) : Combat :=
  mkCombat true (newKills c) (newDrops c) (newEnemies c)
    (newProjectiles c) (heap c) (dropsChanged c) (enemiesChanged c)
    (projectilesChanged c) (cursor c).

Definition touchesPlayer (pl : Player.t) (enemy : Enemy.t) : bool :=
  let dx := Player.x pl - Enemy.x enemy in
  let dy := Player.y pl - Enemy.y enemy in
  sqrt_lt (dx * dx + dy * dy) (Player.radius pl + Enemy.radius enemy).

(** [for (const enemy of enemies)], over the enemies still to visit. *)
Fixpoint combatLoop (timestamp : Q) (pl : Player.t)
         (es : list (nat * Enemy.t)) (c : Combat) : Combat :=
  match es with
  | [] => c
  | (j, enemy) :: rest =>
      if Qltb timestamp (Enemy.spawnInvulUntil enemy) then
        combatLoop timestamp pl rest c
      else if touchesPlayer pl enemy then withGameOver c
      else
        match firstHit enemy (heap c) 0 with
        | Some i => combatLoop timestamp pl rest (strike j enemy i c)
        | None => combatLoop timestamp pl rest c
        end
  end.

Definition combatInit (s : Game) (k : nat) : Combat :=
  mkCombat (gameOver s) (kills s) (drops s)
    (seq 0 (List.length (enemies s))) (seq 0 (List.length (projectiles s)))
    (projectiles s) false false false k.

Definition combatPass (timestamp : Q) (s : Game) (k : nat) : Combat :=
  combatLoop timestamp (player s) (indexed (enemies s)) (combatInit s k).

Definition picksUp (pl : Player.t) (drop : Drop.t) : bool :=
  let dx := Player.x pl - Drop.x drop in
  let dy := Player.y pl - Drop.y drop in
  sqrt_lt (dx * dx + dy * dy) (Player.radius pl + Drop.radius drop).

(** The drop pickups and the conditional [setX] calls that close the
    pass.

    The pass has decremented [piercesLeft] in place, on the objects of
    the array the [projectiles] cell holds.  The updaters queued on that
    cell earlier in the tick ([fireProjectile]'s append, the advance
    stage) are run by React once the callback has returned, on that very
    array, and so read the decremented counts: [queued] is their
    composition.  A [setProjectiles(newProjectiles)] queued after them
    replaces their result; without it the cell ends as [queued] of the
    mutated objects. *)
Definition commitCombat (queued : list Projectile.t -> list Projectile.t)
           (s n : Game) (c : Combat) : Game :=
  let picked := filter (picksUp (player s)) (newDrops c) in
  let remainingDrops :=
    filter (fun d => negb (picksUp (player s) d)) (newDrops c) in
  let newSlp := (slpCount s + Z.of_nat (List.length picked))%Z in
  let dropsChanged :=
    match picked with [] => dropsChanged c | _ :: _ => true end in
  let n := if Bool.eqb (newGameOver c) (gameOver s) then n
           else setGameOver (newGameOver c) n in
  let n := if (newKills c =? kills s)%Z then n
           else setKills (newKills c) n in
  let n := if (newSlp =? slpCount s)%Z then n else setSlpCount newSlp n in
  let n := if dropsChanged then setDrops remainingDrops n else n in
  let n := if enemiesChanged c
           then setEnemies (deref (enemies s) (newEnemies c)) n else n in
  if projectilesChanged c
  then setProjectiles (deref (heap c) (newProjectiles c)) n
  else setProjectiles (queued (heap c)) n.

End Environment.

(** ** Stages of [gameLoop] that advance the player and the projectiles *)

(** The candidate position of the player: the move on each axis is
    cancelled when it alone would collide with an obstacle. *)
Definition playerCandX (obs : list Obstacle.t) (prev : Player.t) : Q :=
  let newX := Player.x prev + Player.vx prev in
  if checkObstacleCollision obs newX (Player.y prev) (Player.radius prev)
  then Player.x prev else newX.

Definition playerCandY (obs : list Obstacle.t) (prev : Player.t) : Q :=
  let newY := Player.y prev + Player.vy prev in
  if checkObstacleCollision obs (Player.x prev) newY (Player.radius prev)
  then Player.y prev else newY.

(** The updater passed to [setPlayer] by [gameLoop]. *)
Definition advancePlayer (obs : list Obstacle.t) (prev : Player.t)
  : Player.t :=
  let newX := playerCandX obs prev in
  let newY := playerCandY obs prev in
  let hw := halfWAt newY - Player.radius prev in
  let minX := cxArena - hw in
  let maxX := cxArena + hw in
  let newX := Qmax minX (Qmin maxX newX) in
  let newY :=
    Qmax (Player.radius prev)
         (Qmin (canvasHeight - Player.radius prev) newY) in
  Player.mk newX newY (Player.vx prev) (Player.vy prev) (Player.radius prev)
    (Player.aimX prev) (Player.aimY prev) (Player.lastFireTime prev).

Definition expired (timestamp : Q) (p : Projectile.t) : bool :=
  Qle_bool projectileLifetime (timestamp - Projectile.createdAt p).

(** The advanced position leaves the arena through a slanted side. *)
Definition exitsSide (p : Projectile.t) : bool :=
  let nx := Projectile.x p + Projectile.vx p in
  let ny := Projectile.y p + Projectile.vy p in
  let hwN := halfWAt ny - Projectile.radius p in
  Qltb nx (cxArena - hwN) || Qltb (cxArena + hwN) nx.

(** The advanced position leaves the arena through the top or bottom. *)
Definition exitsEnds (p : Projectile.t) : bool :=
  let ny := Projectile.y p + Projectile.vy p in
  Qltb ny (Projectile.radius p)
  || Qltb (canvasHeight - Projectile.radius p) ny.

(** The trapezoid boundary check on one axis: the velocity component and
    the coordinate after it, or [None] when the projectile is dropped. *)
Definition bounceSide (p : Projectile.t) : option (Q * Q) :=
  if exitsSide p then
    if Projectile.canRicochet p
    then Some (- Projectile.vx p, Projectile.x p + - Projectile.vx p)
    else None
  else Some (Projectile.vx p, Projectile.x p + Projectile.vx p).

Definition bounceEnds (p : Projectile.t) : option (Q * Q) :=
  if exitsEnds p then
    if Projectile.canRicochet p
    then Some (- Projectile.vy p, Projectile.y p + - Projectile.vy p)
    else None
  else Some (Projectile.vy p, Projectile.y p + Projectile.vy p).

Definition moved (p : Projectile.t) (nx ny vx vy : Q) : Projectile.t :=
  Projectile.mk nx ny vx vy (Projectile.radius p) (Projectile.createdAt p)
    (Projectile.piercesLeft p) (Projectile.canRicochet p).

(** One iteration of the loop of the [setProjectiles] updater: [None]
    when the projectile is not pushed to [next]. *)
Definition advanceProjectile (timestamp : Q) (obs : list Obstacle.t)
           (p : Projectile.t) : option Projectile.t :=
  if expired timestamp p then None else
  match bounceSide p with
  | None => None
  | Some (vx, nx) =>
      match bounceEnds p with
      | None => None
      | Some (vy, ny) =>
          match find (circleRectCollides nx ny (Projectile.radius p)) obs with
          | Some ob =>
              if Projectile.canRicochet p then
                let hitAxis :=
                  circleRectCollisionAxis nx ny (Projectile.radius p) ob in
                let vx := match hitAxis with AxisX => - vx | AxisY => vx end in
                let vy := match hitAxis with AxisX => vy | AxisY => - vy end in
                Some (moved p (Projectile.x p + vx) (Projectile.y p + vy)
                        vx vy)
              else None
          | None => Some (moved p nx ny vx vy)
          end
      end
  end.

Definition advanceProjectiles (timestamp : Q) (obs : list Obstacle.t)
           (prev : list Projectile.t) : list Projectile.t :=
  flat_map (fun p => match advanceProjectile timestamp obs p with
                     | Some q => [q]
                     | None => []
                     end) prev.

(** The updaters [gameLoop] has queued on the [projectiles] cell when
    the combat pass runs: the append of [fireProjectile], when the player
    fires, and the advance stage. *)
Definition queuedProjectiles (atan2 : Q -> Q -> Q) (cos sin : Q -> Q)
           (timestamp : Q) (s : Game) (prev : list Projectile.t)
  : list Projectile.t :=
  let prev :=
    if mayFire timestamp s
    then prev ++ newShots atan2 cos sin timestamp s else prev in
  advanceProjectiles timestamp (obstacles s) prev.

(** ** Concrete states

    The initial values of the [useState] cells, and the inputs at which
    the examples below evaluate the code. *)

Definition initialStats : Stats.t := Stats.mk 3.12 6 1 false false.

Definition initialPlayer : Player.t := Player.mk 640 360 0 0 14 1 0 0.

Definition initialGame : Game :=
  mkGame false false 0 0 0 [] initialStats false [] 10 initialPlayer
    [] [] [] 0 1.3 GroundDefault.

(** The initial state with the perk prompt open, and with the run
    ended. *)
Definition promptOpen : Game := setPerkOpen true initialGame.
Definition endedGame : Game := setGameOver true initialGame.

(** A random source that always answers one half. *)
Definition halfDraws : nat -> Q := fun _ => 0.5.

(** A random source that cycles through 0, 0.2, 0.4, 0.6, 0.8. *)
Definition cyclingDraws : nat -> Q :=
  fun k => inject_Z (Z.of_nat (k mod 5)) / 5.

(** Two vulnerable enemies, each overlapped by one non-piercing arrow. *)
Definition twoEnemies : list Enemy.t :=
  [Enemy.mk 100 100 0 0 12 300; Enemy.mk 200 200 0 0 12 300].

Definition arrowA : Projectile.t := Projectile.mk 100 100 6 0 4 600 0 false.
Definition arrowB : Projectile.t := Projectile.mk 200 200 6 0 4 600 0 false.

Definition twoHits : Game :=
  setEnemies twoEnemies (setProjectiles [arrowA; arrowB]
    (setRunning true initialGame)).

(** An enemy standing on the player, spawned at time 1000. *)
Definition ambush : Game :=
  setEnemies [Enemy.mk 640 360 0 0 12 (1000 + 300)]
    (setRunning true initialGame).

(** A player in the bottom right corner of the arena, moving down and
    right at the initial player speed. *)
Definition cornerPlayer : Player.t := Player.mk 981 706 3.12 3.12 14 1 0 0.

(** An obstacle of the size [spawnObstacles] creates for radius 14. *)
Definition pillar : Obstacle.t := Obstacle.mk 700 360 28 56.

(** A player above and left of the top left corner of [pillar], moving
    down and right. *)
Definition diagonalPlayer : Player.t :=
  Player.mk 674 320 3.12 3.12 14 1 0 0.

(** A player walking right in the middle of the arena. *)
Definition walkingPlayer : Player.t := Player.mk 640 360 3.12 0 14 1 0 0.

(** A ricochet arrow about to cross the right side of the arena at row
    360, flying at speed 6. *)
Definition edgeArrow : Projectile.t :=
  Projectile.mk 915 355.2 3.6 4.8 4 0 0 true.

(** An obstacle whose right edge is 8.6 units inside the position
    [edgeArrow] would reach. *)
Definition sideObstacle : Obstacle.t := Obstacle.mk 895 360 28 56.

(** A run with three piercing arrows per volley, the player at rest. *)
Definition tripleShot : Game :=
  setStats (Stats.mk 3.12 6 3 true false) (setRunning true initialGame).

(** Stand-ins for the trigonometric functions in the examples: every
    angle has cosine 0.6 and sine 0.8. *)
Definition flatAtan2 : Q -> Q -> Q := fun _ _ => 0.
Definition flatCos : Q -> Q := fun _ => 0.6.
Definition flatSin : Q -> Q := fun _ => 0.8.

(** ** Input handlers and run control *)

Definition withVelocity (vx vy : Q) (prev : Player.t) : Player.t :=
  Player.mk (Player.x prev) (Player.y prev) vx vy (Player.radius prev)
    (Player.aimX prev) (Player.aimY prev) (Player.lastFireTime prev).

(** The updater of [handleKeyDown]; [key] is [e.key.toLowerCase()] and
    [speed] is [stats.playerSpeed]. *)
Definition keyDownPlayer (key : string) (speed : Q) (prev : Player.t)
  : Player.t :=
  let vy := Player.vy prev in
  let vx := Player.vx prev in
  let vy := if String.eqb key "w" || String.eqb key "arrowup"
            then - speed else vy in
  let vy := if String.eqb key "s" || String.eqb key "arrowdown"
            then speed else vy in
  let vx := if String.eqb key "a" || String.eqb key "arrowleft"
            then - speed else vx in
  let vx := if String.eqb key "d" || String.eqb key "arrowright"
            then speed else vx in
  withVelocity vx vy prev.

Definition handleKeyDown (key : string) (s n : Game) : Game :=
  if negb (running s) || gameOver s then n
  else setPlayer (keyDownPlayer key (Stats.playerSpeed (stats s)) (player n)) n.

(** The updater of [handleKeyUp]: each test reads the velocity of
    [prev]. *)
Definition keyUpPlayer (key : string) (prev : Player.t) : Player.t :=
  let vy := Player.vy prev in
  let vx := Player.vx prev in
  let vy := if (String.eqb key "w" || String.eqb key "arrowup")
               && Qltb (Player.vy prev) 0 then 0 else vy in
  let vy := if (String.eqb key "s" || String.eqb key "arrowdown")
               && Qltb 0 (Player.vy prev) then 0 else vy in
  let vx := if (String.eqb key "a" || String.eqb key "arrowleft")
               && Qltb (Player.vx prev) 0 then 0 else vx in
  let vx := if (String.eqb key "d" || String.eqb key "arrowright")
               && Qltb 0 (Player.vx prev) then 0 else vx in
  withVelocity vx vy prev.

Definition handleKeyUp (key : string) (s n : Game) : Game :=
  if negb (running s) || gameOver s then n
  else setPlayer (keyUpPlayer key (player n)) n.

Definition BASE_PLAYER_SPEED : Q := 3.12.

Definition resetGame (n : Game) : Game :=
  let n := setRunning false n in
  let n := setGameOver false n in
  let n := setScore 0%Z n in
  let n := setKills 0%Z n in
  let n := setPlayer
             (Player.mk (canvasWidth / 2) (canvasHeight / 2) 0 0 14 1 0 0) n in
  let n := setProjectiles [] n in
  let n := setEnemies [] n in
  let n := setDrops [] n in
  let n := setObstacles [] n in
  let n := setLastEnemySpawn 0 n in
  let n := setStats (Stats.mk BASE_PLAYER_SPEED 6 1 false false) n in
  let n := setNextMilestone 10%Z n in
  let n := setPerkOpen false n in
  let n := setEnemySpeed 1.3 n in
  setGroundColors GroundDefault n.

Definition toggleRunning (s n : Game) : Game :=
  if gameOver s then setRunning true (resetGame n)
  else setRunning (negb (running s)) n.

(** A run with one drop within the player's reach and one far away. *)
Definition lootGame : Game :=
  setDrops [Drop.mk 650 360 12; Drop.mk 100 100 12]
    (setRunning true initialGame).

(** A walking player, and an arrow with one pierce charge on top of an
    enemy whose spawn window has passed. *)
Definition piercingHit : Game :=
  setPlayer walkingPlayer
    (setEnemies [Enemy.mk 600 300 0 0 12 300]
       (setProjectiles [Projectile.mk 600 300 6 0 4 600 1 false]
          (setRunning true initialGame))).

(** A plain arrow flying right from the centre of the arena. *)
Definition plainArrow : Projectile.t := Projectile.mk 640 360 6 0 4 0 0 false.

(** Players moving down and right, one just left of [pillar] and one
    just above it. *)
Definition blockedPlayer : Player.t := Player.mk 671 360 3.12 3.12 14 1 0 0.
Definition landedPlayer : Player.t := Player.mk 700 317 3.12 3.12 14 1 0 0.

(** What the placement loop of [spawnObstacles] guarantees of the
    obstacle at each index [i] of the list it builds: its size, the
    placement test against the obstacles before it, and the draws its
    position comes from. *)
Definition obstaclesWellPlaced (draws : nat -> Q) (s : Game)
           (l : list Obstacle.t) : Prop :=
  forall i ob,
    nth_error l i = Some ob ->
    let r := Player.radius (player s) in
    Obstacle.width ob = r * 2
    /\ Obstacle.height ob = r * 2 * 2
    /\ obstacleCandidateOk s (firstn i l) (Obstacle.x ob) (Obstacle.y ob)
       = true
    /\ exists j,
         Obstacle.y ob = 50 + draws j * (canvasHeight - 100)
         /\ Obstacle.x ob
            = cxArena - (halfWAt (Obstacle.y ob) - (r * 2 / 2 + 8))
              + draws (S j) * ((halfWAt (Obstacle.y ob) - (r * 2 / 2 + 8)) * 2).

(** ** The earlier version of the component

    The first component of the file: a 640x360 rectangular arena without
    obstacles.  Only the stages that differ from the later version and use
    no square root are embedded. *)

Module Earlier.

Definition canvasWidth : Q := 640.
Definition canvasHeight : Q := 360.
Definition projectileLifetime : Q := 2500.

Definition project (x y : Q) : Projected :=
  let topY := canvasHeight * 0.2 in
  let bottomY := canvasHeight * 0.95 in
  let t := Qmax 0 (Qmin 1 (y / canvasHeight)) in
  let widthScale := 0.6 + (1 - 0.6) * t in
  let sx := canvasWidth / 2 + (x - canvasWidth / 2) * widthScale in
  let sy := topY + (bottomY - topY) * t in
  mkProjected sx sy widthScale.

(** The updater passed to [setPlayer] by [gameLoop]. *)
Definition advancePlayer (prev : Player.t) : Player.t :=
  let newX := Player.x prev + Player.vx prev in
  let newY := Player.y prev + Player.vy prev in
  Player.mk
    (Qmax (Player.radius prev) (Qmin (canvasWidth - Player.radius prev) newX))
    (Qmax (Player.radius prev) (Qmin (canvasHeight - Player.radius prev) newY))
    (Player.vx prev) (Player.vy prev) (Player.radius prev)
    (Player.aimX prev) (Player.aimY prev) (Player.lastFireTime prev).

Definition alive (timestamp : Q) (p : Projectile.t) : bool :=
  Qltb (timestamp - Projectile.createdAt p) projectileLifetime.

(** The function mapped over the projectiles that are still alive. *)
Definition advanceProjectile (p : Projectile.t) : Projectile.t :=
  let nx := Projectile.x p + Projectile.vx p in
  let ny := Projectile.y p + Projectile.vy p in
  let nvx := Projectile.vx p in
  let nvy := Projectile.vy p in
  if Projectile.canRicochet p then
    let nvx :=
      if Qle_bool nx (Projectile.radius p)
         || Qle_bool (canvasWidth - Projectile.radius p) nx
      then - nvx else nvx in
    let nvy :=
      if Qle_bool ny (Projectile.radius p)
         || Qle_bool (canvasHeight - Projectile.radius p) ny
      then - nvy else nvy in
    moved p (Projectile.x p + nvx) (Projectile.y p + nvy) nvx nvy
  else moved p nx ny nvx nvy.

(** The updater passed to [setProjectiles] by [gameLoop]. *)
Definition advanceProjectiles (timestamp : Q) (prev : list Projectile.t)
  : list Projectile.t :=
  map advanceProjectile (filter (alive timestamp) prev).

End Earlier.

(** ** The snake game *)

Module Snake.

Record Position := mkPosition { x : Z; y : Z }.

Inductive Direction := Up | Down | Left | Right.

Record State := mkState {
  running : bool;
  gameOver : bool;
  direction : Direction;
  snake : list Position;
  food : Position;
  score : Z }.

Definition gridSize : Z := 20.

Definition setRunning (v : bool) (g : State) : State :=
  mkState v (gameOver g) (direction g) (snake g) (food g) (score g).

Definition setGameOver (v : bool) (g : State) : State :=
  mkState (running g) v (direction g) (snake g) (food g) (score g).

Definition setDirection (v : Direction) (g : State) : State :=
  mkState (running g) (gameOver g) v (snake g) (food g) (score g).

Definition setSnake (v : list Position) (g : State) : State :=
  mkState (running g) (gameOver g) (direction g) v (food g) (score g).

Definition setFood (v : Position) (g : State) : State :=
  mkState (running g) (gameOver g) (direction g) (snake g) v (score g).

Definition setScore (v : Z) (g : State) : State :=
  mkState (running g) (gameOver g) (direction g) (snake g) (food g) v.

Definition isDirection (a b : Direction) : bool :=
  match a, b with
  | Up, Up | Down, Down | Left, Left | Right, Right => true
  | _, _ => false
  end.

(** [key] is [e.key.toLowerCase()]. *)
Definition handleKeyDown (key : string) (s n : State) : State :=
  if (String.eqb key "arrowup" || String.eqb key "w")
     && negb (isDirection (direction s) Down)
  then setDirection Up n
  else if (String.eqb key "arrowdown" || String.eqb key "s")
          && negb (isDirection (direction s) Up)
  then setDirection Down n
  else if (String.eqb key "arrowleft" || String.eqb key "a")
          && negb (isDirection (direction s) Right)
  then setDirection Left n
  else if (String.eqb key "arrowright" || String.eqb key "d")
          && negb (isDirection (direction s) Left)
  then setDirection Right n
  else n.

Definition samePosition (a b : Position) : bool :=
  (x a =? x b)%Z && (y a =? y b)%Z.

Section WithDraws.

Variable draws : nat -> Q.

(** [placeFood] calls itself until the cell it draws is off the snake
    captured by its closure; [fuel] bounds the number of calls. *)
Fixpoint placeFood (fuel : nat) (s n : State) (k : nat)
  : Outcome (State * nat) :=
  match fuel with
  | O => OutOfFuel
  | S f =>
      let newFood :=
        mkPosition (Qfloor (draws k * inject_Z gridSize))
                   (Qfloor (draws (S k) * inject_Z gridSize)) in
      if existsb (fun segment => samePosition segment newFood) (snake s)
      then placeFood f s n (S (S k))
      else Done (setFood newFood n, S (S k))
  end.

Definition resetGame (fuel : nat) (s n : State) (k : nat)
  : Outcome (State * nat) :=
  let n := setRunning false n in
  let n := setGameOver false n in
  let n := setDirection Right n in
  let n := setSnake [mkPosition 10 10; mkPosition 9 10; mkPosition 8 10] n in
  let n := setScore 0 n in
  placeFood fuel s n k.

Definition moveHead (d : Direction) (head : Position) : Position :=
  match d with
  | Up => mkPosition (x head) (y head - 1)
  | Down => mkPosition (x head) (y head + 1)
  | Left => mkPosition (x head - 1) (y head)
  | Right => mkPosition (x head + 1) (y head)
  end.

Definition outOfGrid (head : Position) : bool :=
  (x head <? 0)%Z || (gridSize <=? x head)%Z
  || (y head <? 0)%Z || (gridSize <=? y head)%Z.

(** One run of the interval callback: the updater passed to [setSnake]
    and the [setX] calls it makes.  With an empty [prevSnake] the head
    has no coordinates, no test succeeds, and the popped result is empty
    again. *)
Definition tick (fuel : nat) (s n : State) (k : nat)
  : Outcome (State * nat) :=
  match snake n with
  | [] => Done (setSnake [] n, k)
  | first :: rest =>
      let head := moveHead (direction s) first in
      if outOfGrid head
      then Done (setRunning false (setGameOver true n), k)
      else if existsb (samePosition head) rest
      then Done (setRunning false (setGameOver true n), k)
      else if samePosition head (food s)
      then
        match placeFood fuel s (setScore (score n + 1) n) k with
        | Done (n', k') => Done (setSnake (head :: first :: rest) n', k')
        | OutOfFuel => OutOfFuel
        | TypeError => TypeError
        end
      else Done (setSnake (removelast (head :: first :: rest)) n, k)
  end.

(** The cell drawn by a call of [placeFood] that starts at draw [k]. *)
Definition drawnCell (k : nat) : Position :=
  mkPosition (Qfloor (draws k * inject_Z gridSize))
             (Qfloor (draws (S k) * inject_Z gridSize)).

End WithDraws.

Definition toggleRunning (s n : State) : State :=
  if negb (gameOver s) then setRunning (negb (running s)) n else n.

(** The direction a snake moving in [d] must not turn to. *)
Definition opposite (d : Direction) : Direction :=
  match d with Up => Down | Down => Up | Left => Right | Right => Left end.

Definition inGrid (p : Position) : Prop :=
  (0 <= x p < gridSize)%Z /\ (0 <= y p < gridSize)%Z.

Definition initial : State :=
  mkState false false Right
    [mkPosition 10 10; mkPosition 9 10; mkPosition 8 10]
    (mkPosition 15 10) 0.

End Snake.

(** Every cell of the snake grid, and a state whose snake lies on all of
    them. *)
Definition allCells : list Snake.Position :=
  flat_map (fun i => map (fun j => Snake.mkPosition (Z.of_nat i) (Z.of_nat j))
                         (seq 0 20)) (seq 0 20).

Definition crowded : Snake.State :=
  Snake.mkState true false Snake.Right allCells (Snake.mkPosition 0 0) 397.

(** The starting snake, running, and the same snake about to eat. *)
Definition crawling : Snake.State := Snake.setRunning true Snake.initial.

Definition feeding : Snake.State :=
  Snake.setFood (Snake.mkPosition 11 10) crawling.

(** ** The enemy-advance stage *)

Section Pursuit.

(** [Math.sqrt]. *)
Variable sqrt : Q -> Q.

(** The velocity an enemy takes: towards the player at [speed], or zero
    when the distance is not positive. *)
Definition enemyVelocity (pl : Player.t) (speed : Q) (enemy : Enemy.t)
  : Q * Q :=
  let dx := Player.x pl - Enemy.x enemy in
  let dy := Player.y pl - Enemy.y enemy in
  let distance := sqrt (dx * dx + dy * dy) in
  if Qltb 0 distance
  then ((dx / distance) * speed, (dy / distance) * speed)
  else (0, 0).

Definition enemyCandX (obs : list Obstacle.t) (vx : Q) (enemy : Enemy.t)
  : Q :=
  let newX := Enemy.x enemy + vx in
  if checkObstacleCollision obs newX (Enemy.y enemy) (Enemy.radius enemy)
  then Enemy.x enemy else newX.

Definition enemyCandY (obs : list Obstacle.t) (vy : Q) (enemy : Enemy.t)
  : Q :=
  let newY := Enemy.y enemy + vy in
  if checkObstacleCollision obs (Enemy.x enemy) newY (Enemy.radius enemy)
  then Enemy.y enemy else newY.

(** The function mapped over the enemies by [gameLoop]. *)
Definition advanceEnemy (obs : list Obstacle.t) (pl : Player.t) (speed : Q)
           (enemy : Enemy.t) : Enemy.t :=
  let vx := fst (enemyVelocity pl speed enemy) in
  let vy := snd (enemyVelocity pl speed enemy) in
  let newX := enemyCandX obs vx enemy in
  let newY := enemyCandY obs vy enemy in
  let hw := halfWAt newY - Enemy.radius enemy in
  let minX := cxArena - hw in
  let maxX := cxArena + hw in
  let newX := Qmax minX (Qmin maxX newX) in
  let newY :=
    Qmax (Enemy.radius enemy)
         (Qmin (canvasHeight - Enemy.radius enemy) newY) in
  Enemy.mk newX newY vx vy (Enemy.radius enemy)
    (Enemy.spawnInvulUntil enemy).

(** The updater passed to [setEnemies] by [gameLoop]; the player, the
    obstacles and the speed are those of the rendered state. *)
Definition advanceEnemies (s : Game) (prev : list Enemy.t) : list Enemy.t :=
  map (advanceEnemy (obstacles s) (player s) (enemySpeed s)) prev.

End Pursuit.

(** A stand-in for the square root in the examples, exact at 0 and 25. *)
Definition tableSqrt (q : Q) : Q := if Qeq_bool q 25 then 5 else 0.

(** An enemy three to the left of and four above the centre of
    [initialGame]'s player, and one on top of the player. *)
Definition chaser : Enemy.t :=
  Enemy.mk (Player.x initialPlayer - 3) (Player.y initialPlayer - 4)
    0 0 12 300.

Definition stacked : Enemy.t :=
  Enemy.mk (Player.x initialPlayer) (Player.y initialPlayer) 0 0 12 300.

(** * Properties *)

Lemma Qltb_lt (a b : Q) : Qltb a b = true <-> a < b.
Proof.
  unfold Qltb. rewrite negb_true_iff. split; intro H.
  - apply Qnot_le_lt. intro L. apply Qle_bool_iff in L. congruence.
  - destruct (Qle_bool b a) eqn:E; [|reflexivity].
    apply Qle_bool_iff in E. exfalso. exact (Qlt_not_le _ _ H E).
Qed.

(** ** Projection *)

Lemma halfWAt_mono (y1 y2 : Q) : y1 <= y2 -> halfWAt y1 <= halfWAt y2.
Proof.
  intro H. unfold halfWAt.
  apply Qplus_le_r. apply Qmult_le_l; [reflexivity|].
  apply Qmult_le_compat_r; [exact H|]. vm_compute. discriminate.
Qed.

(** C9.  For every [x] and every [y1 <= y2] in [[0, canvasHeight]], the
    scale returned by [project] at row [y1] is at most the scale at row
    [y2]; the scale is the half-width of the row divided by the bottom
    half-width. *)
Theorem project_scale_monotone (x y1 y2 : Q) :
  0 <= y1 -> y1 <= y2 -> y2 <= canvasHeight ->
  scale (project x y1) <= scale (project x y2)
  /\ scale (project x y1) = halfWAt y1 / BOT_HALF_W
  /\ scale (project x y2) = halfWAt y2 / BOT_HALF_W.
Proof.
  intros _ H _. split; [|split; reflexivity].
  simpl. apply Qmult_le_compat_r.
  - apply halfWAt_mono, H.
  - vm_compute. discriminate.
Qed.

Lemma project_scale_monotone_witness :
  scale (project 100 0) <= scale (project 100 720).
Proof.
  apply (project_scale_monotone 100 0 720); vm_compute; discriminate.
Defined.

(** ** Perk application *)

(** C6.  [applyPerk] maps each catalog id to its stated effect and leaves
    every other stat field as it was; every call closes the perk prompt
    and sets [running] unless the run has already ended. *)
Theorem applyPerk_catalog (s n : Game) :
  let st := stats n in
  stats (applyPerk "arrow_speed" s n)
  = Stats.mk (Stats.playerSpeed st) (Stats.projectileSpeed st * 1.1)
      (Stats.arrowCount st) (Stats.pierce st) (Stats.ricochet st)
  /\ stats (applyPerk "player_speed" s n)
     = Stats.mk (Stats.playerSpeed st * 1.25) (Stats.projectileSpeed st)
         (Stats.arrowCount st) (Stats.pierce st) (Stats.ricochet st)
  /\ stats (applyPerk "arrow_count" s n)
     = Stats.mk (Stats.playerSpeed st) (Stats.projectileSpeed st)
         (Stats.arrowCount st + 1)%nat (Stats.pierce st) (Stats.ricochet st)
  /\ stats (applyPerk "pierce" s n)
     = Stats.mk (Stats.playerSpeed st) (Stats.projectileSpeed st)
         (Stats.arrowCount st) true (Stats.ricochet st)
  /\ stats (applyPerk "ricochet" s n)
     = Stats.mk (Stats.playerSpeed st) (Stats.projectileSpeed st)
         (Stats.arrowCount st) (Stats.pierce st) true
  /\ forall id : string,
       perkOpen (applyPerk id s n) = false
       /\ running (applyPerk id s n)
          = (if gameOver s then running n else true).
Proof.
  unfold applyPerk.
  repeat split; destruct (gameOver s); reflexivity.
Qed.

Lemma perkEffect_unknown (id : string) (prev : Stats.t) :
  ~ In id ["arrow_speed"; "player_speed"; "arrow_count"; "pierce";
           "ricochet"]%string ->
  perkEffect id prev = prev.
Proof.
  intro H. unfold perkEffect.
  repeat match goal with
  | |- context [String.eqb id ?c] =>
      destruct (String.eqb_spec id c) as [E|_];
      [exfalso; apply H; rewrite E; simpl; tauto|]
  end.
  reflexivity.
Qed.

(** C10.  With an id outside the catalog, [applyPerk] leaves the stats
    unchanged, and still closes the perk prompt and, if the run is not
    over, sets [running]. *)
Theorem applyPerk_unknown_id (id : string) (s n : Game) :
  ~ In id ["arrow_speed"; "player_speed"; "arrow_count"; "pierce";
           "ricochet"]%string ->
  stats (applyPerk id s n) = stats n
  /\ perkOpen (applyPerk id s n) = false
  /\ (gameOver s = false -> running (applyPerk id s n) = true)
  /\ (gameOver s = true -> running (applyPerk id s n) = running n).
Proof.
  intro H. unfold applyPerk.
  destruct (gameOver s); simpl; rewrite (perkEffect_unknown id _ H);
    repeat split; congruence.
Qed.

Lemma applyPerk_unknown_id_witness :
  stats (applyPerk "heal" initialGame initialGame) = stats initialGame
  /\ perkOpen (applyPerk "heal" initialGame initialGame) = false
  /\ running (applyPerk "heal" initialGame initialGame) = true
  /\ running (applyPerk "heal" endedGame endedGame) = false.
Proof.
  assert (H : ~ In "heal"%string
                 ["arrow_speed"; "player_speed"; "arrow_count"; "pierce";
                  "ricochet"]%string).
  { simpl. intros [E|[E|[E|[E|[E|[]]]]]]; discriminate E. }
  destruct (applyPerk_unknown_id "heal" initialGame initialGame H)
    as (Hs & Hp & Hr & _).
  destruct (applyPerk_unknown_id "heal" endedGame endedGame H)
    as (_ & _ & _ & He).
  split; [exact Hs|]. split; [exact Hp|].
  split; [apply Hr; reflexivity | apply He; reflexivity].
Defined.

(** ** Arrays and references *)

Lemma nth_error_combine_seq {A : Type} (l : list A) (a i : nat) :
  nth_error (combine (seq a (List.length l)) l) i
  = option_map (fun e => ((a + i)%nat, e)) (nth_error l i).
Proof.
  revert a i. induction l as [|x l IH]; intros a i.
  - destruct i; reflexivity.
  - destruct i as [|i]; simpl.
    + rewrite Nat.add_0_r. reflexivity.
    + rewrite IH. rewrite Nat.add_succ_r. reflexivity.
Qed.

Lemma nth_error_indexed {A : Type} (l : list A) (i : nat) :
  nth_error (indexed l) i = option_map (pair i) (nth_error l i).
Proof. unfold indexed. rewrite nth_error_combine_seq. reflexivity. Qed.

Lemma In_indexed {A : Type} (l : list A) (j : nat) (e : A) :
  In (j, e) (indexed l) -> nth_error l j = Some e.
Proof.
  intro H. apply In_nth_error in H. destruct H as [i H].
  rewrite nth_error_indexed in H.
  destruct (nth_error l i) as [x|] eqn:E; simpl in H; [|discriminate].
  injection H as <- <-. exact E.
Qed.

Lemma split_at {A : Type} (l : list A) (i : nat) (x : A) :
  nth_error l i = Some x -> l = firstn i l ++ x :: skipn (S i) l.
Proof.
  revert i. induction l as [|a l IH]; intros [|i] H; simpl in *;
    try discriminate.
  - congruence.
  - f_equal. apply IH, H.
Qed.

Lemma In_deref {A : Type} (hp : list A) (refs : list nat) (r : nat) (a : A) :
  In r refs -> nth_error hp r = Some a -> In a (deref hp refs).
Proof.
  intros Hr Ha. unfold deref. apply in_flat_map.
  exists r. split; [exact Hr|]. rewrite Ha. left. reflexivity.
Qed.

Lemma Forall_updateAt {A : Type} (P : A -> Prop) (f : A -> A) (l : list A)
      (i : nat) :
  Forall P l ->
  (forall a, nth_error l i = Some a -> P (f a)) ->
  Forall P (updateAt i f l).
Proof.
  revert i. induction l as [|a l IH]; intros i Hl Hf; simpl.
  - destruct i; constructor.
  - inversion Hl as [|? ? Ha Hl']; subst.
    destruct i as [|i].
    + constructor; [apply Hf; reflexivity | exact Hl'].
    + constructor; [exact Ha | apply IH; [exact Hl' | exact Hf]].
Qed.

(** ** The combat pass *)

Section CombatPass.

Variable draws : nat -> Q.
Variable timestamp : Q.
Variable pl : Player.t.

Lemma combatLoop_skip (l1 l2 : list (nat * Enemy.t)) (j : nat)
      (enemy : Enemy.t) (c : Combat) :
  timestamp < Enemy.spawnInvulUntil enemy ->
  combatLoop draws timestamp pl (l1 ++ (j, enemy) :: l2) c
  = combatLoop draws timestamp pl (l1 ++ l2) c.
Proof.
  intro H. apply Qltb_lt in H.
  revert c. induction l1 as [|[j' e'] l1 IH]; intro c; simpl.
  - rewrite H. reflexivity.
  - destruct (Qltb timestamp (Enemy.spawnInvulUntil e')); [apply IH|].
    destruct (touchesPlayer pl e'); [reflexivity|].
    destruct (firstHit e' (heap c) 0); apply IH.
Qed.

Lemma combatLoop_keeps (i : nat) (es : list (nat * Enemy.t)) (c : Combat) :
  (forall e, In (i, e) es -> timestamp < Enemy.spawnInvulUntil e) ->
  In i (newEnemies c) ->
  In i (newEnemies (combatLoop draws timestamp pl es c)).
Proof.
  revert c. induction es as [|[j e] es IH]; intros c Hinv Hin; simpl.
  - exact Hin.
  - assert (Hrest : forall e', In (i, e') es ->
                               timestamp < Enemy.spawnInvulUntil e').
    { intros e' He'. apply Hinv. right. exact He'. }
    destruct (Qltb timestamp (Enemy.spawnInvulUntil e)) eqn:Ei.
    + apply IH; assumption.
    + destruct (touchesPlayer pl e); [exact Hin|].
      destruct (firstHit e (heap c) 0) as [h|]; [|apply IH; assumption].
      apply IH; [exact Hrest|]. simpl.
      apply filter_In. split; [exact Hin|].
      apply negb_true_iff, Nat.eqb_neq. intros ->.
      assert (Hlt : timestamp < Enemy.spawnInvulUntil e)
        by (apply Hinv; left; reflexivity).
      apply Qltb_lt in Hlt. congruence.
Qed.

(** No projectile object ever gets a negative pierce count. *)
Lemma combatLoop_pierces_nonneg (es : list (nat * Enemy.t)) (c : Combat) :
  Forall (fun p => (0 <= Projectile.piercesLeft p)%Z) (heap c) ->
  Forall (fun p => (0 <= Projectile.piercesLeft p)%Z)
         (heap (combatLoop draws timestamp pl es c)).
Proof.
  revert c. induction es as [|[j e] es IH]; intros c H; simpl.
  - exact H.
  - destruct (Qltb timestamp (Enemy.spawnInvulUntil e)); [apply IH, H|].
    destruct (touchesPlayer pl e); [exact H|].
    destruct (firstHit e (heap c) 0) as [h|]; [|apply IH, H].
    apply IH. simpl.
    destruct (0 <? piercesAt (heap c) h)%Z eqn:Ep; [|exact H].
    apply Forall_updateAt; [exact H|].
    intros a Ha. unfold piercesAt in Ep. rewrite Ha in Ep.
    apply Z.ltb_lt in Ep. simpl. lia.
Qed.

End CombatPass.

(** C3.  An enemy spawned at time [time] gets
    [spawnInvulUntil = time + 300]; and in a tick whose timestamp is
    strictly before an enemy's [spawnInvulUntil], the combat pass skips
    that enemy: the pass ends exactly as the pass that never visits it
    (same game-over flag, kills, drops, projectiles and random draws),
    and the enemy is still among the enemies the pass keeps. *)
Theorem spawn_invulnerability (draws : nat -> Q) (time timestamp : Q)
        (s n : Game) (k i : nat) (e : Enemy.t) :
  ((List.length (enemies s) < MAX_ENEMIES)%nat ->
   exists x y,
     enemies (fst (spawnEnemy draws time s n k))
     = enemies n ++ [Enemy.mk x y 0 0 12 (time + 300)])
  /\ (nth_error (enemies s) i = Some e ->
      timestamp < Enemy.spawnInvulUntil e ->
      let c := combatPass draws timestamp s k in
      (forall rest acc,
          combatLoop draws timestamp (player s) ((i, e) :: rest) acc
          = combatLoop draws timestamp (player s) rest acc)
      /\ c = combatLoop draws timestamp (player s)
               (removeAt i (indexed (enemies s))) (combatInit s k)
      /\ In i (newEnemies c)
      /\ In e (deref (enemies s) (newEnemies c))).
Proof.
  split.
  - intro Hcap. unfold spawnEnemy.
    apply Nat.leb_gt in Hcap. rewrite Hcap.
    destruct (sampleEnemy draws s 20 k) as [[pos|] k1]; simpl;
      eexists; eexists; reflexivity.
  - intros Hnth Hinv c.
    assert (Hkeep : In i (newEnemies c)).
    { apply combatLoop_keeps.
      - intros e' He'. apply In_indexed in He'.
        rewrite Hnth in He'. injection He' as <-. exact Hinv.
      - simpl. apply in_seq. split; [lia|]. simpl.
        apply nth_error_Some. rewrite Hnth. discriminate. }
    split; [|split; [|split]].
    + intros rest acc. apply (combatLoop_skip draws timestamp (player s) []).
      exact Hinv.
    + subst c. unfold combatPass, removeAt.
      assert (Hi : nth_error (indexed (enemies s)) i = Some (i, e)).
      { rewrite nth_error_indexed, Hnth. reflexivity. }
      rewrite (split_at _ _ _ Hi) at 1.
      apply combatLoop_skip. exact Hinv.
    + exact Hkeep.
    + exact (In_deref _ _ _ _ Hkeep Hnth).
Qed.

Lemma spawn_invulnerability_witness :
  (exists x y,
     enemies (fst (spawnEnemy halfDraws 1000 ambush ambush 0))
     = enemies ambush ++ [Enemy.mk x y 0 0 12 (1000 + 300)])
  /\ In 0%nat (newEnemies (combatPass halfDraws 1100 ambush 0))
  /\ newGameOver (combatPass halfDraws 1100 ambush 0) = false
  /\ newKills (combatPass halfDraws 1100 ambush 0) = 0%Z.
Proof.
  destruct (spawn_invulnerability halfDraws 1000 1100 ambush ambush 0 0
              (Enemy.mk 640 360 0 0 12 (1000 + 300))) as [Hspawn Hskip].
  split.
  - apply Hspawn. vm_compute. lia.
  - destruct (Hskip eq_refl eq_refl) as (_ & Heq & Hin & _).
    split; [exact Hin|]. rewrite Heq. split; reflexivity.
Defined.

(** Once the window has passed, the same enemy ends the run. *)
Example ambush_ends_run_after_window :
  newGameOver (combatPass halfDraws 1300 ambush 0) = true.
Proof. reflexivity. Qed.

(** C2, evaluated at two vulnerable enemies each overlapped by one of
    two non-piercing arrows.  Both enemies are killed; the second arrow,
    which has no pierce left and hits the second enemy, is still in the
    projectile collection the pass commits: the removal by index is
    applied to the copy the first removal has already shortened. *)
Theorem second_arrow_survives_its_hit (draws : nat -> Q)
        (queued : list Projectile.t -> list Projectile.t) :
  let c := combatPass draws 1000 twoHits 0 in
  Projectile.piercesLeft arrowB = 0%Z
  /\ firstHit (Enemy.mk 200 200 0 0 12 300) (projectiles twoHits) 0
     = Some 1%nat
  /\ newKills c = 2%Z
  /\ newEnemies c = []
  /\ newProjectiles c = [1%nat]
  /\ projectilesChanged c = true
  /\ projectiles (commitCombat queued twoHits twoHits c) = [arrowB].
Proof.
  intro c.
  assert (Hc : newKills c = 2%Z /\ newEnemies c = []
               /\ newProjectiles c = [1%nat]
               /\ projectilesChanged c = true /\ heap c = [arrowA; arrowB]).
  { subst c. vm_compute. repeat split. }
  destruct Hc as (Hk & He & Hp & Hch & Hh).
  split; [reflexivity|]. split; [reflexivity|].
  split; [exact Hk|]. split; [exact He|]. split; [exact Hp|].
  split; [exact Hch|].
  unfold commitCombat. rewrite Hch, Hp, Hh.
  repeat match goal with
  | |- context [if ?b then _ else _] => destruct b
  end; reflexivity.
Qed.

(** ** Comparisons and clamps on rationals *)

Lemma Qltb_compat (a a' b b' : Q) :
  a == a' -> b == b' -> Qltb a b = Qltb a' b'.
Proof.
  intros Ha Hb. apply eq_true_iff_eq.
  rewrite !Qltb_lt, Ha, Hb. reflexivity.
Qed.

Lemma clamp_lower (lo hi v : Q) : lo <= Qmax lo (Qmin hi v).
Proof. apply Q.le_max_l. Qed.

Lemma clamp_upper (lo hi v : Q) : lo <= hi -> Qmax lo (Qmin hi v) <= hi.
Proof. intro H. apply Q.max_lub; [exact H | apply Q.le_min_l]. Qed.

Lemma clamp_inside (lo hi v : Q) :
  lo <= v -> v <= hi -> Qmax lo (Qmin hi v) == v.
Proof.
  intros Hlo Hhi. rewrite (Q.min_r _ _ Hhi). apply Q.max_r, Hlo.
Qed.

Lemma clamp_ge (lo hi v : Q) : v <= hi -> v <= Qmax lo (Qmin hi v).
Proof.
  intro H. rewrite (Q.min_r _ _ H). apply Q.le_max_r.
Qed.

(** ** Collision helpers *)

Lemma circleRectCollides_compat (cx cx' cy cy' cr : Q) (ob : Obstacle.t) :
  cx == cx' -> cy == cy' ->
  circleRectCollides cx cy cr ob = circleRectCollides cx' cy' cr ob.
Proof.
  intros Hx Hy. unfold circleRectCollides.
  apply Qltb_compat; [|reflexivity].
  rewrite Hx, Hy. reflexivity.
Qed.

Lemma checkObstacleCollision_compat (obs : list Obstacle.t)
      (x x' y y' r : Q) :
  x == x' -> y == y' ->
  checkObstacleCollision obs x y r = checkObstacleCollision obs x' y' r.
Proof.
  intros Hx Hy. unfold checkObstacleCollision.
  induction obs as [|ob obs IH]; simpl; [reflexivity|].
  rewrite IH, (circleRectCollides_compat x x' y y' r ob Hx Hy).
  reflexivity.
Qed.

Lemma find_existsb_false {A : Type} (f : A -> bool) (l : list A) :
  existsb f l = false -> find f l = None.
Proof.
  induction l as [|a l IH]; simpl; [reflexivity|].
  destruct (f a); simpl; [discriminate | exact IH].
Qed.

(** ** The player-advance stage *)

(** C1, as the code has it.  After the player-advance stage the row [y]
    is within [[radius, canvasHeight - radius]], and [x] is within the
    trapezoid bound of the candidate row, the row reached before the
    vertical clamp; that is the bound of the player's own row whenever the
    candidate row is not below [canvasHeight - radius].  The circle is
    clear of every obstacle when it was clear before the step, the clamp
    moves nothing, and the step is not a move on both axes that was
    accepted on each axis alone. *)
Theorem player_advance_bounds (obs : list Obstacle.t) (prev : Player.t) :
  let p := advancePlayer obs prev in
  let r := Player.radius prev in
  let candX := playerCandX obs prev in
  let candY := playerCandY obs prev in
  (r <= canvasHeight - r ->
   r <= Player.y p /\ Player.y p <= canvasHeight - r)
  /\ (r <= halfWAt candY ->
      cxArena - (halfWAt candY - r) <= Player.x p
      /\ Player.x p <= cxArena + (halfWAt candY - r))
  /\ (r <= halfWAt candY -> candY <= canvasHeight - r ->
      cxArena - (halfWAt (Player.y p) - r) <= Player.x p
      /\ Player.x p <= cxArena + (halfWAt (Player.y p) - r))
  /\ (checkObstacleCollision obs (Player.x prev) (Player.y prev) r = false ->
      cxArena - (halfWAt candY - r) <= candX ->
      candX <= cxArena + (halfWAt candY - r) ->
      r <= candY -> candY <= canvasHeight - r ->
      Player.vx prev == 0 \/ Player.vy prev == 0
      \/ checkObstacleCollision obs (Player.x prev + Player.vx prev)
           (Player.y prev) r = true
      \/ checkObstacleCollision obs (Player.x prev)
           (Player.y prev + Player.vy prev) r = true ->
      checkObstacleCollision obs (Player.x p) (Player.y p) r = false).
Proof.
  intros p r candX candY.
  assert (Px : Player.x p
               = Qmax (cxArena - (halfWAt candY - r))
                      (Qmin (cxArena + (halfWAt candY - r)) candX))
    by reflexivity.
  assert (Py : Player.y p = Qmax r (Qmin (canvasHeight - r) candY))
    by reflexivity.
  assert (Hx : r <= halfWAt candY ->
               cxArena - (halfWAt candY - r) <= Player.x p
               /\ Player.x p <= cxArena + (halfWAt candY - r)).
  { intro Hr. rewrite Px. split.
    - apply clamp_lower.
    - apply clamp_upper. lra. }
  split; [|split; [exact Hx|split]].
  - intro Hr. rewrite Py. split.
    + apply clamp_lower.
    + apply clamp_upper, Hr.
  - intros Hr Hc. destruct (Hx Hr) as [Hlo Hhi].
    assert (Hm : halfWAt candY <= halfWAt (Player.y p)).
    { apply halfWAt_mono. rewrite Py. apply clamp_ge, Hc. }
    split; lra.
  - intros Hclear Hlo Hhi Hylo Hyhi Hmove.
    assert (Ex : Player.x p == candX).
    { rewrite Px. apply clamp_inside; assumption. }
    assert (Ey : Player.y p == candY).
    { rewrite Py. apply clamp_inside; assumption. }
    rewrite (checkObstacleCollision_compat obs _ _ _ _ r Ex Ey).
    clear Px Py Hx Ex Ey Hlo Hhi Hylo Hyhi.
    subst candX candY. unfold playerCandX, playerCandY. subst r.
    destruct (checkObstacleCollision obs (Player.x prev + Player.vx prev)
                (Player.y prev) (Player.radius prev)) eqn:Cx;
      destruct (checkObstacleCollision obs (Player.x prev)
                  (Player.y prev + Player.vy prev) (Player.radius prev))
        eqn:Cy;
      try assumption.
    destruct Hmove as [H0|[H0|[H0|H0]]]; try discriminate.
    + rewrite <- Cy. apply checkObstacleCollision_compat; [|reflexivity].
      rewrite H0. ring.
    + rewrite <- Cx. apply checkObstacleCollision_compat; [reflexivity|].
      rewrite H0. ring.
Qed.

Lemma player_advance_bounds_witness :
  let p := advancePlayer [pillar] walkingPlayer in
  (14 <= Player.y p /\ Player.y p <= canvasHeight - 14)
  /\ (cxArena - (halfWAt (playerCandY [pillar] walkingPlayer) - 14)
      <= Player.x p
      /\ Player.x p
         <= cxArena + (halfWAt (playerCandY [pillar] walkingPlayer) - 14))
  /\ (cxArena - (halfWAt (Player.y p) - 14) <= Player.x p
      /\ Player.x p <= cxArena + (halfWAt (Player.y p) - 14))
  /\ checkObstacleCollision [pillar] (Player.x p) (Player.y p) 14 = false.
Proof.
  destruct (player_advance_bounds [pillar] walkingPlayer)
    as (Hy & Hcand & Hrow & Hclear).
  split; [|split; [|split]].
  - apply Hy. vm_compute. discriminate.
  - apply Hcand. vm_compute. discriminate.
  - apply Hrow; vm_compute; discriminate.
  - apply Hclear.
    + reflexivity.
    + vm_compute. discriminate.
    + vm_compute. discriminate.
    + vm_compute. discriminate.
    + vm_compute. discriminate.
    + right. left. reflexivity.
Defined.

(** C1 fails as stated.  From the bottom right corner, [x] ends beyond
    the trapezoid bound of the player's row, because the bound is taken at
    the row reached before the vertical clamp; and a diagonal step that is
    free on each axis alone ends inside an obstacle. *)
Lemma player_advance_escapes :
  (let p := advancePlayer [] cornerPlayer in
   Player.x cornerPlayer
   <= cxArena + (halfWAt (Player.y cornerPlayer) - Player.radius cornerPlayer)
   /\ cxArena + (halfWAt (Player.y p) - Player.radius p) < Player.x p)
  /\ (let p := advancePlayer [pillar] diagonalPlayer in
      checkObstacleCollision [pillar] (Player.x diagonalPlayer)
        (Player.y diagonalPlayer) (Player.radius diagonalPlayer) = false
      /\ checkObstacleCollision [pillar] (Player.x p) (Player.y p)
           (Player.radius p) = true).
Proof.
  split; split; vm_compute; first [reflexivity | discriminate].
Qed.

(** ** The projectile-advance stage *)

(** C8, as the code has it.  A ricochet-enabled projectile whose lifetime
    has not expired is kept in the tick.  The boundary check inverts [vx]
    when the advanced position leaves through a slanted side and [vy]
    when it leaves through the top or bottom, and advances again with the
    inverted component.  When the position so reached hits no obstacle,
    the kept projectile carries that velocity and position.  When it hits
    one, the first obstacle hit inverts once more the component on its
    penetration axis, and the kept projectile carries the velocity so
    obtained and the original position advanced by it. *)
Theorem ricochet_edge_bounce (timestamp : Q) (obs : list Obstacle.t)
        (p : Projectile.t) :
  Projectile.canRicochet p = true ->
  expired timestamp p = false ->
  let vx' := if exitsSide p then - Projectile.vx p else Projectile.vx p in
  let vy' := if exitsEnds p then - Projectile.vy p else Projectile.vy p in
  let nx := Projectile.x p + vx' in
  let ny := Projectile.y p + vy' in
  bounceSide p = Some (vx', nx)
  /\ bounceEnds p = Some (vy', ny)
  /\ exists q,
    advanceProjectile timestamp obs p = Some q
    /\ advanceProjectiles timestamp obs [p] = [q]
    /\ (checkObstacleCollision obs nx ny (Projectile.radius p) = false ->
        q = moved p nx ny vx' vy'
        /\ (exitsSide p = true ->
            Projectile.vx q = - Projectile.vx p
            /\ Projectile.x q = Projectile.x p + - Projectile.vx p)
        /\ (exitsEnds p = true ->
            Projectile.vy q = - Projectile.vy p
            /\ Projectile.y q = Projectile.y p + - Projectile.vy p))
    /\ (checkObstacleCollision obs nx ny (Projectile.radius p) = true ->
        exists ob,
          find (circleRectCollides nx ny (Projectile.radius p)) obs = Some ob
          /\ In ob obs
          /\ circleRectCollides nx ny (Projectile.radius p) ob = true
          /\ match circleRectCollisionAxis nx ny (Projectile.radius p) ob with
             | AxisX =>
                 Projectile.vx q = - vx' /\ Projectile.vy q = vy'
             | AxisY =>
                 Projectile.vx q = vx' /\ Projectile.vy q = - vy'
             end
          /\ Projectile.x q = Projectile.x p + Projectile.vx q
          /\ Projectile.y q = Projectile.y p + Projectile.vy q
          /\ q = moved p (Projectile.x q) (Projectile.y q)
                   (Projectile.vx q) (Projectile.vy q)).
Proof.
  intros Hr He vx' vy' nx ny.
  assert (Hs : bounceSide p = Some (vx', nx)).
  { unfold bounceSide, nx, vx'. rewrite Hr.
    destruct (exitsSide p); reflexivity. }
  assert (Hb : bounceEnds p = Some (vy', ny)).
  { unfold bounceEnds, ny, vy'. rewrite Hr.
    destruct (exitsEnds p); reflexivity. }
  split; [exact Hs|]. split; [exact Hb|].
  unfold advanceProjectiles, flat_map.
  unfold advanceProjectile. rewrite He, Hs, Hb, Hr.
  destruct (find (circleRectCollides nx ny (Projectile.radius p)) obs)
    as [ob|] eqn:Ef.
  - eexists. split; [reflexivity|]. split; [reflexivity|]. split.
    + intro Hc. apply find_existsb_false in Hc. congruence.
    + intros _. exists ob. apply find_some in Ef as Hin.
      destruct Hin as [Hin Hhit].
      split; [reflexivity|]. split; [exact Hin|]. split; [exact Hhit|].
      destruct (circleRectCollisionAxis nx ny (Projectile.radius p) ob);
        (split; [split; reflexivity|]);
        (split; [reflexivity|]); (split; reflexivity).
  - eexists. split; [reflexivity|]. split; [reflexivity|]. split.
    + intros _. split; [reflexivity|].
      split; intro Hx; unfold nx, ny, vx', vy'; rewrite Hx;
        split; reflexivity.
    + intro Hc. unfold checkObstacleCollision in Hc.
      apply existsb_exists in Hc. destruct Hc as (o & Ho & Hhit).
      exfalso. pose proof (find_none _ _ Ef o Ho) as Hn. congruence.
Qed.

Lemma ricochet_edge_bounce_witness :
  exitsSide edgeArrow = true
  /\ (exists q,
         advanceProjectiles 100 [] [edgeArrow] = [q]
         /\ Projectile.vx q = - Projectile.vx edgeArrow
         /\ Projectile.x q
            = Projectile.x edgeArrow + - Projectile.vx edgeArrow)
  /\ exists q,
       advanceProjectiles 100 [sideObstacle] [edgeArrow] = [q]
       /\ Projectile.vx q = - - Projectile.vx edgeArrow
       /\ Projectile.x q = Projectile.x edgeArrow + Projectile.vx q.
Proof.
  assert (Hside : exitsSide edgeArrow = true) by reflexivity.
  split; [exact Hside|]. split.
  - destruct (ricochet_edge_bounce 100 [] edgeArrow eq_refl eq_refl)
      as (_ & _ & q & _ & Hkept & Hfree & _).
    exists q. split; [exact Hkept|].
    destruct (Hfree eq_refl) as (_ & Hvx & _).
    exact (Hvx Hside).
  - destruct (ricochet_edge_bounce 100 [sideObstacle] edgeArrow
                eq_refl eq_refl)
      as (_ & _ & q & _ & Hkept & _ & Hhit).
    exists q. split; [exact Hkept|].
    destruct Hhit as (ob & Hfind & _ & _ & Haxis & Hx & _);
      [vm_compute; reflexivity|].
    split; [|exact Hx].
    vm_compute in Hfind. injection Hfind as <-.
    remember (Projectile.vx q) as v eqn:Ev.
    remember (Projectile.vy q) as w eqn:Ew.
    vm_compute in Haxis. destruct Haxis as [Hvx _].
    rewrite Hvx. vm_compute. reflexivity.
Defined.

(** C8 fails as stated.  [edgeArrow] would leave through the right side;
    the boundary check inverts [vx], but the position reached with the
    inverted [vx] touches [sideObstacle] on the x axis, so the obstacle
    bounce inverts [vx] back: the kept projectile has its original [vx]
    and lies beyond the side bound of its row. *)
Lemma ricochet_edge_bounce_undone :
  Projectile.canRicochet edgeArrow = true
  /\ expired 100 edgeArrow = false
  /\ exitsSide edgeArrow = true
  /\ exists q,
       advanceProjectile 100 [sideObstacle] edgeArrow = Some q
       /\ Projectile.vx q == Projectile.vx edgeArrow
       /\ ~ Projectile.vx q == - Projectile.vx edgeArrow
       /\ cxArena + (halfWAt (Projectile.y q) - Projectile.radius q)
          < Projectile.x q.
Proof.
  split; [reflexivity|]. split; [reflexivity|]. split; [reflexivity|].
  eexists. split; [vm_compute; reflexivity|].
  split; [|split]; vm_compute; first [reflexivity | discriminate].
Qed.

(** ** Random draws *)

Lemma floor_scaled_range (d : Q) (N : Z) :
  0 <= d -> d < 1 -> (0 < N)%Z ->
  (0 <= Qfloor (d * inject_Z N) < N)%Z.
Proof.
  intros H0 H1 HN.
  assert (HNq : 0 < inject_Z N).
  { change 0 with (inject_Z 0). rewrite <- Zlt_Qlt. exact HN. }
  split.
  - rewrite <- (Qfloor_Z 0). apply Qfloor_resp_le.
    apply Qmult_le_0_compat; [exact H0 | apply Qlt_le_weak, HNq].
  - rewrite Zlt_Qlt.
    apply Qle_lt_trans with (d * inject_Z N); [apply Qfloor_le|].
    rewrite <- (Qmult_1_l (inject_Z N)) at 2.
    apply Qmult_lt_compat_r; assumption.
Qed.

(** ** The two spawners *)

Section Spawners.

Variable draws : nat -> Q.

Lemma sampleEnemy_exhausted (s : Game) (budget k : nat) :
  fst (sampleEnemy draws s budget k) = None ->
  snd (sampleEnemy draws s budget k) = (k + 2 * budget)%nat.
Proof.
  revert k. induction budget as [|b IH]; intros k H; simpl in *.
  - lia.
  - destruct (enemyCandidateOk s _ _); [discriminate|].
    rewrite (IH _ H). lia.
Qed.

Lemma placeObstacles_S (s : Game) (m : nat)
      (newObstacles : list Obstacle.t) (k : nat) :
  placeObstacles draws s (S m) newObstacles k
  = let '(found, k1) := sampleObstacle draws s newObstacles 20 k in
    placeObstacles draws s m
      match found with
      | Some (x, y) =>
          newObstacles ++
            [Obstacle.mk x y (Player.radius (player s) * 2)
               (Player.radius (player s) * 2 * 2)]
      | None => newObstacles
      end k1.
Proof. reflexivity. Qed.

Lemma placeObstacles_appends (s : Game) (toAdd : nat)
      (newObstacles : list Obstacle.t) (k : nat) :
  exists added,
    fst (placeObstacles draws s toAdd newObstacles k) = newObstacles ++ added
    /\ (List.length added <= toAdd)%nat.
Proof.
  revert newObstacles k.
  induction toAdd as [|m IH]; intros newObstacles k.
  - exists []. simpl. rewrite app_nil_r. split; [reflexivity | lia].
  - rewrite placeObstacles_S.
    destruct (sampleObstacle draws s newObstacles 20 k) as [[[x y]|] k1].
    + destruct (IH (newObstacles ++
                      [Obstacle.mk x y (Player.radius (player s) * 2)
                         (Player.radius (player s) * 2 * 2)]) k1)
        as (added & Ha & Hl).
      eexists (_ :: added). rewrite Ha, <- app_assoc. simpl.
      split; [reflexivity | lia].
    + destruct (IH newObstacles k1) as (added & Ha & Hl).
      exists added. split; [exact Ha | lia].
Qed.

End Spawners.

(** C7, as the code has it.  When the enemy spawner's 20 attempts are
    exhausted, the enemy is still created, at the unchecked fallback
    position drawn next.  The obstacle spawner has no fallback: a
    placement whose 20 attempts are exhausted is skipped, so a milestone
    crossing appends at most [toAdd] obstacles, where [toAdd] is 1 or 2. *)
Theorem spawner_fallbacks (draws : nat -> Q) (time : Q) (s n : Game)
        (k : nat) :
  ((List.length (enemies s) < MAX_ENEMIES)%nat ->
   fst (sampleEnemy draws s 20 k) = None ->
   let pos := enemyFallback draws (k + 40) in
   spawnEnemy draws time s n k
   = (setLastEnemySpawn time
        (setEnemies
           (enemies n ++ [Enemy.mk (fst pos) (snd pos) 0 0 12 (time + 300)])
           n),
      (k + 42)%nat))
  /\ (0 <= draws k -> draws k < 1 ->
      exists added,
        obstacles (fst (spawnObstacles draws s n k)) = obstacles n ++ added
        /\ (1 <= obstaclesToAdd draws k <= 2)%Z
        /\ (List.length added <= Z.to_nat (obstaclesToAdd draws k))%nat)
  /\ (forall (m : nat) (newObstacles : list Obstacle.t) (j : nat),
         fst (sampleObstacle draws s newObstacles 20 j) = None ->
         placeObstacles draws s (S m) newObstacles j
         = placeObstacles draws s m newObstacles
             (snd (sampleObstacle draws s newObstacles 20 j))).
Proof.
  split; [|split].
  - intros Hcap Hnone pos. unfold spawnEnemy.
    apply Nat.leb_gt in Hcap. rewrite Hcap.
    pose proof (sampleEnemy_exhausted draws s 20 k Hnone) as Hk.
    destruct (sampleEnemy draws s 20 k) as [found k1].
    simpl in Hnone, Hk. subst found k1.
    replace (k + 2 * 20)%nat with (k + 40)%nat by lia.
    replace (S (S (k + 40))) with (k + 42)%nat by lia.
    reflexivity.
  - intros H0 H1.
    pose proof (floor_scaled_range (draws k) 2 H0 H1 eq_refl) as Hf.
    unfold spawnObstacles.
    destruct (placeObstacles_appends draws s
                (Z.to_nat (obstaclesToAdd draws k)) [] (S k))
      as (added & Ha & Hl).
    destruct (placeObstacles draws s _ [] (S k)) as [newObstacles k1].
    simpl in Ha. subst newObstacles. exists added.
    split; [reflexivity|]. split; [|exact Hl].
    unfold obstaclesToAdd. change (inject_Z 2) with 2 in Hf. lia.
  - intros m newObstacles j Hnone. rewrite placeObstacles_S.
    destruct (sampleObstacle draws s newObstacles 20 j) as [found k1].
    simpl in Hnone. subst found. reflexivity.
Qed.

Lemma spawner_fallbacks_witness :
  enemies (fst (spawnEnemy halfDraws 1000 initialGame initialGame 0))
  = [Enemy.mk (fst (enemyFallback halfDraws 40))
       (snd (enemyFallback halfDraws 40)) 0 0 12 (1000 + 300)]
  /\ (exists added,
        obstacles (fst (spawnObstacles halfDraws initialGame initialGame 0))
        = added
        /\ (List.length added <= 2)%nat)
  /\ placeObstacles halfDraws initialGame 1 [] 1
     = placeObstacles halfDraws initialGame 0 []
         (snd (sampleObstacle halfDraws initialGame [] 20 1)).
Proof.
  destruct (spawner_fallbacks halfDraws 1000 initialGame initialGame 0)
    as (Henemy & Hobs & Hskip).
  split; [|split].
  - rewrite Henemy.
    + reflexivity.
    + vm_compute. lia.
    + reflexivity.
  - destruct Hobs as (added & Ha & Hn & Hl).
    + vm_compute. discriminate.
    + reflexivity.
    + exists added. split; [exact Ha|].
      lia.
  - apply Hskip. reflexivity.
Defined.

(** C7 fails as stated for the obstacle spawner.  With every draw equal
    to one half, both placements of a milestone crossing exhaust their 20
    attempts on the player's own position, and no obstacle is added. *)
Lemma obstacle_placement_aborted :
  (forall k, 0 <= halfDraws k /\ halfDraws k < 1)
  /\ obstaclesToAdd halfDraws 0 = 2%Z
  /\ sampleObstacle halfDraws initialGame [] 20 1 = (None, 41%nat)
  /\ sampleObstacle halfDraws initialGame [] 20 41 = (None, 81%nat)
  /\ spawnObstacles halfDraws initialGame initialGame 0
     = (initialGame, 81%nat).
Proof.
  split; [intro k; split; [discriminate | reflexivity]|].
  repeat split; vm_compute; reflexivity.
Qed.

(** ** The volley *)

Lemma countQ_plus (i j : nat) : countQ (i + j) = countQ i + countQ j.
Proof. unfold countQ. rewrite Nat2Z.inj_add. apply inject_Z_plus. Qed.

Lemma nth_error_map_seq {A : Type} (f : nat -> A) (count i : nat) :
  (i < count)%nat -> nth_error (map f (seq 0 count)) i = Some (f i).
Proof.
  intro H. rewrite nth_error_map.
  rewrite (nth_error_nth' _ 0%nat) by (rewrite length_seq; exact H).
  rewrite seq_nth by exact H. reflexivity.
Qed.

Lemma volleyOffset_symmetric (count i j : nat) :
  (i + j + 1 = count)%nat ->
  volleyOffset count i + volleyOffset count j == 0.
Proof.
  intro H. unfold volleyOffset.
  destruct (count =? 1)%nat eqn:E; [reflexivity|].
  apply Nat.eqb_neq in E.
  assert (Hc : countQ count == countQ i + countQ j + 1).
  { rewrite <- H, !countQ_plus. reflexivity. }
  assert (Hpos : 0 < countQ i + countQ j).
  { rewrite <- countQ_plus. unfold countQ. change 0 with (inject_Z 0).
    rewrite <- Zlt_Qlt. lia. }
  rewrite Hc. field. lra.
Qed.

Lemma volleyOffset_step (count i : nat) :
  (S i < count)%nat ->
  volleyOffset count (S i) - volleyOffset count i
  == volleySpread count / (countQ count - 1).
Proof.
  intro H. unfold volleyOffset.
  destruct (count =? 1)%nat eqn:E; [apply Nat.eqb_eq in E; lia|].
  assert (Hpos : 1 < countQ count).
  { unfold countQ. change 1 with (inject_Z 1). rewrite <- Zlt_Qlt. lia. }
  change (S i) with (1 + i)%nat. rewrite countQ_plus.
  change (countQ 1) with 1. field. lra.
Qed.

Lemma volleyOffset_total (count : nat) :
  (1 <= count)%nat ->
  volleyOffset count (count - 1) - volleyOffset count 0
  == volleySpread count.
Proof.
  intro H. unfold volleyOffset.
  destruct (count =? 1)%nat eqn:E.
  - apply Nat.eqb_eq in E. subst count. reflexivity.
  - apply Nat.eqb_neq in E.
    assert (Hpos : 1 < countQ count).
    { unfold countQ. change 1 with (inject_Z 1). rewrite <- Zlt_Qlt. lia. }
    assert (Hc : countQ count == countQ (count - 1) + 1).
    { change 1 with (countQ 1). rewrite <- countQ_plus.
      replace (count - 1 + 1)%nat with count by lia. reflexivity. }
    change (countQ 0) with 0.
    assert (Hm : countQ (count - 1) == countQ count - 1) by lra.
    rewrite Hm. field. lra.
Qed.

Section Volley.

Variable atan2 : Q -> Q -> Q.
Variables cos sin : Q -> Q.

Hypothesis pythagoras : forall a, cos a * cos a + sin a * sin a == 1.

(** C5.  In a tick in which the player's velocity is zero on both axes
    and [timestamp - lastFireTime >= 500], the fire stage appends exactly
    one volley of exactly [arrowCount] projectiles.  Their angles are
    symmetric about the aim angle [atan2 aimY aimX] and evenly spaced
    across a total spread of [min 0.3 (0.08 * (arrowCount - 1))]; each has
    speed [projectileSpeed], [piercesLeft = 1] iff [pierce], and
    [canRicochet = ricochet]; [lastFireTime] becomes the timestamp, and
    the player-advance stage of the tick keeps it. *)
Theorem volley_fired (timestamp : Q) (s n : Game) :
  Player.vx (player s) == 0 ->
  Player.vy (player s) == 0 ->
  fireRate <= timestamp - Player.lastFireTime (player s) ->
  let count := Stats.arrowCount (stats s) in
  let speed := Stats.projectileSpeed (stats s) in
  let aim := atan2 (Player.aimY (player s)) (Player.aimX (player s)) in
  let angle := volleyAngle atan2 (player s) count in
  let g := fireStage atan2 cos sin timestamp s n in
  exists shots,
    projectiles g = projectiles n ++ shots
    /\ List.length shots = count
    /\ Player.lastFireTime (player g) = timestamp
    /\ (forall obs,
          Player.lastFireTime (advancePlayer obs (player g)) = timestamp)
    /\ (forall i, (i < count)%nat ->
        exists p,
          nth_error shots i = Some p
          /\ Projectile.vx p = cos (angle i) * speed
          /\ Projectile.vy p = sin (angle i) * speed
          /\ Projectile.vx p * Projectile.vx p
             + Projectile.vy p * Projectile.vy p == speed * speed
          /\ (Projectile.piercesLeft p = 1%Z
              <-> Stats.pierce (stats s) = true)
          /\ (Projectile.piercesLeft p = 0%Z
              <-> Stats.pierce (stats s) = false)
          /\ Projectile.canRicochet p = Stats.ricochet (stats s))
    /\ (forall i j, (i + j + 1 = count)%nat ->
        angle i + angle j == 2 * aim)
    /\ (forall i, (S i < count)%nat ->
        angle (S i) - angle i
        == Qmin 0.3 (0.08 * (countQ count - 1)) / (countQ count - 1))
    /\ ((1 <= count)%nat ->
        angle (count - 1)%nat - angle 0%nat
        == Qmin 0.3 (0.08 * (countQ count - 1))).
Proof.
  intros Hvx Hvy Hrate count speed aim angle g.
  assert (Hfire : mayFire timestamp s = true).
  { unfold mayFire. apply Qeq_bool_iff in Hvx, Hvy.
    apply Qle_bool_iff in Hrate. rewrite Hvx, Hvy, Hrate. reflexivity. }
  exists (newShots atan2 cos sin timestamp s).
  subst g. unfold fireStage. rewrite Hfire.
  split; [reflexivity|].
  split; [unfold newShots; rewrite length_map, length_seq; reflexivity|].
  split; [reflexivity|].
  split; [intro obs; reflexivity|].
  split; [|split; [|split]].
  - intros i Hi. eexists. split.
    + unfold newShots. apply nth_error_map_seq. exact Hi.
    + cbn [Projectile.vx Projectile.vy Projectile.piercesLeft
           Projectile.canRicochet].
      fold count speed. fold (angle i).
      split; [reflexivity|]. split; [reflexivity|]. split.
      * transitivity ((cos (angle i) * cos (angle i)
                       + sin (angle i) * sin (angle i)) * (speed * speed)).
        -- ring.
        -- rewrite pythagoras. ring.
      * destruct (Stats.pierce (stats s)); repeat split;
          intro; first [reflexivity | discriminate].
  - intros i j Hij. unfold angle, volleyAngle. fold aim.
    pose proof (volleyOffset_symmetric count i j Hij) as Hsym. lra.
  - intros i Hi. unfold angle, volleyAngle. fold aim.
    pose proof (volleyOffset_step count i Hi) as Hstep.
    unfold volleySpread in Hstep. rewrite <- Hstep. ring.
  - intros Hc. unfold angle, volleyAngle. fold aim.
    pose proof (volleyOffset_total count Hc) as Htot.
    unfold volleySpread in Htot. rewrite <- Htot. ring.
Qed.

End Volley.

Lemma volley_fired_witness :
  exists shots,
    projectiles (fireStage flatAtan2 flatCos flatSin 500 tripleShot tripleShot)
    = shots
    /\ List.length shots = 3%nat
    /\ Player.lastFireTime
         (player (fireStage flatAtan2 flatCos flatSin 500 tripleShot
                    tripleShot)) = 500.
Proof.
  assert (Hp : forall a, flatCos a * flatCos a + flatSin a * flatSin a == 1)
    by (intro a; reflexivity).
  assert (Hvx : Player.vx (player tripleShot) == 0) by reflexivity.
  assert (Hvy : Player.vy (player tripleShot) == 0) by reflexivity.
  assert (Hrate : fireRate <= 500 - Player.lastFireTime (player tripleShot))
    by (vm_compute; discriminate).
  destruct (volley_fired flatAtan2 flatCos flatSin Hp 500 tripleShot
              tripleShot Hvx Hvy Hrate) as (shots & Hs & Hl & Ht & _).
  exists shots. split; [exact Hs|]. split; [exact Hl | exact Ht].
Defined.

(** ** The milestone block *)

Lemma NoDup_snoc {A : Type} (l : list A) (x : A) :
  NoDup l -> ~ In x l -> NoDup (l ++ [x]).
Proof.
  induction l as [|a l IH]; intros Hl Hx; simpl.
  - constructor; [intros []|constructor].
  - inversion Hl as [|? ? Ha Hl']; subst. constructor.
    + rewrite in_app_iff. intros [H|[H|[]]]; [exact (Ha H)|].
      apply Hx. left. symmetry. exact H.
    + apply IH; [exact Hl'|]. intro H. apply Hx. right. exact H.
Qed.

Lemma hasId_In (picks : list Perk.t) (c : Perk.t) :
  existsb (fun p => String.eqb (Perk.id p) (Perk.id c)) picks = true
  <-> In (Perk.id c) (map Perk.id picks).
Proof.
  rewrite existsb_exists, in_map_iff. split.
  - intros (p & Hp & E). apply String.eqb_eq in E. exists p. split; assumption.
  - intros (p & E & Hp). exists p. split; [exact Hp|].
    apply String.eqb_eq. exact E.
Qed.

(** Dropping the perks with a given id shortens a list with distinct ids
    by at most one. *)
Lemma drop_id_length (x : string) (l : list Perk.t) :
  NoDup (map Perk.id l) ->
  (List.length l
   <= S (List.length
           (filter (fun c => negb (String.eqb (Perk.id c) x)) l)))%nat.
Proof.
  induction l as [|a l IH]; intro H; simpl; [lia|].
  inversion H as [|? ? Ha Hl]; subst.
  destruct (String.eqb_spec (Perk.id a) x) as [E|E]; simpl.
  - assert (Hsame : filter (fun c => negb (String.eqb (Perk.id c) x)) l = l).
    { clear IH H Hl. induction l as [|b l IHl]; simpl; [reflexivity|].
      destruct (String.eqb_spec (Perk.id b) x) as [E'|E']; simpl.
      - exfalso. apply Ha. left. congruence.
      - f_equal. apply IHl. intro Hin. apply Ha. right. exact Hin. }
    rewrite Hsame. lia.
  - specialize (IH Hl). lia.
Qed.

Lemma drop_id_NoDup (x : string) (l : list Perk.t) :
  NoDup (map Perk.id l) ->
  NoDup (map Perk.id (filter (fun c => negb (String.eqb (Perk.id c) x)) l)).
Proof.
  induction l as [|a l IH]; intro H; simpl; [constructor|].
  inversion H as [|? ? Ha Hl]; subst.
  destruct (negb (String.eqb (Perk.id a) x)); simpl; [|apply IH, Hl].
  constructor; [|apply IH, Hl].
  intro Hin. apply Ha. apply in_map_iff in Hin.
  destruct Hin as (c & E & Hc). apply filter_In in Hc.
  apply in_map_iff. exists c. split; [exact E | apply Hc].
Qed.

Section Milestone.

Variable draws : nat -> Q.

Hypothesis draws_unit : forall j, 0 <= draws j /\ draws j < 1.

Lemma poolIndex_range (k : nat) : (0 <= poolIndex draws k < 5)%Z.
Proof.
  destruct (draws_unit k) as [H0 H1].
  exact (floor_scaled_range (draws k) 5 H0 H1 eq_refl).
Qed.

Lemma poolAt_in_range (z : Z) :
  (0 <= z < 5)%Z -> exists c, poolAt z = Some c /\ In c pool.
Proof.
  intro H.
  assert (Hz : z = 0%Z \/ z = 1%Z \/ z = 2%Z \/ z = 3%Z \/ z = 4%Z) by lia.
  destruct Hz as [->|[->|[->|[->| ->]]]]; eexists;
    (split; [reflexivity | simpl; tauto]).
Qed.

Lemma poolAt_id_inj (z1 z2 : Z) (c1 c2 : Perk.t) :
  (0 <= z1 < 5)%Z -> (0 <= z2 < 5)%Z ->
  poolAt z1 = Some c1 -> poolAt z2 = Some c2 ->
  Perk.id c1 = Perk.id c2 -> z1 = z2.
Proof.
  intros H1 H2.
  assert (Hz1 : z1 = 0%Z \/ z1 = 1%Z \/ z1 = 2%Z \/ z1 = 3%Z \/ z1 = 4%Z)
    by lia.
  assert (Hz2 : z2 = 0%Z \/ z2 = 1%Z \/ z2 = 2%Z \/ z2 = 3%Z \/ z2 = 4%Z)
    by lia.
  destruct Hz1 as [->|[->|[->|[->| ->]]]];
    destruct Hz2 as [->|[->|[->|[->| ->]]]];
    intros E1 E2; injection E1 as <-; injection E2 as <-;
    intro E; first [reflexivity | discriminate E].
Qed.

Lemma pickPerks_eq (fuel : nat) (picks : list Perk.t) (k : nat) :
  pickPerks draws fuel picks k
  = if (List.length picks <? 3)%nat then
      match fuel with
      | O => OutOfFuel
      | S f =>
          match poolAt (poolIndex draws k) with
          | None => TypeError
          | Some c =>
              if existsb (fun p => String.eqb (Perk.id p) (Perk.id c)) picks
              then pickPerks draws f picks (S k)
              else pickPerks draws f (picks ++ [c]) (S k)
          end
      end
    else Done (picks, k).
Proof. destruct fuel; reflexivity. Qed.

(** More fuel does not change a result already reached. *)
Lemma pickPerks_more_fuel (fuel fuel' : nat) (picks : list Perk.t)
      (k : nat) (r : list Perk.t * nat) :
  (fuel <= fuel')%nat ->
  pickPerks draws fuel picks k = Done r ->
  pickPerks draws fuel' picks k = Done r.
Proof.
  revert fuel' picks k.
  induction fuel as [|f IH]; intros fuel' picks k Hle H;
    rewrite pickPerks_eq in H; rewrite pickPerks_eq;
    destruct (List.length picks <? 3)%nat; try exact H; try discriminate.
  destruct fuel' as [|f']; [lia|].
  destruct (poolAt (poolIndex draws k)) as [c|]; [|discriminate].
  destruct (existsb _ picks); apply IH; solve [lia | exact H].
Qed.

(** The loop ends once the draws it reads contain enough perks that are
    not picked yet. *)
Lemma pickPerks_done (fuel : nat) :
  forall (picks : list Perk.t) (k : nat) (fresh : list Perk.t),
    (List.length picks <= 3)%nat ->
    NoDup (map Perk.id picks) ->
    incl picks pool ->
    NoDup (map Perk.id fresh) ->
    (3 <= List.length fresh + List.length picks)%nat ->
    (forall c, In c fresh ->
               ~ In (Perk.id c) (map Perk.id picks)
               /\ exists j, (k <= j < k + fuel)%nat
                            /\ poolAt (poolIndex draws j) = Some c) ->
    exists picks' k',
      pickPerks draws fuel picks k = Done (picks', k')
      /\ List.length picks' = 3%nat
      /\ NoDup (map Perk.id picks')
      /\ incl picks' pool.
Proof.
  induction fuel as [|f IH];
    intros picks k fresh Hlen Hnd Hincl Hfnd Hcount Hfresh;
    rewrite pickPerks_eq;
    destruct (List.length picks <? 3)%nat eqn:E.
  - apply Nat.ltb_lt in E.
    destruct fresh as [|c fresh]; [simpl in Hcount; lia|].
    destruct (Hfresh c (or_introl eq_refl)) as (_ & j & Hj & _). lia.
  - apply Nat.ltb_ge in E. exists picks, k.
    split; [reflexivity|]. split; [lia|]. split; assumption.
  - apply Nat.ltb_lt in E.
    destruct (poolAt_in_range _ (poolIndex_range k)) as (c0 & Hc0 & Hin0).
    rewrite Hc0.
    destruct (existsb _ picks) eqn:Ehas.
    + apply hasId_In in Ehas.
      apply (IH picks (S k) fresh); try assumption.
      intros c Hc. destruct (Hfresh c Hc) as (Hnot & j & Hj & Hat).
      split; [exact Hnot|]. exists j. split; [|exact Hat].
      assert (j <> k) by (intros ->; rewrite Hc0 in Hat;
                          injection Hat as ->; exact (Hnot Ehas)).
      lia.
    + assert (Hnew : ~ In (Perk.id c0) (map Perk.id picks)).
      { intro H. apply hasId_In in H. congruence. }
      apply (IH (picks ++ [c0]) (S k)
                (filter (fun c => negb (String.eqb (Perk.id c) (Perk.id c0)))
                        fresh)).
      * rewrite length_app. simpl. lia.
      * rewrite map_app. simpl. apply NoDup_snoc; assumption.
      * apply incl_app; [exact Hincl|]. intros x [<-|[]]. exact Hin0.
      * apply drop_id_NoDup, Hfnd.
      * pose proof (drop_id_length (Perk.id c0) fresh Hfnd).
        rewrite length_app. simpl. lia.
      * intros c Hc. apply filter_In in Hc. destruct Hc as [Hc Hne].
        apply negb_true_iff in Hne.
        destruct (String.eqb_spec (Perk.id c) (Perk.id c0)) as [|Hne'];
          [discriminate|].
        destruct (Hfresh c Hc) as (Hnot & j & Hj & Hat).
        split.
        -- rewrite map_app, in_app_iff. simpl. intros [H|[H|[]]];
             [exact (Hnot H) | exact (Hne' (eq_sym H))].
        -- exists j. split; [|exact Hat].
           assert (j <> k) by (intros ->; rewrite Hc0 in Hat;
                               injection Hat as ->; exact (Hne' eq_refl)).
           lia.
  - apply Nat.ltb_ge in E. exists picks, k.
    split; [reflexivity|]. split; [lia|]. split; assumption.
Qed.

Lemma pickPerks_three_distinct (k a b c : nat) :
  (k <= a)%nat -> (k <= b)%nat -> (k <= c)%nat ->
  poolIndex draws a <> poolIndex draws b ->
  poolIndex draws a <> poolIndex draws c ->
  poolIndex draws b <> poolIndex draws c ->
  exists picks k',
    pickPerks draws (a + b + c + 1) [] k = Done (picks, k')
    /\ List.length picks = 3%nat
    /\ NoDup (map Perk.id picks)
    /\ incl picks pool.
Proof.
  intros Ha Hb Hc Hab Hac Hbc.
  destruct (poolAt_in_range _ (poolIndex_range a)) as (ca & Eca & _).
  destruct (poolAt_in_range _ (poolIndex_range b)) as (cb & Ecb & _).
  destruct (poolAt_in_range _ (poolIndex_range c)) as (cc & Ecc & _).
  apply (pickPerks_done _ [] k [ca; cb; cc]).
  - simpl. lia.
  - constructor.
  - intros x [].
  - assert (Nab : Perk.id ca <> Perk.id cb).
    { intro E. apply Hab.
      exact (poolAt_id_inj _ _ _ _ (poolIndex_range a) (poolIndex_range b)
               Eca Ecb E). }
    assert (Nac : Perk.id ca <> Perk.id cc).
    { intro E. apply Hac.
      exact (poolAt_id_inj _ _ _ _ (poolIndex_range a) (poolIndex_range c)
               Eca Ecc E). }
    assert (Nbc : Perk.id cb <> Perk.id cc).
    { intro E. apply Hbc.
      exact (poolAt_id_inj _ _ _ _ (poolIndex_range b) (poolIndex_range c)
               Ecb Ecc E). }
    simpl. constructor; [simpl; intuition congruence|].
    constructor; [simpl; intuition congruence|].
    constructor; [intros []|constructor].
  - simpl. lia.
  - intros x Hx. split; [intros []|].
    destruct Hx as [<-|[<-|[<-|[]]]];
      [exists a | exists b | exists c]; (split; [lia | assumption]).
Qed.

End Milestone.

(** C4.  When the kill count has reached the milestone and no perk
    prompt is open, the milestone block opens the prompt with exactly 3
    choices of pairwise distinct ids taken from the 5-entry pool, and
    advances the milestone by exactly 10; while a prompt is open the block
    does nothing.  The draws of [Math.random] are taken in [[0, 1)], and
    the rejection loop ends as soon as the draws have hit three different
    pool entries. *)
Theorem milestone_opens_one_prompt (draws : nat -> Q) (newKills : Z)
        (s n : Game) (k : nat) :
  ((forall j, 0 <= draws j /\ draws j < 1) ->
   (exists a b c,
       (k <= a)%nat /\ (k <= b)%nat /\ (k <= c)%nat
       /\ poolIndex draws a <> poolIndex draws b
       /\ poolIndex draws a <> poolIndex draws c
       /\ poolIndex draws b <> poolIndex draws c) ->
   (nextMilestone s <= newKills)%Z ->
   perkOpen s = false ->
   exists fuel g k',
     (forall fuel', (fuel <= fuel')%nat ->
                    milestone draws fuel' newKills s n k = Done (g, k'))
     /\ perkOpen g = true
     /\ running g = false
     /\ List.length (perkChoices g) = 3%nat
     /\ NoDup (map Perk.id (perkChoices g))
     /\ incl (perkChoices g) pool
     /\ List.length pool = 5%nat
     /\ nextMilestone g = (nextMilestone s + 10)%Z
     /\ (nextMilestone s < nextMilestone g)%Z)
  /\ (perkOpen s = true ->
      forall fuel, milestone draws fuel newKills s n k = Done (n, k)).
Proof.
  split.
  - intros Hunit (a & b & c & Ha & Hb & Hc & Hab & Hac & Hbc) Hkills Hopen.
    destruct (pickPerks_three_distinct draws Hunit k a b c Ha Hb Hc
                Hab Hac Hbc) as (picks & k1 & Hpick & Hlen & Hnd & Hincl).
    assert (Hguard : ((nextMilestone s <=? newKills)%Z
                      && negb (perkOpen s)) = true).
    { rewrite Hopen. apply andb_true_iff. split; [|reflexivity].
      apply Z.leb_le, Hkills. }
    set (n' := setNextMilestone (nextMilestone s + 10)
                 (setEnemySpeed (enemySpeed n * 1.1)
                    (setGroundColors (pickRandomGroundColors draws k1)
                       (setRunning false
                          (setPerkOpen true (setPerkChoices picks n)))))).
    exists (a + b + c + 1)%nat, (fst (spawnObstacles draws s n' (S k1))),
      (snd (spawnObstacles draws s n' (S k1))).
    assert (Hg : forall g',
               g' = fst (spawnObstacles draws s n' (S k1)) ->
               perkOpen g' = true /\ running g' = false
               /\ perkChoices g' = picks
               /\ nextMilestone g' = (nextMilestone s + 10)%Z).
    { intros g' ->. unfold spawnObstacles.
      destruct (placeObstacles draws s _ [] (S (S k1))) as [added k2].
      simpl. repeat split. }
    destruct (Hg _ eq_refl) as (Hpo & Hrun & Hch & Hnm).
    split.
    + intros fuel' Hle. unfold milestone. rewrite Hguard.
      rewrite (pickPerks_more_fuel draws _ fuel' [] k _ Hle Hpick).
      apply (f_equal Done).
      exact (surjective_pairing (spawnObstacles draws s n' (S k1))).
    + rewrite Hch, Hnm.
      split; [exact Hpo|]. split; [exact Hrun|]. split; [exact Hlen|].
      split; [exact Hnd|]. split; [exact Hincl|]. split; [reflexivity|].
      split; [reflexivity | lia].
  - intros Hopen fuel. unfold milestone. rewrite Hopen, andb_false_r.
    reflexivity.
Qed.

Lemma cyclingDraws_unit (j : nat) :
  0 <= cyclingDraws j /\ cyclingDraws j < 1.
Proof.
  unfold cyclingDraws.
  pose proof (Nat.mod_upper_bound j 5 ltac:(discriminate)) as Hm.
  split.
  - apply Qle_shift_div_l; [reflexivity|].
    change (0 * 5) with (inject_Z 0). rewrite <- Zle_Qle. lia.
  - apply Qlt_shift_div_r; [reflexivity|].
    change (1 * 5) with (inject_Z 5). rewrite <- Zlt_Qlt. lia.
Qed.

Lemma milestone_opens_one_prompt_witness :
  (exists fuel g k',
      milestone cyclingDraws fuel 10 initialGame initialGame 0 = Done (g, k')
      /\ perkOpen g = true
      /\ List.length (perkChoices g) = 3%nat
      /\ nextMilestone g = 20%Z)
  /\ (forall fuel,
         milestone cyclingDraws fuel 10 promptOpen promptOpen 0
         = Done (promptOpen, 0%nat)).
Proof.
  split.
  - destruct (milestone_opens_one_prompt cyclingDraws 10 initialGame
                initialGame 0) as [Hopen _].
    destruct Hopen as (fuel & g & k' & Hrun & Hpo & _ & Hlen & _ & _ & _
                       & Hnm & _).
    + exact cyclingDraws_unit.
    + exists 0%nat, 1%nat, 2%nat.
      split; [apply Nat.le_0_l|]. split; [apply Nat.le_0_l|].
      split; [apply Nat.le_0_l|].
      split; [|split]; vm_compute; discriminate.
    + vm_compute. discriminate.
    + reflexivity.
    + exists fuel, g, k'.
      split; [exact (Hrun fuel (Nat.le_refl fuel))|].
      split; [exact Hpo|]. split; [exact Hlen | exact Hnm].
  - destruct (milestone_opens_one_prompt cyclingDraws 10 promptOpen
                promptOpen 0) as [_ Hclosed].
    apply Hclosed. reflexivity.
Defined.

(** * Further properties of the component *)

(** ** Perks never lower a stat *)

(** X1.  Whatever the id, applying a perk to stats with non-negative
    speeds lowers no speed and no arrow count and clears no flag. *)
Theorem perk_never_lowers (id : string) (prev : Stats.t) :
  0 <= Stats.playerSpeed prev ->
  0 <= Stats.projectileSpeed prev ->
  let st := perkEffect id prev in
  Stats.playerSpeed prev <= Stats.playerSpeed st
  /\ Stats.projectileSpeed prev <= Stats.projectileSpeed st
  /\ (Stats.arrowCount prev <= Stats.arrowCount st)%nat
  /\ (Stats.pierce prev = true -> Stats.pierce st = true)
  /\ (Stats.ricochet prev = true -> Stats.ricochet st = true).
Proof.
  intros Hp Hq st. subst st. unfold perkEffect.
  repeat match goal with
  | |- context [String.eqb id ?c] => destruct (String.eqb id c)
  end; cbn [Stats.playerSpeed Stats.projectileSpeed Stats.arrowCount
            Stats.pierce Stats.ricochet];
    (split; [lra|]); (split; [lra|]); (split; [lia|]);
    split; intro H; first [exact H | reflexivity].
Qed.

Lemma perk_never_lowers_witness :
  Stats.playerSpeed initialStats
  <= Stats.playerSpeed (perkEffect "player_speed" initialStats)
  /\ (Stats.arrowCount initialStats
      <= Stats.arrowCount (perkEffect "arrow_count" initialStats))%nat.
Proof.
  assert (Hp : 0 <= Stats.playerSpeed initialStats)
    by (vm_compute; discriminate).
  assert (Hq : 0 <= Stats.projectileSpeed initialStats)
    by (vm_compute; discriminate).
  destruct (perk_never_lowers "player_speed" initialStats Hp Hq)
    as (H1 & _).
  destruct (perk_never_lowers "arrow_count" initialStats Hp Hq)
    as (_ & _ & H3 & _).
  split; [exact H1 | exact H3].
Defined.

(** ** Keyboard input *)

Lemma Qltb_opp_neg (v : Q) : 0 < v -> Qltb (- v) 0 = true.
Proof. intro H. apply Qltb_lt. lra. Qed.

Lemma Qltb_pos (v : Q) : 0 < v -> Qltb 0 v = true.
Proof. intro H. apply Qltb_lt. exact H. Qed.

(** X2.  While the run is on, pressing a movement key and then releasing
    it leaves the player at rest on that key's axis, with the other axis
    and the position untouched. *)
Theorem key_press_release (key : string) (s n : Game) :
  running s = true ->
  gameOver s = false ->
  0 < Stats.playerSpeed (stats s) ->
  let released := handleKeyUp key s (handleKeyDown key s n) in
  (In key ["w"; "arrowup"; "s"; "arrowdown"]%string ->
   Player.vy (player released) = 0
   /\ Player.vx (player released) = Player.vx (player n))
  /\ (In key ["a"; "arrowleft"; "d"; "arrowright"]%string ->
      Player.vx (player released) = 0
      /\ Player.vy (player released) = Player.vy (player n))
  /\ Player.x (player released) = Player.x (player n)
  /\ Player.y (player released) = Player.y (player n).
Proof.
  intros Hrun Hover Hspeed released. subst released.
  unfold handleKeyUp, handleKeyDown. rewrite Hrun, Hover. simpl negb.
  cbn [orb player setPlayer].
  pose proof (Qltb_opp_neg _ Hspeed) as Hneg.
  pose proof (Qltb_pos _ Hspeed) as Hpos.
  split; [|split; [|split; reflexivity]].
  - intros [<-|[<-|[<-|[<-|[]]]]];
      cbn [keyUpPlayer keyDownPlayer withVelocity String.eqb Ascii.eqb
           Bool.eqb orb andb Player.vx Player.vy];
      rewrite ?Hneg, ?Hpos; split; reflexivity.
  - intros [<-|[<-|[<-|[<-|[]]]]];
      cbn [keyUpPlayer keyDownPlayer withVelocity String.eqb Ascii.eqb
           Bool.eqb orb andb Player.vx Player.vy];
      rewrite ?Hneg, ?Hpos; split; reflexivity.
Qed.

Lemma key_press_release_witness :
  let g := setRunning true initialGame in
  Player.vy (player (handleKeyUp "w" g (handleKeyDown "w" g g))) = 0
  /\ Player.vx (player (handleKeyUp "d" g (handleKeyDown "d" g g))) = 0.
Proof.
  intro g.
  assert (Hs : 0 < Stats.playerSpeed (stats g)) by reflexivity.
  destruct (key_press_release "w" g g eq_refl eq_refl Hs) as (Hv & _).
  destruct (key_press_release "d" g g eq_refl eq_refl Hs) as (_ & Hh & _).
  split.
  - apply Hv. left. reflexivity.
  - apply Hh. right. right. left. reflexivity.
Defined.

(** X3.  Releasing a key only stops motion in that key's own direction:
    after left then right are pressed, releasing left keeps the player
    moving right (and the mirror cases); and while the run is paused or
    over, both handlers leave the state as it is. *)
Theorem key_release_keeps_opposite_motion (key : string) (s n : Game) :
  (running s = true ->
   gameOver s = false ->
   0 < Stats.playerSpeed (stats s) ->
   let speed := Stats.playerSpeed (stats s) in
   let seq3 := fun k1 k2 =>
     player (handleKeyUp k1 s (handleKeyDown k2 s (handleKeyDown k1 s n))) in
   Player.vx (seq3 "a" "d")%string = speed
   /\ Player.vx (seq3 "d" "a")%string = - speed
   /\ Player.vy (seq3 "w" "s")%string = speed
   /\ Player.vy (seq3 "s" "w")%string = - speed)
  /\ (running s = false \/ gameOver s = true ->
      handleKeyDown key s n = n /\ handleKeyUp key s n = n).
Proof.
  split.
  - intros Hrun Hover Hspeed speed seq3. subst seq3 speed.
    unfold handleKeyUp, handleKeyDown. rewrite Hrun, Hover. simpl negb.
    cbn [orb player setPlayer].
    assert (Hneg : Qltb (Stats.playerSpeed (stats s)) 0 = false).
    { apply not_true_is_false. intro H. apply Qltb_lt in H. lra. }
    assert (Hpos : Qltb 0 (- Stats.playerSpeed (stats s)) = false).
    { apply not_true_is_false. intro H. apply Qltb_lt in H. lra. }
    cbn [keyUpPlayer keyDownPlayer withVelocity String.eqb Ascii.eqb
         Bool.eqb orb andb Player.vx Player.vy].
    rewrite ?Hneg, ?Hpos. repeat split.
  - intros Hoff. unfold handleKeyDown, handleKeyUp.
    destruct Hoff as [H|H]; rewrite H; simpl.
    + split; reflexivity.
    + rewrite orb_true_r. split; reflexivity.
Qed.

Lemma key_release_keeps_opposite_motion_witness :
  let g := setRunning true initialGame in
  Player.vx
    (player (handleKeyUp "a" g (handleKeyDown "d" g (handleKeyDown "a" g g))))
  = 3.12
  /\ handleKeyDown "d" initialGame initialGame = initialGame.
Proof.
  intro g.
  destruct (key_release_keeps_opposite_motion "d" g g) as [Hon _].
  destruct (key_release_keeps_opposite_motion "d" initialGame initialGame)
    as [_ Hoff].
  split.
  - apply Hon; reflexivity.
  - apply Hoff. left. reflexivity.
Defined.

(** ** Reset and pause *)

Lemma resetGame_eq (n : Game) :
  resetGame n
  = mkGame false false 0 0 (slpCount n) [] (Stats.mk 3.12 6 1 false false)
      false (perkChoices n) 10
      (Player.mk (canvasWidth / 2) (canvasHeight / 2) 0 0 14 1 0 0)
      [] [] [] 0 1.3 GroundDefault.
Proof. reflexivity. Qed.

(** X4.  [resetGame] keeps the currency counter (and the stale perk
    choices), puts every other cell back to its starting value with the
    player at the centre of the canvas, and resetting twice is the same as
    resetting once. *)
Theorem resetGame_keeps_currency (n : Game) :
  resetGame n
  = mkGame false false 0 0 (slpCount n) [] (Stats.mk 3.12 6 1 false false)
      false (perkChoices n) 10
      (Player.mk (canvasWidth / 2) (canvasHeight / 2) 0 0 14 1 0 0)
      [] [] [] 0 1.3 GroundDefault
  /\ slpCount (resetGame n) = slpCount n
  /\ resetGame (resetGame n) = resetGame n
  /\ Player.x (player (resetGame n)) == Player.x initialPlayer
  /\ Player.y (player (resetGame n)) == Player.y initialPlayer
  /\ stats (resetGame n) = stats initialGame
  /\ nextMilestone (resetGame n) = nextMilestone initialGame.
Proof.
  split; [apply resetGame_eq|].
  split; [rewrite resetGame_eq; reflexivity|].
  split; [rewrite (resetGame_eq (resetGame n)), (resetGame_eq n);
          reflexivity|].
  rewrite resetGame_eq. cbn [player stats nextMilestone Player.x Player.y].
  split; [reflexivity|]. split; [reflexivity|]. split; reflexivity.
Qed.

(** X5.  [toggleRunning] on an ended run starts a fresh run (reset, then
    running); otherwise it only flips [running], so that toggling twice
    gives the state back. *)
Theorem toggleRunning_flips_or_restarts (g : Game) :
  (gameOver g = true ->
   toggleRunning g g = setRunning true (resetGame g)
   /\ running (toggleRunning g g) = true
   /\ gameOver (toggleRunning g g) = false
   /\ kills (toggleRunning g g) = 0%Z
   /\ enemies (toggleRunning g g) = []
   /\ slpCount (toggleRunning g g) = slpCount g)
  /\ (gameOver g = false ->
      running (toggleRunning g g) = negb (running g)
      /\ toggleRunning (toggleRunning g g) (toggleRunning g g) = g).
Proof.
  split; intro H; unfold toggleRunning.
  - rewrite H. split; [reflexivity|]. rewrite resetGame_eq.
    split; [reflexivity|]. split; [reflexivity|].
    split; [reflexivity|]. split; reflexivity.
  - rewrite H. cbn [gameOver setRunning]. rewrite H.
    split; [reflexivity|].
    destruct g as [r ? ? ? ? ? ? ? ? ? ? ? ? ? ? ? ?].
    unfold setRunning. cbn [running gameOver score kills slpCount obstacles
      stats perkOpen perkChoices nextMilestone player projectiles enemies
      drops lastEnemySpawn enemySpeed groundColors].
    rewrite negb_involutive. reflexivity.
Qed.

Lemma toggleRunning_flips_or_restarts_witness :
  running (toggleRunning endedGame endedGame) = true
  /\ toggleRunning (toggleRunning initialGame initialGame)
       (toggleRunning initialGame initialGame) = initialGame.
Proof.
  destruct (toggleRunning_flips_or_restarts endedGame) as [Hover _].
  destruct (toggleRunning_flips_or_restarts initialGame) as [_ Hon].
  split.
  - apply Hover. reflexivity.
  - apply Hon. reflexivity.
Defined.

(** ** Projection and collision helpers *)

Lemma halfWAt_affine (y : Q) : halfWAt y == 204.8 + (16 # 75) * y.
Proof.
  unfold halfWAt, TOP_HALF_W, BOT_HALF_W, canvasWidth, canvasHeight. field.
Qed.

Lemma scale_affine (y : Q) :
  halfWAt y / BOT_HALF_W == (4 # 7) + (1 # 1680) * y.
Proof.
  unfold halfWAt, TOP_HALF_W, BOT_HALF_W, canvasWidth, canvasHeight. field.
Qed.

(** X6.  The projected row [sy] always lies between the top and bottom
    rows of the drawn arena.  For a row of the canvas the scale lies
    between the ratio of the two half-widths and 1, and the projection
    pulls [x] towards the centre line without crossing it. *)
Theorem project_bounds (x y : Q) :
  let p := project x y in
  (TOP_Y <= sy p /\ sy p <= BOTTOM_Y)
  /\ (0 <= y -> y <= canvasHeight ->
      TOP_HALF_W / BOT_HALF_W <= scale p /\ scale p <= 1
      /\ (cxArena <= x -> cxArena <= sx p /\ sx p <= x)
      /\ (x <= cxArena -> x <= sx p /\ sx p <= cxArena)).
Proof.
  intro p. split.
  - assert (Ht0 : 0 <= Qmax 0 (Qmin 1 (y / canvasHeight)))
      by apply clamp_lower.
    assert (Ht1 : Qmax 0 (Qmin 1 (y / canvasHeight)) <= 1)
      by (apply clamp_upper; discriminate).
    subst p. cbn [sy project].
    set (t := Qmax 0 (Qmin 1 (y / canvasHeight))) in *.
    unfold TOP_Y, BOTTOM_Y, canvasHeight. split; lra.
  - intros H0 H1. unfold canvasHeight in H1.
    assert (Es : scale p == (4 # 7) + (1 # 1680) * y) by apply scale_affine.
    assert (Ex : sx p == cxArena + (x - cxArena) * scale p) by reflexivity.
    assert (Er : TOP_HALF_W / BOT_HALF_W == 4 # 7) by reflexivity.
    assert (Hlo : (4 # 7) <= scale p) by lra.
    assert (Hhi : scale p <= 1) by lra.
    split; [lra|]. split; [exact Hhi|].
    split; intro Hx; split; rewrite Ex; nra.
Qed.

Lemma project_bounds_witness :
  TOP_HALF_W / BOT_HALF_W <= scale (project 900 360)
  /\ scale (project 900 360) <= 1
  /\ sx (project 900 360) <= 900.
Proof.
  destruct (project_bounds 900 360) as (_ & H).
  destruct H as (Hlo & Hhi & Hright & _).
  - vm_compute. discriminate.
  - vm_compute. discriminate.
  - split; [exact Hlo|]. split; [exact Hhi|].
    apply Hright. vm_compute. discriminate.
Defined.

Lemma sq_lt_bound (d e c : Q) :
  0 <= c -> d * d + e * e < c * c -> - c < d /\ d < c.
Proof.
  intros Hc H.
  assert (He : 0 <= e * e) by nra.
  split.
  - destruct (Qlt_le_dec (- c) d) as [|Hn]; [assumption|]. exfalso. nra.
  - destruct (Qlt_le_dec d c) as [|Hn]; [assumption|]. exfalso. nra.
Qed.

Lemma half_nonneg (w : Q) : 0 <= w -> 0 <= w / 2.
Proof. intro H. apply Qle_shift_div_l; [reflexivity | lra]. Qed.

Lemma closest_inside (lo hi v : Q) :
  lo <= v -> v <= hi -> Qmax lo (Qmin v hi) == v.
Proof.
  intros Hlo Hhi. rewrite (Q.min_l _ _ Hhi). apply Q.max_r, Hlo.
Qed.

Lemma closest_upper (lo hi v : Q) : lo <= hi -> Qmax lo (Qmin v hi) <= hi.
Proof. intro H. apply Q.max_lub; [exact H | apply Q.le_min_r]. Qed.

(** X7.  A circle whose centre lies in the rectangle collides with it
    whenever its radius is not zero; a circle of radius [cr >= 0] that
    collides has its centre less than [cr] outside the rectangle on each
    axis; and a collision persists when the radius grows. *)
Theorem circleRectCollides_geometry (cx cy cr : Q) (ob : Obstacle.t) :
  let left := Obstacle.x ob - Obstacle.width ob / 2 in
  let right := Obstacle.x ob + Obstacle.width ob / 2 in
  let top := Obstacle.y ob - Obstacle.height ob / 2 in
  let bottom := Obstacle.y ob + Obstacle.height ob / 2 in
  (left <= cx -> cx <= right -> top <= cy -> cy <= bottom -> ~ cr == 0 ->
   circleRectCollides cx cy cr ob = true)
  /\ (0 <= cr -> 0 <= Obstacle.width ob -> 0 <= Obstacle.height ob ->
      circleRectCollides cx cy cr ob = true ->
      left - cr < cx /\ cx < right + cr /\ top - cr < cy /\ cy < bottom + cr)
  /\ (forall cr', 0 <= cr -> cr <= cr' ->
                  circleRectCollides cx cy cr ob = true ->
                  circleRectCollides cx cy cr' ob = true).
Proof.
  intros left right top bottom.
  split; [|split].
  - intros Hl Hr Ht Hb Hcr. unfold circleRectCollides.
    fold left right top bottom. apply Qltb_lt.
    rewrite (closest_inside left right cx Hl Hr).
    rewrite (closest_inside top bottom cy Ht Hb).
    assert (Hsq : 0 < cr * cr).
    { destruct (Qlt_le_dec 0 cr); [nra|].
      destruct (Qlt_le_dec cr 0); [nra|]. exfalso. apply Hcr. lra. }
    lra.
  - intros Hcr Hw Hh H. unfold circleRectCollides in H.
    fold left right top bottom in H. apply Qltb_lt in H.
    pose proof (half_nonneg _ Hw) as Hw2.
    pose proof (half_nonneg _ Hh) as Hh2.
    assert (Hlr : left <= right) by (subst left right; lra).
    assert (Htb : top <= bottom) by (subst top bottom; lra).
    pose proof (Q.le_max_l left (Qmin cx right)) as Hx1.
    pose proof (closest_upper left right cx Hlr) as Hx2.
    pose proof (Q.le_max_l top (Qmin cy bottom)) as Hy1.
    pose proof (closest_upper top bottom cy Htb) as Hy2.
    destruct (sq_lt_bound _ _ _ Hcr H) as [Hdx1 Hdx2].
    assert (H' : (cy - Qmax top (Qmin cy bottom))
                 * (cy - Qmax top (Qmin cy bottom))
                 + (cx - Qmax left (Qmin cx right))
                   * (cx - Qmax left (Qmin cx right)) < cr * cr) by lra.
    destruct (sq_lt_bound _ _ _ Hcr H') as [Hdy1 Hdy2].
    repeat split; lra.
  - intros cr' Hcr Hle H. unfold circleRectCollides in *.
    apply Qltb_lt in H. apply Qltb_lt.
    apply Qlt_le_trans with (1 := H). nra.
Qed.

Lemma circleRectCollides_geometry_witness :
  circleRectCollides 700 360 14 pillar = true
  /\ 686 - 14 < 680
  /\ circleRectCollides 680 360 20 pillar = true.
Proof.
  destruct (circleRectCollides_geometry 700 360 14 pillar)
    as (Hin & _ & _).
  destruct (circleRectCollides_geometry 680 360 14 pillar)
    as (_ & Hbox & Hgrow).
  assert (Hhit : circleRectCollides 680 360 14 pillar = true) by reflexivity.
  split; [|split].
  - apply Hin; vm_compute; discriminate.
  - destruct Hbox as (Hl & _); try (vm_compute; discriminate);
      [exact Hhit|].
    apply Qle_lt_trans with (2 := Hl). vm_compute. discriminate.
  - apply (Hgrow 20); try (vm_compute; discriminate). exact Hhit.
Defined.

(** ** Accounting of the combat pass *)

Lemma filter_out_one (j : nat) (l : list nat) :
  NoDup l -> In j l ->
  S (List.length (filter (fun e => negb (e =? j)%nat) l)) = List.length l.
Proof.
  induction l as [|a l IH]; intros Hnd Hin; [destruct Hin|].
  inversion Hnd as [|? ? Ha Hl]; subst. simpl.
  destruct (Nat.eqb_spec a j) as [->|Hne]; simpl.
  - f_equal. clear IH Hin Hnd Hl.
    induction l as [|b l IHl]; simpl; [reflexivity|].
    destruct (Nat.eqb_spec b j) as [->|Hb]; simpl.
    + exfalso. apply Ha. left. reflexivity.
    + f_equal. apply IHl. intro H. apply Ha. right. exact H.
  - f_equal. apply IH; [exact Hl|]. destruct Hin as [E|H]; [congruence|exact H].
Qed.

Lemma map_fst_combine_seq {A : Type} (l : list A) (a : nat) :
  map fst (combine (seq a (List.length l)) l) = seq a (List.length l).
Proof.
  revert a. induction l as [|x l IH]; intro a; simpl; [reflexivity|].
  f_equal. apply IH.
Qed.

Section CombatAccounting.

Variable draws : nat -> Q.
Variable timestamp : Q.
Variable pl : Player.t.

Lemma combatLoop_accounting (es : list (nat * Enemy.t)) :
  forall c : Combat,
    NoDup (map fst es) ->
    NoDup (newEnemies c) ->
    (forall j e, In (j, e) es -> In j (newEnemies c)) ->
    let c' := combatLoop draws timestamp pl es c in
    exists d added,
      (List.length (newEnemies c') + d = List.length (newEnemies c))%nat
      /\ (d <= List.length es)%nat
      /\ newKills c' = (newKills c + Z.of_nat d)%Z
      /\ cursor c' = (cursor c + d)%nat
      /\ newDrops c' = newDrops c ++ added
      /\ (List.length added <= d)%nat
      /\ (forall x, In x added ->
                    Drop.radius x = 12
                    /\ exists j e, In (j, e) es
                                   /\ Drop.x x = Enemy.x e
                                   /\ Drop.y x = Enemy.y e).
Proof.
  induction es as [|[j e] es IH]; intros c Hes Hnd Hin c'; subst c'.
  - exists 0%nat, []. simpl. rewrite app_nil_r, Z.add_0_r.
    do 6 (split; [first [reflexivity | assumption | lia]|]). intros x [].
  - simpl in Hes. inversion Hes as [|? ? Hj Hes']; subst.
    assert (Hskip :
      exists d added,
        (List.length (newEnemies (combatLoop draws timestamp pl es c)) + d
         = List.length (newEnemies c))%nat
        /\ (d <= List.length ((j, e) :: es))%nat
        /\ newKills (combatLoop draws timestamp pl es c)
           = (newKills c + Z.of_nat d)%Z
        /\ cursor (combatLoop draws timestamp pl es c) = (cursor c + d)%nat
        /\ newDrops (combatLoop draws timestamp pl es c)
           = newDrops c ++ added
        /\ (List.length added <= d)%nat
        /\ (forall x, In x added ->
                      Drop.radius x = 12
                      /\ exists j' e', In (j', e') ((j, e) :: es)
                                       /\ Drop.x x = Enemy.x e'
                                       /\ Drop.y x = Enemy.y e')).
    { destruct (IH c Hes' Hnd) as (d & added & H1 & H2 & H3 & H4 & H5 & H6 & H7).
      - intros j' e' H. apply (Hin j' e'). right. exact H.
      - exists d, added. simpl.
        do 6 (split; [first [reflexivity | assumption | lia]|]).
        intros x Hx. destruct (H7 x Hx) as (Hr & j' & e' & Hi & Hxy).
        split; [exact Hr|]. exists j', e'.
        split; [right; exact Hi | exact Hxy]. }
    simpl.
    destruct (Qltb timestamp (Enemy.spawnInvulUntil e)); [exact Hskip|].
    destruct (touchesPlayer pl e).
    { exists 0%nat, []. simpl. rewrite app_nil_r, Z.add_0_r.
      do 6 (split; [first [reflexivity | assumption | lia]|]). intros x []. }
    destruct (firstHit e (heap c) 0) as [i|]; [|exact Hskip].
    assert (Hjin : In j (newEnemies c)) by (apply (Hin j e); left; reflexivity).
    pose proof (filter_out_one j (newEnemies c) Hnd Hjin) as Hlen.
    destruct (IH (strike draws j e i c) Hes') as
        (d & added & H1 & H2 & H3 & H4 & H5 & H6 & H7).
    + simpl. apply NoDup_filter, Hnd.
    + intros j' e' H. simpl. apply filter_In. split.
      * apply (Hin j' e'). right. exact H.
      * apply negb_true_iff, Nat.eqb_neq. intros ->.
        apply Hj. apply in_map_iff. exists (j, e'). split; [reflexivity|exact H].
    + simpl in H1, H3, H4, H5.
      destruct (Qltb (draws (cursor c)) dropChance) eqn:Ed.
      * exists (S d), (Drop.mk (Enemy.x e) (Enemy.y e) 12 :: added).
        rewrite H5, <- app_assoc. simpl.
        do 6 (split; [first [reflexivity | assumption | lia]|]).
        intros x [<-|Hx].
        -- split; [reflexivity|]. exists j, e.
           split; [left; reflexivity | split; reflexivity].
        -- destruct (H7 x Hx) as (Hr & j' & e' & Hi & Hxy).
           split; [exact Hr|]. exists j', e'.
           split; [right; exact Hi | exact Hxy].
      * exists (S d), added. rewrite H5. simpl.
        do 6 (split; [first [reflexivity | assumption | lia]|]).
        intros x Hx. destruct (H7 x Hx) as (Hr & j' & e' & Hi & Hxy).
        split; [exact Hr|]. exists j', e'.
        split; [right; exact Hi | exact Hxy].
Qed.

Lemma combatLoop_game_over (es : list (nat * Enemy.t)) (c : Combat) :
  newGameOver (combatLoop draws timestamp pl es c)
  = newGameOver c
    || existsb (fun e => negb (Qltb timestamp (Enemy.spawnInvulUntil e))
                         && touchesPlayer pl e) (map snd es).
Proof.
  revert c. induction es as [|[j e] es IH]; intro c; simpl.
  - rewrite orb_false_r. reflexivity.
  - destruct (Qltb timestamp (Enemy.spawnInvulUntil e)); simpl;
      [apply IH|].
    destruct (touchesPlayer pl e); simpl.
    + rewrite orb_true_r. reflexivity.
    + destruct (firstHit e (heap c) 0); rewrite IH; reflexivity.
Qed.

End CombatAccounting.

Lemma map_snd_indexed {A : Type} (l : list A) : map snd (indexed l) = l.
Proof.
  unfold indexed. generalize 0%nat.
  induction l as [|x l IH]; intro a; simpl; [reflexivity|].
  f_equal. apply IH.
Qed.

(** X8.  In the combat pass every kill removes exactly one enemy from
    the kept enemies and takes exactly one random draw, and adds at most
    one drop, of radius 12 and at the position of an enemy of the
    snapshot; the drops that were there stay in front of the new ones. *)
Theorem combat_kills_match_removals (draws : nat -> Q) (timestamp : Q)
        (s : Game) (k : nat) :
  let c := combatPass draws timestamp s k in
  exists d added,
    (List.length (newEnemies c) + d = List.length (enemies s))%nat
    /\ newKills c = (kills s + Z.of_nat d)%Z
    /\ cursor c = (k + d)%nat
    /\ newDrops c = drops s ++ added
    /\ (List.length added <= d)%nat
    /\ Forall (fun x => Drop.radius x = 12
                        /\ exists e, In e (enemies s)
                                     /\ Drop.x x = Enemy.x e
                                     /\ Drop.y x = Enemy.y e) added.
Proof.
  intro c. subst c. unfold combatPass.
  destruct (combatLoop_accounting draws timestamp (player s)
              (indexed (enemies s)) (combatInit s k))
    as (d & added & H1 & _ & H3 & H4 & H5 & H6 & H7).
  - unfold indexed. rewrite map_fst_combine_seq. apply seq_NoDup.
  - simpl. apply seq_NoDup.
  - intros j e H. simpl. apply In_indexed in H. apply in_seq.
    split; [lia|]. simpl. apply nth_error_Some. rewrite H. discriminate.
  - exists d, added. simpl in H1, H3, H4, H5. rewrite length_seq in H1.
    split; [exact H1|]. split; [exact H3|]. split; [exact H4|].
    split; [exact H5|]. split; [exact H6|].
    apply Forall_forall. intros x Hx.
    destruct (H7 x Hx) as (Hr & j & e & Hi & Hxy).
    split; [exact Hr|]. exists e. split; [|exact Hxy].
    apply In_indexed in Hi. apply nth_error_In in Hi. exact Hi.
Qed.

(** X9.  The combat pass flags game over exactly when the run was
    already over or some enemy past its invulnerability window touches
    the player; committed on a state with the same flag, that is the new
    value of [gameOver]. *)
Theorem combat_game_over_iff (draws : nat -> Q) (timestamp : Q)
        (queued : list Projectile.t -> list Projectile.t)
        (s n : Game) (k : nat) :
  let c := combatPass draws timestamp s k in
  newGameOver c
  = gameOver s
    || existsb (fun e => negb (Qltb timestamp (Enemy.spawnInvulUntil e))
                         && touchesPlayer (player s) e) (enemies s)
  /\ (gameOver n = gameOver s ->
      gameOver (commitCombat queued s n c) = newGameOver c).
Proof.
  intro c. split.
  - subst c. unfold combatPass. rewrite combatLoop_game_over.
    rewrite map_snd_indexed. reflexivity.
  - intro Hn. unfold commitCombat.
    repeat match goal with
    | |- context [if ?b then _ else _] => destruct b eqn:?
    end; cbn [gameOver setGameOver setKills setSlpCount setDrops setEnemies
              setProjectiles];
      try reflexivity;
      match goal with
      | H : Bool.eqb _ _ = true |- _ => apply Bool.eqb_prop in H; congruence
      end.
Qed.

Lemma combat_game_over_iff_witness :
  gameOver (commitCombat (fun prev => prev) ambush ambush
              (combatPass halfDraws 1300 ambush 0))
  = true.
Proof.
  destruct (combat_game_over_iff halfDraws 1300 (fun prev => prev)
              ambush ambush 0)
    as [Hflag Hcommit].
  rewrite (Hcommit eq_refl), Hflag. reflexivity.
Defined.

(** A pierce charge spent in the pass is spent in the state of the
    next tick, although the pass does not call [setProjectiles]: the
    advance stage copies the arrow after the decrement. *)
Example pierce_charge_is_spent (n : Game) :
  let c := combatPass halfDraws 1000 piercingHit 0 in
  let queued :=
    queuedProjectiles flatAtan2 flatCos flatSin 1000 piercingHit in
  newKills c = 1%Z
  /\ projectilesChanged c = false
  /\ projectiles (commitCombat queued piercingHit n c)
     = [Projectile.mk 606 300 6 0 4 600 0 false].
Proof.
  intros c queued.
  assert (Hc : newKills c = 1%Z /\ projectilesChanged c = false
               /\ queued (heap c)
                  = [Projectile.mk 606 300 6 0 4 600 0 false]).
  { subst c queued. vm_compute. repeat split. }
  destruct Hc as (Hk & Hch & Hq).
  split; [exact Hk|]. split; [exact Hch|].
  unfold commitCombat. rewrite Hch, Hq.
  repeat match goal with
  | |- context [if ?b then _ else _] => destruct b
  end; reflexivity.
Qed.

(** ** Drop pickup *)

Lemma commitCombat_slpCount (queued : list Projectile.t -> list Projectile.t)
      (s n : Game) (c : Combat) :
  slpCount (commitCombat queued s n c)
  = let newSlp :=
      (slpCount s
       + Z.of_nat (List.length (filter (picksUp (player s)) (newDrops c))))%Z
    in if (newSlp =? slpCount s)%Z then slpCount n else newSlp.
Proof.
  unfold commitCombat. cbv zeta.
  repeat match goal with
  | |- context [if ?b then _ else _] => destruct b
  end; reflexivity.
Qed.

Lemma commitCombat_drops (queued : list Projectile.t -> list Projectile.t)
      (s n : Game) (c : Combat) :
  drops (commitCombat queued s n c)
  = if match filter (picksUp (player s)) (newDrops c) with
       | [] => dropsChanged c
       | _ :: _ => true
       end
    then filter (fun d => negb (picksUp (player s) d)) (newDrops c)
    else drops n.
Proof.
  unfold commitCombat. cbv zeta.
  destruct (filter (picksUp (player s)) (newDrops c));
    repeat match goal with
    | |- context [if ?b then _ else _] => destruct b
    end; reflexivity.
Qed.

(** X10.  Closing the combat pass, the currency grows by exactly the
    number of drops within the player's reach; when there is one, the
    drops cell is set to exactly the drops out of reach; and when nothing
    was picked up or dropped the cell is left alone. *)
Theorem drop_pickup (queued : list Projectile.t -> list Projectile.t)
        (s n : Game) (c : Combat) :
  let reach := picksUp (player s) in
  let picked := filter reach (newDrops c) in
  let remaining := filter (fun d => negb (reach d)) (newDrops c) in
  (slpCount n = slpCount s ->
   slpCount (commitCombat queued s n c)
   = (slpCount s + Z.of_nat (List.length picked))%Z)
  /\ (picked <> [] ->
      drops (commitCombat queued s n c) = remaining
      /\ Forall (fun d => reach d = false)
                (drops (commitCombat queued s n c)))
  /\ (List.length picked + List.length remaining
      = List.length (newDrops c))%nat
  /\ (picked = [] -> dropsChanged c = false ->
      drops (commitCombat queued s n c) = drops n).
Proof.
  intros reach picked remaining.
  split; [|split; [|split]].
  - intro Hn. rewrite commitCombat_slpCount. cbv zeta. fold reach picked.
    destruct (Z.eqb_spec (slpCount s + Z.of_nat (List.length picked))
                (slpCount s)) as [E|E]; [|reflexivity].
    rewrite Hn. lia.
  - intro Hne. rewrite commitCombat_drops. fold reach picked remaining.
    destruct picked as [|d l] eqn:Ep; [congruence|].
    split; [reflexivity|].
    apply Forall_forall. intros x Hx. apply filter_In in Hx.
    apply negb_true_iff, Hx.
  - subst picked remaining. induction (newDrops c) as [|d l IH];
      simpl; [reflexivity|].
    destruct (reach d); simpl; lia.
  - intros Hp Hc. rewrite commitCombat_drops. fold reach picked.
    rewrite Hp, Hc. reflexivity.
Qed.

Lemma drop_pickup_witness :
  let c := combatPass halfDraws 1000 lootGame 0 in
  let queued := fun prev : list Projectile.t => prev in
  slpCount (commitCombat queued lootGame lootGame c) = 1%Z
  /\ drops (commitCombat queued lootGame lootGame c) = [Drop.mk 100 100 12]
  /\ drops (commitCombat queued initialGame initialGame
              (combatPass halfDraws 1000 initialGame 0)) = [].
Proof.
  intros c queued.
  destruct (drop_pickup queued lootGame lootGame c)
    as (Hslp & Hdrops & _ & _).
  destruct (drop_pickup queued initialGame initialGame
              (combatPass halfDraws 1000 initialGame 0))
    as (_ & _ & _ & Hidle).
  split; [|split].
  - rewrite (Hslp eq_refl). reflexivity.
  - destruct Hdrops as [Hd _]; [discriminate|].
    rewrite Hd. reflexivity.
  - rewrite Hidle; reflexivity.
Defined.

(** ** Projectiles in flight *)

Lemma Qltb_ge (a b : Q) : Qltb a b = false -> b <= a.
Proof.
  unfold Qltb. rewrite negb_false_iff. apply Qle_bool_iff.
Qed.

Lemma find_none_existsb {A : Type} (f : A -> bool) (l : list A) :
  find f l = None -> existsb f l = false.
Proof.
  induction l as [|a l IH]; simpl; [reflexivity|].
  destruct (f a); [discriminate | exact IH].
Qed.

(** X11.  A projectile that stays in flight is not expired; the stage
    changes nothing of it but position and velocity; each velocity
    component is kept or negated, so the speed is kept; and the new
    position is the old one advanced by the new velocity. *)
Theorem advanceProjectile_kinematics (timestamp : Q)
        (obs : list Obstacle.t) (p q : Projectile.t) :
  advanceProjectile timestamp obs p = Some q ->
  expired timestamp p = false
  /\ Projectile.radius q = Projectile.radius p
  /\ Projectile.createdAt q = Projectile.createdAt p
  /\ Projectile.piercesLeft q = Projectile.piercesLeft p
  /\ Projectile.canRicochet q = Projectile.canRicochet p
  /\ Projectile.x q = Projectile.x p + Projectile.vx q
  /\ Projectile.y q = Projectile.y p + Projectile.vy q
  /\ (Projectile.vx q == Projectile.vx p
      \/ Projectile.vx q == - Projectile.vx p)
  /\ (Projectile.vy q == Projectile.vy p
      \/ Projectile.vy q == - Projectile.vy p)
  /\ Projectile.vx q * Projectile.vx q + Projectile.vy q * Projectile.vy q
     == Projectile.vx p * Projectile.vx p
        + Projectile.vy p * Projectile.vy p.
Proof.
  unfold advanceProjectile, bounceSide, bounceEnds.
  destruct (expired timestamp p); [discriminate|].
  destruct (exitsSide p), (exitsEnds p), (Projectile.canRicochet p) eqn:Er;
    try discriminate;
    match goal with
    | |- context [find ?f obs] => destruct (find f obs) as [ob|]
    end;
    try discriminate;
    try match goal with
    | |- context [circleRectCollisionAxis ?a ?b ?c ?d] =>
        destruct (circleRectCollisionAxis a b c d)
    end;
    intro H; injection H as <-;
    cbn [moved Projectile.x Projectile.y Projectile.vx Projectile.vy
         Projectile.radius Projectile.createdAt Projectile.piercesLeft
         Projectile.canRicochet];
    (split; [reflexivity|]); (split; [reflexivity|]);
    (split; [reflexivity|]); (split; [reflexivity|]);
    (split; [first [reflexivity | exact Er]|]);
    (split; [reflexivity|]); (split; [reflexivity|]);
    (split; [first [left; ring | right; ring]|]);
    (split; [first [left; ring | right; ring]|]);
    ring.
Qed.

Lemma advanceProjectile_kinematics_witness :
  exists q,
    advanceProjectile 100 [sideObstacle] edgeArrow = Some q
    /\ Projectile.x q = Projectile.x edgeArrow + Projectile.vx q
    /\ Projectile.vx q * Projectile.vx q + Projectile.vy q * Projectile.vy q
       == 36.
Proof.
  destruct (advanceProjectile 100 [sideObstacle] edgeArrow) as [q|] eqn:E;
    [|vm_compute in E; discriminate E].
  exists q.
  destruct (advanceProjectile_kinematics 100 [sideObstacle] edgeArrow q E)
    as (_ & _ & _ & _ & _ & Hx & _ & _ & _ & Hv).
  split; [reflexivity|]. split; [exact Hx|].
  rewrite Hv. reflexivity.
Defined.

(** X12.  A projectile without ricochet that stays in flight keeps its
    velocity, lies within the trapezoid bound of its row and between the
    top and bottom bounds, and touches no obstacle. *)
Theorem plain_projectile_stays_clear (timestamp : Q)
        (obs : list Obstacle.t) (p q : Projectile.t) :
  Projectile.canRicochet p = false ->
  advanceProjectile timestamp obs p = Some q ->
  let r := Projectile.radius q in
  Projectile.vx q = Projectile.vx p
  /\ Projectile.vy q = Projectile.vy p
  /\ cxArena - (halfWAt (Projectile.y q) - r) <= Projectile.x q
  /\ Projectile.x q <= cxArena + (halfWAt (Projectile.y q) - r)
  /\ r <= Projectile.y q
  /\ Projectile.y q <= canvasHeight - r
  /\ checkObstacleCollision obs (Projectile.x q) (Projectile.y q) r = false.
Proof.
  intros Hr. unfold advanceProjectile, bounceSide, bounceEnds.
  destruct (expired timestamp p); [discriminate|].
  rewrite Hr.
  destruct (exitsSide p) eqn:Es; [discriminate|].
  destruct (exitsEnds p) eqn:Ee; [discriminate|].
  destruct (find _ obs) as [ob|] eqn:Ef; [discriminate|].
  intro H. injection H as <-. cbv zeta.
  cbn [moved Projectile.x Projectile.y Projectile.vx Projectile.vy
       Projectile.radius].
  unfold exitsSide in Es. apply orb_false_iff in Es. destruct Es as [Es1 Es2].
  unfold exitsEnds in Ee. apply orb_false_iff in Ee. destruct Ee as [Ee1 Ee2].
  apply Qltb_ge in Es1, Es2, Ee1, Ee2.
  split; [reflexivity|]. split; [reflexivity|].
  split; [exact Es1|]. split; [exact Es2|].
  split; [exact Ee1|]. split; [exact Ee2|].
  apply find_none_existsb, Ef.
Qed.

Lemma plain_projectile_stays_clear_witness :
  exists q,
    advanceProjectile 100 [pillar] plainArrow = Some q
    /\ Projectile.vx q = 6
    /\ checkObstacleCollision [pillar] (Projectile.x q) (Projectile.y q) 4
       = false.
Proof.
  destruct (advanceProjectile 100 [pillar] plainArrow) as [q|] eqn:E;
    [|vm_compute in E; discriminate E].
  exists q.
  destruct (plain_projectile_stays_clear 100 [pillar] plainArrow q eq_refl E)
    as (Hvx & _ & _ & _ & _ & _ & Hclear).
  assert (Hr : Projectile.radius q = 4).
  { vm_compute in E. injection E as <-. reflexivity. }
  rewrite Hr in Hclear.
  split; [reflexivity|]. split; [exact Hvx | exact Hclear].
Defined.

Lemma ricochet_in_flight (timestamp : Q) (obs : list Obstacle.t)
      (p : Projectile.t) :
  Projectile.canRicochet p = true ->
  expired timestamp p = false ->
  exists q, advanceProjectile timestamp obs p = Some q.
Proof.
  intros Hr He. unfold advanceProjectile, bounceSide, bounceEnds.
  rewrite He, Hr.
  destruct (exitsSide p), (exitsEnds p);
    match goal with
    | |- context [find ?f obs] => destruct (find f obs)
    end; eexists; reflexivity.
Qed.

Lemma advanceProjectile_unexpired (timestamp : Q) (obs : list Obstacle.t)
      (p q : Projectile.t) :
  advanceProjectile timestamp obs p = Some q ->
  expired timestamp q = false.
Proof.
  unfold advanceProjectile, bounceSide, bounceEnds.
  destruct (expired timestamp p) eqn:He; [discriminate|].
  destruct (exitsSide p), (exitsEnds p), (Projectile.canRicochet p);
    try discriminate;
    match goal with
    | |- context [find ?f obs] => destruct (find f obs)
    end;
    try discriminate;
    intro H; injection H as <-; exact He.
Qed.

(** X13.  The projectile stage never adds a projectile: its result is
    made of advanced projectiles of its input, in number at most the
    input's, none of them expired; and it removes nothing from a list of
    unexpired ricochet projectiles. *)
Theorem advanceProjectiles_survivors (timestamp : Q) (obs : list Obstacle.t)
        (prev : list Projectile.t) :
  let next := advanceProjectiles timestamp obs prev in
  (List.length next <= List.length prev)%nat
  /\ Forall (fun q => expired timestamp q = false
                      /\ exists p, In p prev
                                   /\ advanceProjectile timestamp obs p
                                      = Some q) next
  /\ (Forall (fun p => Projectile.canRicochet p = true
                       /\ expired timestamp p = false) prev ->
      List.length next = List.length prev).
Proof.
  intro next. subst next. unfold advanceProjectiles.
  induction prev as [|p prev IH]; simpl.
  - split; [lia|]. split; [constructor|]. reflexivity.
  - destruct IH as (IH1 & IH2 & IH3).
    assert (Hweak :
      Forall (fun q => expired timestamp q = false
                       /\ exists p0, In p0 (p :: prev)
                                     /\ advanceProjectile timestamp obs p0
                                        = Some q)
        (flat_map (fun p0 => match advanceProjectile timestamp obs p0 with
                             | Some q => [q]
                             | None => []
                             end) prev)).
    { apply Forall_forall. intros q Hq.
      rewrite Forall_forall in IH2. destruct (IH2 q Hq) as (He & p0 & Hp0 & Ha).
      split; [exact He|]. exists p0. split; [right; exact Hp0 | exact Ha]. }
    destruct (advanceProjectile timestamp obs p) as [q|] eqn:E; simpl.
    + split; [lia|]. split.
      * constructor; [|exact Hweak]. split.
        -- exact (advanceProjectile_unexpired timestamp obs p q E).
        -- exists p. split; [left; reflexivity | exact E].
      * intro H. inversion H; subst. f_equal. apply IH3. assumption.
    + split; [lia|]. split; [exact Hweak|].
      intro H. inversion H as [|? ? [Hr He] Hrest]; subst.
      destruct (ricochet_in_flight timestamp obs p Hr He) as [q Hq].
      congruence.
Qed.

Lemma advanceProjectiles_survivors_witness :
  List.length (advanceProjectiles 100 [sideObstacle] [edgeArrow; edgeArrow])
  = 2%nat.
Proof.
  destruct (advanceProjectiles_survivors 100 [sideObstacle]
              [edgeArrow; edgeArrow]) as (_ & _ & Hall).
  apply Hall. repeat constructor.
Defined.

(** ** More on the player-advance stage *)

Lemma halfWAt_eq (a b : Q) : a == b -> halfWAt a == halfWAt b.
Proof. intro H. rewrite !halfWAt_affine, H. reflexivity. Qed.

Lemma clamp_between (lo hi v w : Q) :
  lo <= w -> w <= hi ->
  Qmin v w <= Qmax lo (Qmin hi v) /\ Qmax lo (Qmin hi v) <= Qmax v w.
Proof.
  intros Hlo Hhi.
  destruct (Q.min_spec hi v) as [[H1 E1]|[H1 E1]];
    destruct (Q.max_spec lo (Qmin hi v)) as [[H2 E2]|[H2 E2]];
    destruct (Q.min_spec v w) as [[H3 E3]|[H3 E3]];
    destruct (Q.max_spec v w) as [[H4 E4]|[H4 E4]];
    rewrite E2, E3, E4; rewrite ?E1 in *; split; lra.
Qed.

(** X14.  A player that starts between the top and bottom bounds never
    moves vertically by more than [|vy|] in one step; and a player at
    rest inside the trapezoid stays where it is, whatever the
    obstacles. *)
Theorem player_step_is_gentle (obs : list Obstacle.t) (prev : Player.t) :
  let p := advancePlayer obs prev in
  let r := Player.radius prev in
  (r <= Player.y prev -> Player.y prev <= canvasHeight - r ->
   Player.y prev - Qabs (Player.vy prev) <= Player.y p
   /\ Player.y p <= Player.y prev + Qabs (Player.vy prev))
  /\ (Player.vx prev == 0 -> Player.vy prev == 0 ->
      r <= Player.y prev -> Player.y prev <= canvasHeight - r ->
      cxArena - (halfWAt (Player.y prev) - r) <= Player.x prev ->
      Player.x prev <= cxArena + (halfWAt (Player.y prev) - r) ->
      Player.x p == Player.x prev /\ Player.y p == Player.y prev).
Proof.
  intros p r.
  assert (Px : Player.x p
               = Qmax (cxArena - (halfWAt (playerCandY obs prev) - r))
                      (Qmin (cxArena + (halfWAt (playerCandY obs prev) - r))
                            (playerCandX obs prev))) by reflexivity.
  assert (Py : Player.y p
               = Qmax r (Qmin (canvasHeight - r) (playerCandY obs prev)))
    by reflexivity.
  split.
  - intros Hlo Hhi. rewrite Py.
    pose proof (Qle_Qabs (Player.vy prev)) as Ha.
    pose proof (Qle_Qabs (- Player.vy prev)) as Hb.
    rewrite Qabs_opp in Hb.
    destruct (clamp_between r (canvasHeight - r) (playerCandY obs prev)
                (Player.y prev) Hlo Hhi) as [H1 H2].
    assert (Hc : playerCandY obs prev == Player.y prev
                 \/ playerCandY obs prev == Player.y prev + Player.vy prev).
    { unfold playerCandY. destruct (checkObstacleCollision _ _ _ _);
        [left | right]; reflexivity. }
    destruct (Q.min_spec (playerCandY obs prev) (Player.y prev))
      as [[_ E3]|[_ E3]];
      destruct (Q.max_spec (playerCandY obs prev) (Player.y prev))
        as [[_ E4]|[_ E4]];
      rewrite E3 in H1; rewrite E4 in H2;
      destruct Hc as [Hc|Hc]; rewrite ?Hc in *; split; lra.
  - intros Hvx Hvy Hlo Hhi Hxl Hxr.
    assert (Ex : playerCandX obs prev == Player.x prev).
    { unfold playerCandX. destruct (checkObstacleCollision _ _ _ _);
        [reflexivity | rewrite Hvx; ring]. }
    assert (Ey : playerCandY obs prev == Player.y prev).
    { unfold playerCandY. destruct (checkObstacleCollision _ _ _ _);
        [reflexivity | rewrite Hvy; ring]. }
    pose proof (halfWAt_eq _ _ Ey) as Eh.
    split.
    + rewrite Px. rewrite clamp_inside; [exact Ex | lra | lra].
    + rewrite Py. rewrite clamp_inside; [exact Ey | lra | lra].
Qed.

Lemma player_step_is_gentle_witness :
  Player.y (advancePlayer [] cornerPlayer)
  <= Player.y cornerPlayer + Qabs (Player.vy cornerPlayer)
  /\ Player.x (advancePlayer [pillar] initialPlayer) == 640.
Proof.
  destruct (player_step_is_gentle [] cornerPlayer) as [Hy _].
  destruct (player_step_is_gentle [pillar] initialPlayer) as [_ Hrest].
  split.
  - apply Hy; vm_compute; discriminate.
  - apply Hrest; try reflexivity; vm_compute; discriminate.
Defined.

(** X15.  Sliding along a wall: when the move on one axis alone hits an
    obstacle and the move on the other axis alone does not, the player
    keeps the blocked coordinate and advances on the free axis, as long
    as the position so reached needs no clamping. *)
Theorem player_slides_along_obstacle (obs : list Obstacle.t)
        (prev : Player.t) :
  let p := advancePlayer obs prev in
  let r := Player.radius prev in
  let x := Player.x prev in
  let y := Player.y prev in
  let vx := Player.vx prev in
  let vy := Player.vy prev in
  (checkObstacleCollision obs (x + vx) y r = true ->
   checkObstacleCollision obs x (y + vy) r = false ->
   r <= y + vy -> y + vy <= canvasHeight - r ->
   cxArena - (halfWAt (y + vy) - r) <= x ->
   x <= cxArena + (halfWAt (y + vy) - r) ->
   Player.x p == x /\ Player.y p == y + vy
   /\ checkObstacleCollision obs (Player.x p) (Player.y p) r = false)
  /\ (checkObstacleCollision obs (x + vx) y r = false ->
      checkObstacleCollision obs x (y + vy) r = true ->
      r <= y -> y <= canvasHeight - r ->
      cxArena - (halfWAt y - r) <= x + vx ->
      x + vx <= cxArena + (halfWAt y - r) ->
      Player.x p == x + vx /\ Player.y p == y
      /\ checkObstacleCollision obs (Player.x p) (Player.y p) r = false).
Proof.
  intros p r x y vx vy.
  assert (Px : Player.x p
               = Qmax (cxArena - (halfWAt (playerCandY obs prev) - r))
                      (Qmin (cxArena + (halfWAt (playerCandY obs prev) - r))
                            (playerCandX obs prev))) by reflexivity.
  assert (Py : Player.y p
               = Qmax r (Qmin (canvasHeight - r) (playerCandY obs prev)))
    by reflexivity.
  split; intros Cx Cy Hlo Hhi Hxl Hxr.
  - assert (Ex : playerCandX obs prev = x)
      by (unfold playerCandX; fold x y vx r; rewrite Cx; reflexivity).
    assert (Ey : playerCandY obs prev = y + vy)
      by (unfold playerCandY; fold x y vy r; rewrite Cy; reflexivity).
    rewrite Ex, Ey in *.
    assert (Hx : Player.x p == x)
      by (rewrite Px; apply clamp_inside; assumption).
    assert (Hy : Player.y p == y + vy)
      by (rewrite Py; apply clamp_inside; assumption).
    split; [exact Hx|]. split; [exact Hy|].
    rewrite (checkObstacleCollision_compat obs _ _ _ _ r Hx Hy). exact Cy.
  - assert (Ex : playerCandX obs prev = x + vx)
      by (unfold playerCandX; fold x y vx r; rewrite Cx; reflexivity).
    assert (Ey : playerCandY obs prev = y)
      by (unfold playerCandY; fold x y vy r; rewrite Cy; reflexivity).
    rewrite Ex, Ey in *.
    assert (Hx : Player.x p == x + vx)
      by (rewrite Px; apply clamp_inside; assumption).
    assert (Hy : Player.y p == y)
      by (rewrite Py; apply clamp_inside; assumption).
    split; [exact Hx|]. split; [exact Hy|].
    rewrite (checkObstacleCollision_compat obs _ _ _ _ r Hx Hy). exact Cx.
Qed.

Lemma player_slides_along_obstacle_witness :
  Player.x (advancePlayer [pillar] blockedPlayer) == 671
  /\ Player.y (advancePlayer [pillar] blockedPlayer) == 360 + 3.12
  /\ Player.y (advancePlayer [pillar] landedPlayer) == 317.
Proof.
  destruct (player_slides_along_obstacle [pillar] blockedPlayer)
    as [Hdown _].
  destruct (player_slides_along_obstacle [pillar] landedPlayer)
    as [_ Hright].
  destruct Hdown as (Hx & Hy & _).
  - reflexivity.
  - reflexivity.
  - vm_compute. discriminate.
  - vm_compute. discriminate.
  - vm_compute. discriminate.
  - vm_compute. discriminate.
  - destruct Hright as (_ & Hy2 & _).
    + reflexivity.
    + reflexivity.
    + vm_compute. discriminate.
    + vm_compute. discriminate.
    + vm_compute. discriminate.
    + vm_compute. discriminate.
    + split; [exact Hx|]. split; [exact Hy | exact Hy2].
Defined.

(** ** More on the volley *)

Lemma volleySpread_range (count : nat) :
  (1 <= count)%nat -> 0 <= volleySpread count /\ volleySpread count <= 0.3.
Proof.
  intro H. unfold volleySpread.
  assert (Hc : 1 <= countQ count).
  { unfold countQ. change 1 with (inject_Z 1). rewrite <- Zle_Qle. lia. }
  split.
  - apply Q.min_glb; [discriminate | lra].
  - apply Q.le_min_l.
Qed.

Lemma volleyOffset_range (count i : nat) :
  (i < count)%nat ->
  - (volleySpread count / 2) <= volleyOffset count i
  /\ volleyOffset count i <= volleySpread count / 2.
Proof.
  intro Hi.
  destruct (volleySpread_range count ltac:(lia)) as [Hs0 Hs1].
  unfold volleyOffset.
  destruct (count =? 1)%nat eqn:E.
  - assert (0 <= volleySpread count / 2) by (apply half_nonneg, Hs0).
    split; lra.
  - apply Nat.eqb_neq in E.
    assert (Hc : 1 < countQ count).
    { unfold countQ. change 1 with (inject_Z 1). rewrite <- Zlt_Qlt. lia. }
    assert (Hi0 : 0 <= countQ i).
    { unfold countQ. change 0 with (inject_Z 0). rewrite <- Zle_Qle. lia. }
    assert (Hi1 : countQ i <= countQ count - 1).
    { assert (Hle : countQ i + 1 <= countQ count).
      { change 1 with (countQ 1). rewrite <- countQ_plus. unfold countQ.
        rewrite <- Zle_Qle. lia. }
      lra. }
    set (S := volleySpread count) in *.
    set (c := countQ count) in *.
    set (k := S / (c - 1)).
    assert (Hk : k * (c - 1) == S) by (unfold k; field; lra).
    assert (Hk0 : 0 <= k).
    { unfold k. apply Qle_shift_div_l; [lra|]. lra. }
    assert (Hh : (- S) / 2 == - (S / 2)) by field.
    assert (Hh2 : S / 2 == (1 # 2) * S) by field.
    rewrite Hh.
    assert (Hki : 0 <= k * countQ i) by nra.
    assert (Hki2 : k * countQ i <= S) by nra.
    split; lra.
Qed.

(** X16.  Every arrow of a volley leaves within 0.15 rad of the aim
    angle: its angle differs from the aim by at most half the spread, and
    the spread never exceeds 0.3. *)
Theorem volley_within_cone (atan2 : Q -> Q -> Q) (pl : Player.t)
        (count i : nat) :
  (i < count)%nat ->
  let aim := atan2 (Player.aimY pl) (Player.aimX pl) in
  aim - 0.15 <= volleyAngle atan2 pl count i
  /\ volleyAngle atan2 pl count i <= aim + 0.15
  /\ aim - volleySpread count / 2 <= volleyAngle atan2 pl count i
  /\ volleyAngle atan2 pl count i <= aim + volleySpread count / 2
  /\ 0 <= volleySpread count
  /\ volleySpread count <= 0.3.
Proof.
  intros Hi aim. unfold volleyAngle. fold aim.
  destruct (volleySpread_range count ltac:(lia)) as [Hs0 Hs1].
  destruct (volleyOffset_range count i Hi) as [Ho1 Ho2].
  assert (Hh : volleySpread count / 2 == (1 # 2) * volleySpread count)
    by field.
  repeat split; lra.
Qed.

Lemma volley_within_cone_witness :
  volleyAngle flatAtan2 initialPlayer 5 4 <= 0 + 0.15.
Proof.
  destruct (volley_within_cone flatAtan2 initialPlayer 5 4) as (_ & H & _).
  - lia.
  - exact H.
Defined.

(** X17.  A player that is moving on either axis, or that fired less
    than 500 ms ago, does not fire: the fire stage leaves the state as it
    is. *)
Theorem fire_gate (atan2 : Q -> Q -> Q) (cos sin : Q -> Q) (timestamp : Q)
        (s n : Game) :
  ~ Player.vx (player s) == 0
  \/ ~ Player.vy (player s) == 0
  \/ timestamp - Player.lastFireTime (player s) < fireRate ->
  fireStage atan2 cos sin timestamp s n = n.
Proof.
  intro H. unfold fireStage.
  assert (Hno : mayFire timestamp s = false).
  { unfold mayFire. destruct H as [H|[H|H]].
    - destruct (Qeq_bool (Player.vx (player s)) 0) eqn:E; [|reflexivity].
      apply Qeq_bool_iff in E. contradiction.
    - destruct (Qeq_bool (Player.vy (player s)) 0) eqn:E;
        [|rewrite andb_false_r; reflexivity].
      apply Qeq_bool_iff in E. contradiction.
    - destruct (Qle_bool fireRate _) eqn:E; [|apply andb_false_r].
      apply Qle_bool_iff in E. exfalso. exact (Qlt_not_le _ _ H E). }
  rewrite Hno. reflexivity.
Qed.

Lemma fire_gate_witness :
  fireStage flatAtan2 flatCos flatSin 499 tripleShot tripleShot = tripleShot.
Proof.
  apply fire_gate. right. right. reflexivity.
Defined.

(** ** More on the enemy spawner *)

Section EnemySpawner.

Variable draws : nat -> Q.

Lemma sampleEnemy_cursor (s : Game) (budget k : nat) :
  (k <= snd (sampleEnemy draws s budget k) <= k + 2 * budget)%nat
  /\ (fst (sampleEnemy draws s budget k) <> None ->
      (k + 2 <= snd (sampleEnemy draws s budget k))%nat).
Proof.
  revert k. induction budget as [|b IH]; intro k; simpl.
  - split; [lia|]. intro H. congruence.
  - destruct (enemyCandidateOk s _ _); simpl.
    + split; [lia|]. intros _. lia.
    + destruct (IH (S (S k))) as [[H1 H2] H3].
      split; [lia|]. intro H. specialize (H3 H). lia.
Qed.

Lemma sampleEnemy_found (s : Game) (budget k : nat) (x y : Q) :
  fst (sampleEnemy draws s budget k) = Some (x, y) ->
  exists j,
    (k <= j)%nat
    /\ y = 40 + draws j * (canvasHeight - 80)
    /\ x = cxArena - (halfWAt y - 40) + draws (S j) * ((halfWAt y - 40) * 2)
    /\ enemyCandidateOk s x y = true.
Proof.
  revert k. induction budget as [|b IH]; intro k; simpl; [discriminate|].
  set (y0 := 40 + draws k * (canvasHeight - 80)).
  set (x0 := cxArena - (halfWAt y0 - 40)
             + draws (S k) * ((halfWAt y0 - 40) * 2)).
  destruct (enemyCandidateOk s x0 y0) eqn:E; simpl.
  - intro H. injection H as Hx Hy. exists k.
    split; [lia|]. rewrite <- Hx, <- Hy.
    split; [reflexivity|]. split; [reflexivity | exact E].
  - intro H. destruct (IH _ H) as (j & Hj & Hrest). exists j.
    split; [lia | exact Hrest].
Qed.

End EnemySpawner.

(** X18.  The spawn stage does nothing before 1200 ms have passed since
    the last spawn.  Once they have, it sets the spawn timer to the
    timestamp; at the cap of 35 enemies it adds no enemy and takes no
    random draw; below the cap it appends exactly one enemy, after 2 to
    42 draws. *)
Theorem spawnStage_cap (draws : nat -> Q) (timestamp : Q) (s n : Game)
        (k : nat) :
  let r := spawnStage draws timestamp s n k in
  (timestamp - lastEnemySpawn s < enemySpawnRate -> r = (n, k))
  /\ (enemySpawnRate <= timestamp - lastEnemySpawn s ->
      lastEnemySpawn (fst r) = timestamp
      /\ ((MAX_ENEMIES <= List.length (enemies s))%nat ->
          enemies (fst r) = enemies n /\ snd r = k)
      /\ ((List.length (enemies s) < MAX_ENEMIES)%nat ->
          (exists e, enemies (fst r) = enemies n ++ [e])
          /\ (k + 2 <= snd r <= k + 42)%nat)).
Proof.
  intro r. subst r. unfold spawnStage. split.
  - intro H. destruct (Qle_bool enemySpawnRate _) eqn:E; [|reflexivity].
    apply Qle_bool_iff in E. exfalso. exact (Qlt_not_le _ _ H E).
  - intro H. apply Qle_bool_iff in H. rewrite H. unfold spawnEnemy.
    destruct (MAX_ENEMIES <=? List.length (enemies s))%nat eqn:Ecap.
    + apply Nat.leb_le in Ecap.
      split; [reflexivity|]. split; [intros _; split; reflexivity|].
      intro Hlt. lia.
    + apply Nat.leb_gt in Ecap.
      pose proof (sampleEnemy_cursor draws s 20 k) as [[Hc1 Hc2] Hc3].
      destruct (sampleEnemy draws s 20 k) as [[pos|] k1]; simpl in *.
      * split; [reflexivity|]. split; [intro Hge; lia|]. intros _.
        split; [eexists; reflexivity|].
        specialize (Hc3 ltac:(discriminate)). lia.
      * split; [reflexivity|]. split; [intro Hge; lia|]. intros _.
        split; [eexists; reflexivity | lia].
Qed.

Lemma spawnStage_cap_witness :
  spawnStage halfDraws 1199 initialGame initialGame 0 = (initialGame, 0%nat)
  /\ lastEnemySpawn (fst (spawnStage halfDraws 1200 initialGame initialGame 0))
     = 1200
  /\ exists e,
       enemies (fst (spawnStage halfDraws 1200 initialGame initialGame 0))
       = [e].
Proof.
  destruct (spawnStage_cap halfDraws 1199 initialGame initialGame 0)
    as [Hearly _].
  destruct (spawnStage_cap halfDraws 1200 initialGame initialGame 0)
    as [_ Hdue].
  split; [apply Hearly; reflexivity|].
  destruct Hdue as (Ht & _ & Hadd); [vm_compute; discriminate|].
  split; [exact Ht|].
  destruct Hadd as [He _]; [vm_compute; lia|]. exact He.
Defined.

(** X19.  When the rejection sampling of the enemy spawner finds a
    position, the enemy is created there: at least 40 inside the arena
    on every side of its row, farther than 160 from the player, and
    touching no obstacle. *)
Theorem sampled_enemy_is_well_placed (draws : nat -> Q) (time : Q)
        (s n : Game) (k : nat) (x y : Q) :
  (forall j, 0 <= draws j /\ draws j < 1) ->
  (List.length (enemies s) < MAX_ENEMIES)%nat ->
  fst (sampleEnemy draws s 20 k) = Some (x, y) ->
  enemies (fst (spawnEnemy draws time s n k))
  = enemies n ++ [Enemy.mk x y 0 0 12 (time + 300)]
  /\ 40 <= y /\ y <= canvasHeight - 40
  /\ cxArena - (halfWAt y - 40) <= x
  /\ x <= cxArena + (halfWAt y - 40)
  /\ 160 * 160 < (Player.x (player s) - x) * (Player.x (player s) - x)
                 + (Player.y (player s) - y) * (Player.y (player s) - y)
  /\ checkObstacleCollision (obstacles s) x y 12 = false.
Proof.
  intros Hunit Hcap Hfound.
  split.
  - unfold spawnEnemy. apply Nat.leb_gt in Hcap. rewrite Hcap.
    destruct (sampleEnemy draws s 20 k) as [found k1]. simpl in Hfound.
    subst found. reflexivity.
  - destruct (sampleEnemy_found draws s 20 k x y Hfound)
      as (j & _ & Hy & Hx & Hok).
    destruct (Hunit j) as [Hj0 Hj1]. destruct (Hunit (S j)) as [Hs0 Hs1].
    assert (Hy1 : 40 <= y) by (rewrite Hy; unfold canvasHeight; nra).
    assert (Hy2 : y <= canvasHeight - 40)
      by (rewrite Hy; unfold canvasHeight; nra).
    pose proof (halfWAt_affine y) as Hh.
    assert (Hhw : 0 <= halfWAt y - 40) by lra.
    split; [exact Hy1|]. split; [exact Hy2|].
    split; [rewrite Hx; nra|]. split; [rewrite Hx; nra|].
    unfold enemyCandidateOk in Hok. apply andb_true_iff in Hok.
    destruct Hok as [Hd Hc]. split.
    + unfold sqrt_gt in Hd. apply orb_true_iff in Hd.
      destruct Hd as [Hd|Hd]; [discriminate|]. apply Qltb_lt in Hd. exact Hd.
    + apply negb_true_iff in Hc. exact Hc.
Qed.

Lemma sampled_enemy_is_well_placed_witness :
  exists x y,
    enemies (fst (spawnEnemy cyclingDraws 1000 initialGame initialGame 0))
    = [Enemy.mk x y 0 0 12 (1000 + 300)]
    /\ 40 <= y
    /\ checkObstacleCollision (obstacles initialGame) x y 12 = false.
Proof.
  destruct (fst (sampleEnemy cyclingDraws initialGame 20 0))
    as [[x y]|] eqn:E; [|vm_compute in E; discriminate E].
  exists x, y.
  destruct (sampled_enemy_is_well_placed cyclingDraws 1000 initialGame
              initialGame 0 x y cyclingDraws_unit) as (He & Hy & _ & _ & _
                                                      & _ & Hc).
  - vm_compute. lia.
  - exact E.
  - split; [exact He|]. split; [exact Hy | exact Hc].
Defined.

(** ** More on the obstacle spawner *)

Section ObstacleSpawner.

Variable draws : nat -> Q.
Variable s : Game.

Lemma sampleObstacle_found (newObstacles : list Obstacle.t)
      (budget k : nat) (x y : Q) :
  fst (sampleObstacle draws s newObstacles budget k) = Some (x, y) ->
  let r := Player.radius (player s) in
  obstacleCandidateOk s newObstacles x y = true
  /\ exists j,
       y = 50 + draws j * (canvasHeight - 100)
       /\ x = cxArena - (halfWAt y - (r * 2 / 2 + 8))
              + draws (S j) * ((halfWAt y - (r * 2 / 2 + 8)) * 2).
Proof.
  revert k. induction budget as [|b IH]; intro k; simpl; [discriminate|].
  set (y0 := 50 + draws k * (canvasHeight - 100)).
  set (x0 := cxArena - (halfWAt y0 - (Player.radius (player s) * 2 / 2 + 8))
             + draws (S k)
               * ((halfWAt y0 - (Player.radius (player s) * 2 / 2 + 8)) * 2)).
  destruct (obstacleCandidateOk s newObstacles x0 y0) eqn:E; simpl.
  - intro H. injection H as Hx Hy. rewrite <- Hx, <- Hy.
    split; [exact E|]. exists k. split; reflexivity.
  - intro H. exact (IH _ H).
Qed.

Lemma placeObstacles_wellPlaced (toAdd : nat) :
  forall (acc : list Obstacle.t) (k : nat),
    obstaclesWellPlaced draws s acc ->
    obstaclesWellPlaced draws s (fst (placeObstacles draws s toAdd acc k)).
Proof.
  induction toAdd as [|m IH]; intros acc k Hacc; [exact Hacc|].
  rewrite placeObstacles_S.
  destruct (sampleObstacle draws s acc 20 k) as [[[x y]|] k1] eqn:Es;
    [|apply IH, Hacc].
  apply IH. intros i ob Hi r.
  assert (Hf : fst (sampleObstacle draws s acc 20 k) = Some (x, y))
    by (rewrite Es; reflexivity).
  destruct (sampleObstacle_found acc 20 k x y Hf) as (Hok & j & Hy & Hx).
  destruct (Nat.lt_ge_cases i (List.length acc)) as [Hlt|Hge].
  - rewrite nth_error_app1 in Hi by exact Hlt.
    rewrite firstn_app.
    replace (i - List.length acc)%nat with 0%nat by lia.
    simpl firstn. rewrite app_nil_r.
    exact (Hacc i ob Hi).
  - rewrite nth_error_app2 in Hi by exact Hge.
    destruct (i - List.length acc)%nat as [|i'] eqn:Ei;
      [|destruct i'; discriminate Hi].
    injection Hi as <-.
    assert (i = List.length acc) by lia. subst i.
    rewrite firstn_app, firstn_all, Nat.sub_diag. simpl firstn.
    rewrite app_nil_r. cbn [Obstacle.x Obstacle.y Obstacle.width
                            Obstacle.height].
    split; [reflexivity|]. split; [reflexivity|]. split; [exact Hok|].
    exists j. split; assumption.
Qed.

Lemma spawnObstacles_wellPlaced (n : Game) (k : nat) :
  exists added,
    obstacles (fst (spawnObstacles draws s n k)) = obstacles n ++ added
    /\ obstaclesWellPlaced draws s added.
Proof.
  unfold spawnObstacles.
  pose proof (placeObstacles_wellPlaced
                (Z.to_nat (obstaclesToAdd draws k)) [] (S k)) as H.
  destruct (placeObstacles draws s _ [] (S k)) as [added k1].
  exists added. split; [reflexivity|]. apply H.
  intros i ob Hi. destruct i; discriminate Hi.
Qed.

End ObstacleSpawner.

(** X20.  Every obstacle a milestone crossing adds is 2 player radii
    wide and 4 high, lies farther than 120 from the player and at least
    50 inside the top and bottom of the canvas and [radius + 8] inside the
    sides of its row, and overlaps, by the spawner's own test, neither an
    obstacle of the snapshot nor one added before it. *)
Theorem placed_obstacles_are_valid (draws : nat -> Q) (s n : Game)
        (k : nat) :
  (forall j, 0 <= draws j /\ draws j < 1) ->
  0 <= Player.radius (player s) ->
  Player.radius (player s) <= 200 ->
  let r := Player.radius (player s) in
  exists added,
    obstacles (fst (spawnObstacles draws s n k)) = obstacles n ++ added
    /\ forall i ob,
         nth_error added i = Some ob ->
         Obstacle.width ob = r * 2
         /\ Obstacle.height ob = r * 2 * 2
         /\ 120 * 120
            < (Player.x (player s) - Obstacle.x ob)
              * (Player.x (player s) - Obstacle.x ob)
              + (Player.y (player s) - Obstacle.y ob)
                * (Player.y (player s) - Obstacle.y ob)
         /\ Forall (fun o => obstacleOverlaps (Obstacle.x ob) (Obstacle.y ob)
                               (r * 2) o = false)
                   (obstacles s ++ firstn i added)
         /\ 50 <= Obstacle.y ob
         /\ Obstacle.y ob <= canvasHeight - 50
         /\ cxArena - (halfWAt (Obstacle.y ob) - (r + 8)) <= Obstacle.x ob
         /\ Obstacle.x ob <= cxArena + (halfWAt (Obstacle.y ob) - (r + 8)).
Proof.
  intros Hunit Hr0 Hr1 r. fold r in Hr0, Hr1.
  destruct (spawnObstacles_wellPlaced draws s n k) as (added & Ha & Hwp).
  exists added. split; [exact Ha|]. intros i ob Hi.
  destruct (Hwp i ob Hi) as (Hw & Hh & Hok & j & Hy & Hx). fold r in Hw, Hh, Hx.
  split; [exact Hw|]. split; [exact Hh|].
  unfold obstacleCandidateOk in Hok. apply andb_true_iff in Hok.
  destruct Hok as [Hd Ho]. split.
  { unfold sqrt_gt in Hd. apply orb_true_iff in Hd.
    destruct Hd as [Hd|Hd]; [discriminate|]. apply Qltb_lt in Hd. exact Hd. }
  split.
  { apply negb_true_iff in Ho. apply Forall_forall. intros o Hin.
    destruct (obstacleOverlaps _ _ _ o) eqn:E; [|reflexivity].
    assert (Hex : existsb (obstacleOverlaps (Obstacle.x ob) (Obstacle.y ob)
                             (r * 2)) (obstacles s ++ firstn i added) = true).
    { apply existsb_exists. exists o. split; assumption. }
    unfold r in Hex. congruence. }
  destruct (Hunit j) as [Hj0 Hj1]. destruct (Hunit (S j)) as [Hs0 Hs1].
  assert (Hy1 : 50 <= Obstacle.y ob)
    by (rewrite Hy; unfold canvasHeight; nra).
  assert (Hy2 : Obstacle.y ob <= canvasHeight - 50)
    by (rewrite Hy; unfold canvasHeight; nra).
  pose proof (halfWAt_affine (Obstacle.y ob)) as Hhw.
  assert (Hm : r * 2 / 2 + 8 == r + 8) by field.
  unfold canvasHeight in Hy2.
  set (m := r * 2 / 2 + 8) in *.
  assert (Hpos : 0 <= halfWAt (Obstacle.y ob) - m) by lra.
  split; [exact Hy1|]. split; [unfold canvasHeight; exact Hy2|].
  set (hw := halfWAt (Obstacle.y ob) - m) in *.
  assert (Hhw2 : halfWAt (Obstacle.y ob) - (r + 8) == hw)
    by (unfold hw; lra).
  rewrite Hhw2, Hx. split; nra.
Qed.

Lemma placed_obstacles_are_valid_witness :
  exists added,
    obstacles (fst (spawnObstacles cyclingDraws initialGame initialGame 0))
    = added
    /\ forall i ob, nth_error added i = Some ob -> Obstacle.width ob = 14 * 2.
Proof.
  destruct (placed_obstacles_are_valid cyclingDraws initialGame initialGame 0
              cyclingDraws_unit) as (added & Ha & Hv).
  - vm_compute. discriminate.
  - vm_compute. discriminate.
  - exists added. split; [exact Ha|]. intros i ob Hi.
    destruct (Hv i ob Hi) as (Hw & _). exact Hw.
Defined.

(** ** More on the milestone block *)

Section PerkPicks.

Variable draws : nat -> Q.

Lemma pickPerks_partial (fuel : nat) :
  (forall j, 0 <= draws j /\ draws j < 1) ->
  forall (picks : list Perk.t) (k : nat),
    (List.length picks <= 3)%nat ->
    NoDup (map Perk.id picks) ->
    incl picks pool ->
    match pickPerks draws fuel picks k with
    | Done (picks', k') =>
        List.length picks' = 3%nat
        /\ NoDup (map Perk.id picks')
        /\ incl picks' pool
        /\ (k + (3 - List.length picks) <= k' <= k + fuel)%nat
    | OutOfFuel => True
    | TypeError => False
    end.
Proof.
  intro Hunit. induction fuel as [|f IH]; intros picks k Hlen Hnd Hincl;
    rewrite pickPerks_eq; destruct (List.length picks <? 3)%nat eqn:E.
  - exact I.
  - apply Nat.ltb_ge in E. repeat split; try assumption; lia.
  - apply Nat.ltb_lt in E.
    destruct (poolAt_in_range _ (poolIndex_range draws Hunit k))
      as (c0 & Hc0 & Hin0).
    rewrite Hc0. destruct (existsb _ picks) eqn:Ehas.
    + specialize (IH picks (S k) Hlen Hnd Hincl).
      destruct (pickPerks draws f picks (S k)) as [[p' k']| |];
        [|exact I|exact IH].
      destruct IH as (H1 & H2 & H3 & H4). repeat split; try assumption; lia.
    + assert (Hnew : ~ In (Perk.id c0) (map Perk.id picks)).
      { intro H. apply hasId_In in H. congruence. }
      assert (Hlen' : (List.length (picks ++ [c0]) <= 3)%nat)
        by (rewrite length_app; simpl; lia).
      assert (Hnd' : NoDup (map Perk.id (picks ++ [c0])))
        by (rewrite map_app; simpl; apply NoDup_snoc; assumption).
      assert (Hincl' : incl (picks ++ [c0]) pool).
      { apply incl_app; [exact Hincl|]. intros x [<-|[]]. exact Hin0. }
      specialize (IH (picks ++ [c0]) (S k) Hlen' Hnd' Hincl').
      destruct (pickPerks draws f (picks ++ [c0]) (S k)) as [[p' k']| |];
        [|exact I|exact IH].
      destruct IH as (H1 & H2 & H3 & H4). rewrite length_app in H4.
      change (List.length [c0]) with 1%nat in H4.
      repeat split; try assumption; lia.
  - apply Nat.ltb_ge in E. repeat split; try assumption; lia.
Qed.

Lemma poolAt_out_of_range (z : Z) : (z < 0 \/ 5 <= z)%Z -> poolAt z = None.
Proof.
  intro H. unfold poolAt. destruct (Z.ltb_spec z 0) as [|Hz]; [reflexivity|].
  apply nth_error_None. simpl. lia.
Qed.

Lemma poolIndex_out_of_range (k : nat) :
  draws k < 0 \/ 1 <= draws k ->
  (poolIndex draws k < 0 \/ 5 <= poolIndex draws k)%Z.
Proof.
  unfold poolIndex. change (countQ (List.length pool)) with (inject_Z 5).
  intros [H|H].
  - left. rewrite Zlt_Qlt.
    apply Qle_lt_trans with (draws k * inject_Z 5); [apply Qfloor_le|].
    change (inject_Z 0) with 0. change (inject_Z 5) with 5. lra.
  - right. apply Z.le_trans with (Qfloor (inject_Z 5)).
    + rewrite Qfloor_Z. lia.
    + apply Qfloor_resp_le. change (inject_Z 5) with 5. lra.
Qed.

End PerkPicks.

(** X21.  With draws in [[0, 1)] the perk-picking loop never reads past
    the pool: it cannot throw, and whenever it ends it has taken at least
    three draws and holds exactly three perks of the pool with pairwise
    distinct ids.  A draw outside [[0, 1)] makes it throw. *)
Theorem pickPerks_is_safe (draws : nat -> Q) (fuel k : nat) :
  ((forall j, 0 <= draws j /\ draws j < 1) ->
   pickPerks draws fuel [] k <> TypeError
   /\ forall picks k',
        pickPerks draws fuel [] k = Done (picks, k') ->
        List.length picks = 3%nat
        /\ NoDup (map Perk.id picks)
        /\ incl picks pool
        /\ (k + 3 <= k' <= k + fuel)%nat)
  /\ (draws k < 0 \/ 1 <= draws k ->
      pickPerks draws (S fuel) [] k = TypeError).
Proof.
  split.
  - intro Hunit.
    pose proof (pickPerks_partial draws fuel Hunit [] k) as H.
    specialize (H ltac:(simpl; lia) ltac:(constructor) ltac:(intros x [])).
    split.
    + intro E. rewrite E in H. exact H.
    + intros picks k' E. rewrite E in H. simpl in H.
      destruct H as (H1 & H2 & H3 & H4). repeat split; try assumption; lia.
  - intro Hout. rewrite pickPerks_eq. simpl.
    rewrite (poolAt_out_of_range _ (poolIndex_out_of_range draws k Hout)).
    reflexivity.
Qed.

Lemma pickPerks_is_safe_witness :
  pickPerks cyclingDraws 10 [] 0 <> TypeError
  /\ pickPerks (fun _ => 1) 1 [] 0 = TypeError.
Proof.
  destruct (pickPerks_is_safe cyclingDraws 10 0) as [Hin _].
  destruct (pickPerks_is_safe (fun _ => 1) 0 0) as [_ Hout].
  split.
  - apply Hin. exact cyclingDraws_unit.
  - apply Hout. right. discriminate.
Defined.

Lemma sampleObstacle_cursor (draws : nat -> Q) (s : Game)
      (newObstacles : list Obstacle.t) (budget k : nat) :
  (k <= snd (sampleObstacle draws s newObstacles budget k))%nat.
Proof.
  revert k. induction budget as [|b IH]; intro k; simpl; [lia|].
  destruct (obstacleCandidateOk s newObstacles _ _); simpl; [lia|].
  specialize (IH (S (S k))). lia.
Qed.

Lemma placeObstacles_cursor (draws : nat -> Q) (s : Game) (toAdd : nat) :
  forall (acc : list Obstacle.t) (k : nat),
    (k <= snd (placeObstacles draws s toAdd acc k))%nat.
Proof.
  induction toAdd as [|m IH]; intros acc k; [simpl; lia|].
  rewrite placeObstacles_S.
  pose proof (sampleObstacle_cursor draws s acc 20 k) as Hs.
  destruct (sampleObstacle draws s acc 20 k) as [found k1]. simpl in Hs.
  match goal with
  | |- (_ <= snd (placeObstacles _ _ _ ?a _))%nat => specialize (IH a k1)
  end. lia.
Qed.

(** X22.  The milestone block leaves everything as it is while the kill
    count is below the threshold or a prompt is open.  When it fires, with
    draws in [[0, 1)] that hit three different pool entries, it ends, and
    it has multiplied the enemy speed by 1.1, stopped the run, picked a
    new ground hue, only appended to the obstacles, taken at least five
    random draws, and left stats, kills, player, enemies and projectiles
    alone. *)
Theorem milestone_escalates (draws : nat -> Q) (newKills : Z)
        (s n : Game) (k : nat) :
  ((newKills < nextMilestone s)%Z \/ perkOpen s = true ->
   forall fuel, milestone draws fuel newKills s n k = Done (n, k))
  /\ ((forall j, 0 <= draws j /\ draws j < 1) ->
      (exists a b c,
          (k <= a)%nat /\ (k <= b)%nat /\ (k <= c)%nat
          /\ poolIndex draws a <> poolIndex draws b
          /\ poolIndex draws a <> poolIndex draws c
          /\ poolIndex draws b <> poolIndex draws c) ->
      (nextMilestone s <= newKills)%Z ->
      perkOpen s = false ->
      exists fuel g k',
        (forall fuel', (fuel <= fuel')%nat ->
                       milestone draws fuel' newKills s n k = Done (g, k'))
        /\ enemySpeed g = enemySpeed n * 1.1
        /\ running g = false
        /\ (exists hue, groundColors g = GroundHsl hue /\ (0 <= hue < 360)%Z)
        /\ (exists added, obstacles g = obstacles n ++ added)
        /\ stats g = stats n
        /\ kills g = kills n
        /\ player g = player n
        /\ enemies g = enemies n
        /\ projectiles g = projectiles n
        /\ (k + 5 <= k')%nat).
Proof.
  split.
  - intros Hidle fuel. unfold milestone.
    assert (Hg : ((nextMilestone s <=? newKills)%Z && negb (perkOpen s))
                 = false).
    { destruct Hidle as [Hlt|Hopen].
      - apply andb_false_iff. left. apply Z.leb_gt, Hlt.
      - rewrite Hopen. apply andb_false_r. }
    rewrite Hg. reflexivity.
  - intros Hunit (a & b & c & Ha & Hb & Hc & Hab & Hac & Hbc) Hkills Hopen.
    destruct (pickPerks_three_distinct draws Hunit k a b c Ha Hb Hc
                Hab Hac Hbc) as (picks & k1 & Hpick & _).
    assert (Hg : ((nextMilestone s <=? newKills)%Z && negb (perkOpen s))
                 = true).
    { rewrite Hopen. apply andb_true_iff. split; [|reflexivity].
      apply Z.leb_le, Hkills. }
    pose proof (pickPerks_partial draws (a + b + c + 1) Hunit [] k) as Hk1.
    specialize (Hk1 ltac:(simpl; lia) ltac:(constructor)
                    ltac:(intros x [])).
    rewrite Hpick in Hk1. destruct Hk1 as (_ & _ & _ & Hk1 & _).
    simpl in Hk1.
    set (n' := setNextMilestone (nextMilestone s + 10)
                 (setEnemySpeed (enemySpeed n * 1.1)
                    (setGroundColors (pickRandomGroundColors draws k1)
                       (setRunning false
                          (setPerkOpen true (setPerkChoices picks n)))))).
    assert (Hrun : forall fuel', (a + b + c + 1 <= fuel')%nat ->
                     milestone draws fuel' newKills s n k
                     = Done (spawnObstacles draws s n' (S k1))).
    { intros fuel' Hle. unfold milestone. rewrite Hg.
      rewrite (pickPerks_more_fuel draws _ fuel' [] k (picks, k1) Hle Hpick).
      reflexivity. }
    pose proof (placeObstacles_cursor draws s
                  (Z.to_nat (obstaclesToAdd draws (S k1))) [] (S (S k1)))
      as Hcur.
    assert (Hsp : spawnObstacles draws s n' (S k1)
                  = (setObstacles
                       (obstacles n'
                        ++ fst (placeObstacles draws s
                                  (Z.to_nat (obstaclesToAdd draws (S k1)))
                                  [] (S (S k1)))) n',
                     snd (placeObstacles draws s
                            (Z.to_nat (obstaclesToAdd draws (S k1)))
                            [] (S (S k1))))).
    { unfold spawnObstacles.
      destruct (placeObstacles draws s _ [] (S (S k1))); reflexivity. }
    exists (a + b + c + 1)%nat.
    eexists. eexists.
    split; [intros fuel' Hle; rewrite (Hrun fuel' Hle), Hsp; reflexivity|].
    destruct (Hunit k1) as [Hh0 Hh1].
    pose proof (floor_scaled_range (draws k1) 360 Hh0 Hh1 eq_refl) as Hhue.
    split; [reflexivity|]. split; [reflexivity|].
    split; [eexists; split; [reflexivity | exact Hhue]|].
    split; [eexists; reflexivity|].
    split; [reflexivity|]. split; [reflexivity|]. split; [reflexivity|].
    split; [reflexivity|]. split; [reflexivity|]. lia.
Qed.

Lemma milestone_escalates_witness :
  (exists fuel g k',
      milestone cyclingDraws fuel 10 initialGame initialGame 0 = Done (g, k')
      /\ enemySpeed g = 1.3 * 1.1
      /\ running g = false
      /\ (5 <= k')%nat)
  /\ milestone cyclingDraws 4 9 initialGame initialGame 0
     = Done (initialGame, 0%nat).
Proof.
  destruct (milestone_escalates cyclingDraws 10 initialGame initialGame 0)
    as [_ Hfire].
  destruct (milestone_escalates cyclingDraws 9 initialGame initialGame 0)
    as [Hidle _].
  split.
  - destruct Hfire
      as (fuel & g & k' & Hrun & Hspeed & Hstop & _ & _ & _ & _ & _ & _
          & _ & Hk).
    + exact cyclingDraws_unit.
    + exists 0%nat, 1%nat, 2%nat.
      split; [lia|]. split; [lia|]. split; [lia|].
      split; [|split]; vm_compute; discriminate.
    + vm_compute. discriminate.
    + reflexivity.
    + exists fuel, g, k'.
      split; [apply Hrun; lia|].
      split; [exact Hspeed|]. split; [exact Hstop | exact Hk].
  - apply Hidle. left. reflexivity.
Defined.

(** * The earlier version of the component *)

Lemma unit_clamp_mono (a b : Q) :
  a <= b -> Qmax 0 (Qmin 1 a) <= Qmax 0 (Qmin 1 b).
Proof.
  intro H. apply Q.max_le_compat_l. apply Q.min_le_compat_l. exact H.
Qed.

(** X23.  In the earlier version the scale returned by [project] lies
    between 0.6 and 1 for every input and never decreases with [y]; the
    projected row lies between 20% and 95% of the canvas height; and the
    centre line is mapped to itself. *)
Theorem earlier_project_bounds (x y1 y2 : Q) :
  0.6 <= scale (Earlier.project x y1)
  /\ scale (Earlier.project x y1) <= 1
  /\ Earlier.canvasHeight * 0.2 <= sy (Earlier.project x y1)
  /\ sy (Earlier.project x y1) <= Earlier.canvasHeight * 0.95
  /\ (y1 <= y2 ->
      scale (Earlier.project x y1) <= scale (Earlier.project x y2))
  /\ sx (Earlier.project (Earlier.canvasWidth / 2) y1)
     == Earlier.canvasWidth / 2.
Proof.
  assert (Ht0 : forall y, 0 <= Qmax 0 (Qmin 1 (y / Earlier.canvasHeight)))
    by (intro y; apply clamp_lower).
  assert (Ht1 : forall y, Qmax 0 (Qmin 1 (y / Earlier.canvasHeight)) <= 1)
    by (intro y; apply clamp_upper; discriminate).
  cbn [scale sy sx Earlier.project].
  pose proof (Ht0 y1) as H0. pose proof (Ht1 y1) as H1.
  set (t1 := Qmax 0 (Qmin 1 (y1 / Earlier.canvasHeight))) in *.
  split; [lra|]. split; [lra|].
  split; [unfold Earlier.canvasHeight; lra|].
  split; [unfold Earlier.canvasHeight; lra|].
  split.
  - intro Hy.
    assert (Hm : t1 <= Qmax 0 (Qmin 1 (y2 / Earlier.canvasHeight))).
    { apply unit_clamp_mono. apply Qmult_le_compat_r; [exact Hy|].
      vm_compute. discriminate. }
    lra.
  - ring.
Qed.

Lemma earlier_project_bounds_witness :
  scale (Earlier.project 100 (-50)) <= scale (Earlier.project 100 500).
Proof.
  destruct (earlier_project_bounds 100 (-50) 500) as (_ & _ & _ & _ & H & _).
  apply H. vm_compute. discriminate.
Defined.

(** X24.  In the earlier version the player always ends inside the
    canvas, its circle included, whatever the starting point and the
    velocity; and from a starting point inside, it ends between where it
    was and where its velocity would take it. *)
Theorem earlier_player_stays_on_canvas (prev : Player.t) :
  let p := Earlier.advancePlayer prev in
  let r := Player.radius prev in
  (r <= Earlier.canvasWidth - r ->
   r <= Player.x p /\ Player.x p <= Earlier.canvasWidth - r)
  /\ (r <= Earlier.canvasHeight - r ->
      r <= Player.y p /\ Player.y p <= Earlier.canvasHeight - r)
  /\ (r <= Player.x prev -> Player.x prev <= Earlier.canvasWidth - r ->
      Qmin (Player.x prev + Player.vx prev) (Player.x prev) <= Player.x p
      /\ Player.x p <= Qmax (Player.x prev + Player.vx prev) (Player.x prev))
  /\ (r <= Player.y prev -> Player.y prev <= Earlier.canvasHeight - r ->
      Qmin (Player.y prev + Player.vy prev) (Player.y prev) <= Player.y p
      /\ Player.y p <= Qmax (Player.y prev + Player.vy prev) (Player.y prev)).
Proof.
  intros p r. subst p. cbn [Player.x Player.y Earlier.advancePlayer].
  fold r.
  split; [|split; [|split]].
  - intro H. split; [apply clamp_lower | apply clamp_upper, H].
  - intro H. split; [apply clamp_lower | apply clamp_upper, H].
  - intros H1 H2. apply clamp_between; assumption.
  - intros H1 H2. apply clamp_between; assumption.
Qed.

Lemma earlier_player_stays_on_canvas_witness :
  let p := Earlier.advancePlayer (Player.mk 630 5 50 (-50) 14 1 0 0) in
  Player.x p <= Earlier.canvasWidth - 14 /\ 14 <= Player.y p.
Proof.
  destruct (earlier_player_stays_on_canvas (Player.mk 630 5 50 (-50) 14 1 0 0))
    as (Hx & Hy & _).
  split.
  - apply Hx. vm_compute. discriminate.
  - apply Hy. vm_compute. discriminate.
Defined.

Lemma earlier_advanceProjectile_frame (p : Projectile.t) :
  let q := Earlier.advanceProjectile p in
  Projectile.createdAt q = Projectile.createdAt p
  /\ Projectile.radius q = Projectile.radius p
  /\ Projectile.piercesLeft q = Projectile.piercesLeft p
  /\ Projectile.canRicochet q = Projectile.canRicochet p
  /\ Projectile.x q = Projectile.x p + Projectile.vx q
  /\ Projectile.y q = Projectile.y p + Projectile.vy q
  /\ Projectile.vx q * Projectile.vx q + Projectile.vy q * Projectile.vy q
     == Projectile.vx p * Projectile.vx p
        + Projectile.vy p * Projectile.vy p
  /\ (Projectile.canRicochet p = false ->
      Projectile.vx q = Projectile.vx p /\ Projectile.vy q = Projectile.vy p).
Proof.
  unfold Earlier.advanceProjectile.
  destruct (Projectile.canRicochet p) eqn:Er.
  - destruct (Qle_bool _ _ || Qle_bool _ _);
      destruct (Qle_bool _ _ || Qle_bool _ _);
      cbn [moved Projectile.x Projectile.y Projectile.vx Projectile.vy
           Projectile.radius Projectile.createdAt Projectile.piercesLeft
           Projectile.canRicochet];
      do 3 (split; [reflexivity|]); (split; [exact Er|]);
      do 2 (split; [reflexivity|]); (split; [ring | discriminate]).
  - cbn [moved Projectile.x Projectile.y Projectile.vx Projectile.vy
         Projectile.radius Projectile.createdAt Projectile.piercesLeft
         Projectile.canRicochet].
    do 3 (split; [reflexivity|]). (split; [exact Er|]).
    do 2 (split; [reflexivity|]). split; [ring|].
    intros _. split; reflexivity.
Qed.

(** X25.  In the earlier version the projectile stage removes exactly
    the projectiles that have reached their lifetime, so an arrow that
    leaves the canvas stays in the list; every arrow it keeps moves by
    its new velocity at unchanged speed, and an arrow without ricochet
    keeps its velocity. *)
Theorem earlier_projectiles_only_expire (timestamp : Q)
        (prev : list Projectile.t) :
  let next := Earlier.advanceProjectiles timestamp prev in
  List.length next = List.length (filter (Earlier.alive timestamp) prev)
  /\ (List.length next <= List.length prev)%nat
  /\ Forall (fun q =>
               Earlier.alive timestamp q = true
               /\ exists p,
                    In p prev
                    /\ Projectile.x q = Projectile.x p + Projectile.vx q
                    /\ Projectile.y q = Projectile.y p + Projectile.vy q
                    /\ Projectile.vx q * Projectile.vx q
                       + Projectile.vy q * Projectile.vy q
                       == Projectile.vx p * Projectile.vx p
                          + Projectile.vy p * Projectile.vy p
                    /\ (Projectile.canRicochet p = false ->
                        Projectile.vx q = Projectile.vx p
                        /\ Projectile.vy q = Projectile.vy p)) next
  /\ (Forall (fun p => Earlier.alive timestamp p = true) prev ->
      List.length next = List.length prev).
Proof.
  intro next. subst next. unfold Earlier.advanceProjectiles.
  split; [apply length_map|].
  split; [rewrite length_map; apply filter_length_le|].
  split.
  - apply Forall_forall. intros q Hq. apply in_map_iff in Hq.
    destruct Hq as (p & <- & Hp). apply filter_In in Hp.
    destruct Hp as [Hin Halive].
    destruct (earlier_advanceProjectile_frame p)
      as (Hc & _ & _ & _ & Hx & Hy & Hv & Hplain).
    split.
    + unfold Earlier.alive in *. rewrite Hc. exact Halive.
    + exists p. repeat split; try assumption; apply Hplain; assumption.
  - intro Hall. rewrite length_map. f_equal.
    induction prev as [|p prev IH]; [reflexivity|].
    inversion Hall as [|? ? Hp Hrest]; subst. simpl. rewrite Hp.
    f_equal. apply IH, Hrest.
Qed.

Lemma earlier_projectiles_only_expire_witness :
  List.length
    (Earlier.advanceProjectiles 1000
       [Projectile.mk 700 400 6 0 4 0 0 false])
  = 1%nat.
Proof.
  destruct (earlier_projectiles_only_expire 1000
              [Projectile.mk 700 400 6 0 4 0 0 false]) as (_ & _ & _ & H).
  apply H. repeat constructor.
Defined.

(** * The snake game *)

Lemma samePosition_eq (a b : Snake.Position) :
  Snake.samePosition a b = true <-> a = b.
Proof.
  unfold Snake.samePosition. rewrite andb_true_iff, !Z.eqb_eq.
  destruct a, b; simpl. split.
  - intros [-> ->]. reflexivity.
  - intro H. injection H as -> ->. split; reflexivity.
Qed.

Lemma existsb_samePosition (p : Snake.Position) (l : list Snake.Position) :
  existsb (Snake.samePosition p) l = false <-> ~ In p l.
Proof.
  split.
  - intros H Hin. assert (E : existsb (Snake.samePosition p) l = true).
    { apply existsb_exists. exists p. split; [exact Hin|].
      apply samePosition_eq. reflexivity. }
    congruence.
  - intro H. destruct (existsb (Snake.samePosition p) l) eqn:E;
      [|reflexivity].
    apply existsb_exists in E. destruct E as (q & Hq & Hs).
    apply samePosition_eq in Hs. subst q. contradiction.
Qed.

Lemma In_removelast_In {A : Type} (l : list A) (a : A) :
  In a (removelast l) -> In a l.
Proof.
  induction l as [|b l IH]; simpl; [tauto|].
  destruct l as [|c l]; [intros []|].
  intros [H|H]; [left; exact H | right; apply IH, H].
Qed.

Lemma NoDup_removelast {A : Type} (l : list A) :
  NoDup l -> NoDup (removelast l).
Proof.
  induction l as [|b l IH]; intro H; simpl; [constructor|].
  destruct l as [|c l]; [constructor|].
  inversion H as [|? ? Hb Hl]; subst. constructor.
  - intro Hin. apply Hb. apply In_removelast_In. exact Hin.
  - apply IH, Hl.
Qed.

Lemma length_removelast_cons {A : Type} (a : A) (l : list A) :
  List.length (removelast (a :: l)) = List.length l.
Proof.
  revert a. induction l as [|b l IH]; intro a; [reflexivity|].
  change (removelast (a :: b :: l)) with (a :: removelast (b :: l)).
  cbn [List.length]. f_equal. apply IH.
Qed.

(** X26.  A key press never turns the snake straight back on the
    direction it has; it changes nothing but the direction; yet two
    presses before the next move can: from a snake heading right, up and
    then left leaves it heading left. *)
Theorem snake_turns (key : string) (g : Snake.State) :
  Snake.direction (Snake.handleKeyDown key g g)
  <> Snake.opposite (Snake.direction g)
  /\ Snake.handleKeyDown key g g
     = Snake.setDirection (Snake.direction (Snake.handleKeyDown key g g)) g
  /\ (Snake.direction g = Snake.Right ->
      let g1 := Snake.handleKeyDown "w" g g in
      Snake.direction (Snake.handleKeyDown "a" g1 g1)
      = Snake.opposite (Snake.direction g)).
Proof.
  split; [|split].
  - unfold Snake.handleKeyDown.
    destruct (Snake.direction g) eqn:Ed;
      cbn [Snake.isDirection negb];
      rewrite ?andb_false_r, ?andb_true_r;
      repeat match goal with
      | |- context [if ?b then _ else _] => destruct b
      end; cbn [Snake.direction Snake.setDirection Snake.opposite];
      rewrite ?Ed; discriminate.
  - unfold Snake.handleKeyDown.
    repeat match goal with
    | |- context [if ?b then _ else _] => destruct b
    end; destruct g; reflexivity.
  - intros Hd g1. subst g1. unfold Snake.handleKeyDown. rewrite Hd.
    reflexivity.
Qed.

Lemma snake_turns_witness :
  let g1 := Snake.handleKeyDown "w" Snake.initial Snake.initial in
  Snake.direction (Snake.handleKeyDown "a" g1 g1) = Snake.Left.
Proof.
  destruct (snake_turns "w" Snake.initial) as (_ & _ & H).
  apply H. reflexivity.
Defined.

Section SnakeFood.

Variable draws : nat -> Q.

Lemma placeFood_S (f : nat) (s n : Snake.State) (k : nat) :
  Snake.placeFood draws (S f) s n k
  = let newFood :=
      Snake.mkPosition (Qfloor (draws k * inject_Z Snake.gridSize))
        (Qfloor (draws (S k) * inject_Z Snake.gridSize)) in
    if existsb (fun segment => Snake.samePosition segment newFood)
         (Snake.snake s)
    then Snake.placeFood draws f s n (S (S k))
    else Done (Snake.setFood newFood n, S (S k)).
Proof. reflexivity. Qed.

Lemma onSnake_false (c : Snake.Position) (l : list Snake.Position) :
  existsb (fun segment => Snake.samePosition segment c) l = false ->
  ~ In c l.
Proof.
  intros E Hin.
  assert (E' : existsb (fun segment => Snake.samePosition segment c) l
               = true).
  { apply existsb_exists. exists c. split; [exact Hin|].
    apply samePosition_eq. reflexivity. }
  congruence.
Qed.

Lemma placeFood_done (fuel : nat) (s n n' : Snake.State) (k k' : nat) :
  Snake.placeFood draws fuel s n k = Done (n', k') ->
  exists j,
    (k <= j)%nat /\ k' = S (S j)
    /\ n' = Snake.setFood
              (Snake.mkPosition (Qfloor (draws j * inject_Z Snake.gridSize))
                 (Qfloor (draws (S j) * inject_Z Snake.gridSize))) n
    /\ ~ In (Snake.food n') (Snake.snake s).
Proof.
  revert k. induction fuel as [|f IH]; intro k; [discriminate|].
  rewrite placeFood_S. cbv zeta.
  destruct (existsb _ (Snake.snake s)) eqn:E.
  - intro H. destruct (IH _ H) as (j & Hj & Hrest). exists j.
    split; [lia | exact Hrest].
  - intro H. injection H as <- <-. exists k.
    split; [lia|]. split; [reflexivity|]. split; [reflexivity|].
    cbn [Snake.food Snake.setFood]. exact (onSnake_false _ _ E).
Qed.

Lemma placeFood_no_throw (fuel : nat) (s n : Snake.State) (k : nat) :
  Snake.placeFood draws fuel s n k <> TypeError.
Proof.
  revert k. induction fuel as [|f IH]; intro k; [discriminate|].
  rewrite placeFood_S. cbv zeta.
  destruct (existsb _ (Snake.snake s)); [apply IH | discriminate].
Qed.

End SnakeFood.

(** X27.  [placeFood] only ever puts the food on a cell that is off the
    snake its closure captured, and, with draws in [[0, 1)], inside the
    grid; it touches nothing but the food.  When that snake covers the
    whole grid it never finds a cell: it calls itself again whatever the
    number of calls allowed. *)
Theorem snake_placeFood (draws : nat -> Q) (fuel : nat)
        (s n : Snake.State) (k : nat) :
  (forall n' k',
      Snake.placeFood draws fuel s n k = Done (n', k') ->
      ~ In (Snake.food n') (Snake.snake s)
      /\ n' = Snake.setFood (Snake.food n') n
      /\ (k + 2 <= k')%nat
      /\ ((forall j, 0 <= draws j /\ draws j < 1) ->
          Snake.inGrid (Snake.food n')))
  /\ ((forall j, 0 <= draws j /\ draws j < 1) ->
      (forall c, Snake.inGrid c -> In c (Snake.snake s)) ->
      Snake.placeFood draws fuel s n k = OutOfFuel).
Proof.
  split.
  - intros n' k' H.
    destruct (placeFood_done draws fuel s n n' k k' H)
      as (j & Hj & Hk & Hn & Hoff).
    split; [exact Hoff|]. split; [rewrite Hn; reflexivity|].
    split; [lia|]. intro Hunit. rewrite Hn. cbn [Snake.food Snake.setFood].
    destruct (Hunit j) as [H0 H1]. destruct (Hunit (S j)) as [H2 H3].
    split; cbn [Snake.x Snake.y];
      apply floor_scaled_range; try assumption; reflexivity.
  - intros Hunit Hfull. revert k.
    induction fuel as [|f IH]; intro k; [reflexivity|].
    rewrite placeFood_S. cbv zeta.
    destruct (existsb _ (Snake.snake s)) eqn:E; [apply IH|].
    exfalso. apply (onSnake_false _ _ E).
    apply Hfull. destruct (Hunit k) as [H0 H1].
    destruct (Hunit (S k)) as [H2 H3].
    split; cbn [Snake.x Snake.y];
      apply floor_scaled_range; try assumption; reflexivity.
Qed.

Lemma allCells_complete (c : Snake.Position) :
  Snake.inGrid c -> In c allCells.
Proof.
  intros [Hx Hy]. unfold Snake.gridSize in *. unfold allCells.
  apply in_flat_map. exists (Z.to_nat (Snake.x c)). split.
  - apply in_seq. lia.
  - apply in_map_iff. exists (Z.to_nat (Snake.y c)). split.
    + destruct c as [cx cy]. simpl in *. rewrite !Z2Nat.id by lia.
      reflexivity.
    + apply in_seq. lia.
Qed.

Lemma snake_placeFood_witness :
  (exists n' k',
      Snake.placeFood cyclingDraws 5 Snake.initial Snake.initial 0
      = Done (n', k')
      /\ ~ In (Snake.food n') (Snake.snake Snake.initial)
      /\ Snake.inGrid (Snake.food n'))
  /\ Snake.placeFood cyclingDraws 50 crowded crowded 0 = OutOfFuel.
Proof.
  split.
  - destruct (Snake.placeFood cyclingDraws 5 Snake.initial Snake.initial 0)
      as [[n' k']| |] eqn:E;
      [|vm_compute in E; discriminate E|vm_compute in E; discriminate E].
    exists n', k'.
    destruct (snake_placeFood cyclingDraws 5 Snake.initial Snake.initial 0)
      as [Hdone _].
    destruct (Hdone n' k' E) as (Hoff & _ & _ & Hgrid).
    split; [reflexivity|]. split; [exact Hoff|].
    apply Hgrid. exact cyclingDraws_unit.
  - destruct (snake_placeFood cyclingDraws 50 crowded crowded 0)
      as [_ Hfull].
    apply Hfull; [exact cyclingDraws_unit|].
    intros c Hc. apply allCells_complete. exact Hc.
Defined.

(** ** One move of the snake *)

Lemma moveHead_moves (d : Snake.Direction) (p : Snake.Position) :
  Snake.moveHead d p <> p.
Proof.
  destruct p as [px py], d; simpl; intro H; injection H; lia.
Qed.

Lemma outOfGrid_false (p : Snake.Position) :
  Snake.outOfGrid p = false -> Snake.inGrid p.
Proof.
  unfold Snake.outOfGrid, Snake.inGrid. intro H.
  repeat (apply orb_false_iff in H; destruct H as [H ?]).
  repeat match goal with
  | E : (_ <? _)%Z = false |- _ => apply Z.ltb_ge in E
  | E : (_ <=? _)%Z = false |- _ => apply Z.leb_gt in E
  end.
  lia.
Qed.

(** [placeFood] ends once a call draws a cell off the captured snake. *)
Lemma placeFood_finds (draws : nat -> Q) (s n : Snake.State) :
  forall (i k : nat),
    ~ In (Snake.drawnCell draws (k + 2 * i)) (Snake.snake s) ->
    exists n' k',
      forall fuel, (i < fuel)%nat ->
                   Snake.placeFood draws fuel s n k = Done (n', k').
Proof.
  induction i as [|i IH]; intros k Hoff.
  - replace (k + 2 * 0)%nat with k in Hoff by lia.
    exists (Snake.setFood (Snake.drawnCell draws k) n), (S (S k)).
    intros [|f] Hlt; [lia|]. rewrite placeFood_S. cbv zeta.
    fold (Snake.drawnCell draws k).
    destruct (existsb _ (Snake.snake s)) eqn:E; [|reflexivity].
    exfalso. apply Hoff. apply existsb_exists in E.
    destruct E as (c & Hc & Hsame). apply samePosition_eq in Hsame.
    subst c. exact Hc.
  - destruct (existsb (fun segment =>
                         Snake.samePosition segment
                           (Snake.drawnCell draws k)) (Snake.snake s))
      eqn:E.
    + replace (k + 2 * S i)%nat with (S (S k) + 2 * i)%nat in Hoff by lia.
      destruct (IH (S (S k)) Hoff) as (n' & k' & Hrun).
      exists n', k'. intros [|f] Hlt; [lia|].
      rewrite placeFood_S. cbv zeta. fold (Snake.drawnCell draws k).
      rewrite E. apply Hrun. lia.
    + exists (Snake.setFood (Snake.drawnCell draws k) n), (S (S k)).
      intros [|f] Hlt; [lia|]. rewrite placeFood_S. cbv zeta.
      fold (Snake.drawnCell draws k). rewrite E. reflexivity.
Qed.

(** X28.  One move of a snake that is non-empty, inside the grid and
    free of repeated cells produces a result: it either ends the game,
    leaving snake, food and score as they were, or moves the head one cell
    in the direction the callback captured.  Without food there the snake
    drops its last cell and the score stays.  With food there, as soon as
    [placeFood] draws a cell off the snake it captured, the snake keeps
    all its cells, the score grows by one and the new food is off that
    snake.  In every case the snake is again non-empty, inside the grid
    and free of repeated cells. *)
Theorem snake_tick_keeps_snake_valid (draws : nat -> Q)
        (s n : Snake.State) (first : Snake.Position)
        (rest : list Snake.Position) (k : nat) :
  Snake.snake n = first :: rest ->
  Forall Snake.inGrid (Snake.snake n) ->
  NoDup (Snake.snake n) ->
  let head := Snake.moveHead (Snake.direction s) first in
  (head = Snake.food s ->
   exists i, ~ In (Snake.drawnCell draws (k + 2 * i)) (Snake.snake s)) ->
  exists fuel g' k',
    (forall fuel', (fuel <= fuel')%nat ->
                   Snake.tick draws fuel' s n k = Done (g', k'))
    /\ (Snake.snake g' <> []
        /\ Forall Snake.inGrid (Snake.snake g')
        /\ NoDup (Snake.snake g'))
    /\ ((Snake.gameOver g' = true /\ Snake.running g' = false
         /\ Snake.snake g' = Snake.snake n
         /\ Snake.score g' = Snake.score n
         /\ Snake.food g' = Snake.food n /\ k' = k)
        \/ (head <> Snake.food s
            /\ Snake.snake g' = removelast (head :: Snake.snake n)
            /\ List.length (Snake.snake g') = List.length (Snake.snake n)
            /\ Snake.score g' = Snake.score n
            /\ Snake.food g' = Snake.food n
            /\ Snake.gameOver g' = Snake.gameOver n /\ k' = k)
        \/ (head = Snake.food s
            /\ Snake.snake g' = head :: Snake.snake n
            /\ Snake.score g' = (Snake.score n + 1)%Z
            /\ ~ In (Snake.food g') (Snake.snake s)
            /\ Snake.gameOver g' = Snake.gameOver n
            /\ (k + 2 <= k')%nat)).
Proof.
  intros Hs Hgrid Hnd head Hfinds.
  assert (Htick : forall fuel,
             Snake.tick draws fuel s n k
             = if Snake.outOfGrid head
               then Done (Snake.setRunning false
                            (Snake.setGameOver true n), k)
               else if existsb (Snake.samePosition head) rest
               then Done (Snake.setRunning false
                            (Snake.setGameOver true n), k)
               else if Snake.samePosition head (Snake.food s)
               then
                 match Snake.placeFood draws fuel s
                         (Snake.setScore (Snake.score n + 1) n) k with
                 | Done (n', k') =>
                     Done (Snake.setSnake (head :: first :: rest) n', k')
                 | OutOfFuel => OutOfFuel
                 | TypeError => TypeError
                 end
               else Done (Snake.setSnake
                            (removelast (head :: first :: rest)) n, k)).
  { intro fuel. unfold Snake.tick. rewrite Hs. reflexivity. }
  destruct (Snake.outOfGrid head) eqn:Eout.
  { exists 0%nat. eexists. eexists.
    split; [intros fuel' _; rewrite Htick; reflexivity|].
    cbn. rewrite Hs in *.
    split; [split; [discriminate | split; assumption]|].
    left. repeat split. }
  destruct (existsb (Snake.samePosition head) rest) eqn:Eself.
  { exists 0%nat. eexists. eexists.
    split; [intros fuel' _; rewrite Htick; reflexivity|].
    cbn. rewrite Hs in *.
    split; [split; [discriminate | split; assumption]|].
    left. repeat split. }
  apply outOfGrid_false in Eout.
  apply existsb_samePosition in Eself.
  assert (Hfresh : ~ In head (first :: rest)).
  { intros [E|Hin]; [|exact (Eself Hin)].
    exact (moveHead_moves (Snake.direction s) first (eq_sym E)). }
  assert (Hnd' : NoDup (head :: first :: rest)).
  { constructor; [exact Hfresh|]. rewrite <- Hs. exact Hnd. }
  assert (Hgrid' : Forall Snake.inGrid (head :: first :: rest)).
  { constructor; [exact Eout|]. rewrite <- Hs. exact Hgrid. }
  destruct (Snake.samePosition head (Snake.food s)) eqn:Efood.
  - apply samePosition_eq in Efood.
    destruct (Hfinds Efood) as (i & Hoff).
    destruct (placeFood_finds draws s
                (Snake.setScore (Snake.score n + 1) n) i k Hoff)
      as (n' & k1 & Hrun).
    destruct (placeFood_done draws (S i) s _ n' k k1
                (Hrun (S i) (Nat.lt_succ_diag_r i)))
      as (j & Hj & Hk1 & Hn' & Hoff').
    exists (S i), (Snake.setSnake (head :: first :: rest) n'), k1.
    split.
    { intros fuel' Hle. rewrite Htick, (Hrun fuel') by lia. reflexivity. }
    rewrite Hn' in Hoff' |- *. cbn in Hoff' |- *. rewrite Hs.
    split; [split; [discriminate | split; assumption]|].
    right. right.
    split; [exact Efood|]. split; [reflexivity|]. split; [reflexivity|].
    split; [exact Hoff'|]. split; [reflexivity | lia].
  - exists 0%nat. eexists. eexists.
    split; [intros fuel' _; rewrite Htick; reflexivity|].
    cbn [Snake.snake Snake.setSnake Snake.score
      Snake.food Snake.gameOver Snake.running]. rewrite Hs.
    split.
    + split.
      * change (removelast (head :: first :: rest))
          with (head :: removelast (first :: rest)). discriminate.
      * split.
        -- apply Forall_forall. intros c Hc.
           rewrite Forall_forall in Hgrid'.
           exact (Hgrid' c (In_removelast_In (head :: first :: rest) c Hc)).
        -- exact (NoDup_removelast (head :: first :: rest) Hnd').
    + right. left.
      split.
      { intro E. apply samePosition_eq in E. congruence. }
      split; [reflexivity|].
      split; [exact (length_removelast_cons head (first :: rest))|].
      repeat split.
Qed.

Lemma snake_tick_keeps_snake_valid_witness :
  (exists fuel g' k',
      Snake.tick cyclingDraws fuel crawling crawling 0 = Done (g', k')
      /\ NoDup (Snake.snake g'))
  /\ exists fuel g' k',
       Snake.tick cyclingDraws fuel feeding feeding 0 = Done (g', k')
       /\ NoDup (Snake.snake g')
       /\ Forall Snake.inGrid (Snake.snake g').
Proof.
  assert (Hgrid : Forall Snake.inGrid (Snake.snake crawling)).
  { repeat constructor; simpl; unfold Snake.gridSize; lia. }
  assert (Hnd : NoDup (Snake.snake crawling)).
  { repeat constructor; simpl; intuition discriminate. }
  assert (Hoff : exists i,
             ~ In (Snake.drawnCell cyclingDraws (0 + 2 * i))
                  (Snake.snake crawling)).
  { exists 0%nat. vm_compute. intuition discriminate. }
  split.
  - destruct (snake_tick_keeps_snake_valid cyclingDraws crawling crawling
                (Snake.mkPosition 10 10)
                [Snake.mkPosition 9 10; Snake.mkPosition 8 10] 0
                eq_refl Hgrid Hnd (fun _ => Hoff))
      as (fuel & g' & k' & Hrun & (_ & _ & Hnd') & _).
    exists fuel, g', k'.
    split; [apply Hrun; lia | exact Hnd'].
  - destruct (snake_tick_keeps_snake_valid cyclingDraws feeding feeding
                (Snake.mkPosition 10 10)
                [Snake.mkPosition 9 10; Snake.mkPosition 8 10] 0
                eq_refl Hgrid Hnd (fun _ => Hoff))
      as (fuel & g' & k' & Hrun & (_ & Hgrid' & Hnd') & _).
    exists fuel, g', k'.
    split; [apply Hrun; lia|]. split; [exact Hnd' | exact Hgrid'].
Defined.

(** ** The enemy-advance stage *)

Lemma sq_sum_pos (a b : Q) : ~ (a == 0 /\ b == 0) -> 0 < a * a + b * b.
Proof.
  intro H.
  destruct (Qeq_dec a 0) as [Ha|Ha].
  - destruct (Qeq_dec b 0) as [Hb|Hb]; [exfalso; apply H; split; assumption|].
    assert (0 < b * b) by nra. nra.
  - assert (0 < a * a) by nra. nra.
Qed.

(** X29.  When the square root is exact for the squared distance between
    an enemy and the player, the velocity the enemy-advance stage stores on
    the enemy is zero if the enemy is on the player's position (nothing is
    divided by zero), and otherwise has norm [enemySpeed], is parallel to
    the line to the player and points towards the player. *)
Theorem enemy_pursuit_velocity (sqrt : Q -> Q) (obs : list Obstacle.t)
        (pl : Player.t) (speed : Q) (enemy : Enemy.t) :
  let dx := Player.x pl - Enemy.x enemy in
  let dy := Player.y pl - Enemy.y enemy in
  let d := sqrt (dx * dx + dy * dy) in
  let e := advanceEnemy sqrt obs pl speed enemy in
  0 <= d -> d * d == dx * dx + dy * dy ->
  (dx == 0 /\ dy == 0 -> Enemy.vx e = 0 /\ Enemy.vy e = 0)
  /\ (~ (dx == 0 /\ dy == 0) ->
      Enemy.vx e * Enemy.vx e + Enemy.vy e * Enemy.vy e == speed * speed
      /\ Enemy.vx e * dy == Enemy.vy e * dx
      /\ Enemy.vx e * dx + Enemy.vy e * dy == speed * d).
Proof.
  intros dx dy d e Hd Hsq.
  assert (Hvx : Enemy.vx e
                = fst (if Qltb 0 d
                       then ((dx / d) * speed, (dy / d) * speed)
                       else (0, 0))) by reflexivity.
  assert (Hvy : Enemy.vy e
                = snd (if Qltb 0 d
                       then ((dx / d) * speed, (dy / d) * speed)
                       else (0, 0))) by reflexivity.
  clearbody e d. rewrite Hvx, Hvy. clear Hvx Hvy.
  split.
  - intros [Hx Hy].
    assert (Hz : d * d == 0) by (rewrite Hsq, Hx, Hy; ring).
    assert (Hd0 : d == 0).
    { destruct (Qmult_integral _ _ Hz); assumption. }
    destruct (Qltb 0 d) eqn:E; [|split; reflexivity].
    apply Qltb_lt in E. lra.
  - intro Hoff. apply sq_sum_pos in Hoff.
    assert (Hne : ~ d == 0).
    { intro H0. rewrite H0 in Hsq. lra. }
    assert (Hpos : 0 < d) by (destruct (Qle_lt_or_eq _ _ Hd); [assumption|];
                              exfalso; apply Hne; symmetry; assumption).
    apply Qltb_lt in Hpos. rewrite Hpos. cbn [fst snd].
    split; [|split].
    + transitivity ((dx * dx + dy * dy) / (d * d) * (speed * speed)).
      * field. exact Hne.
      * rewrite <- Hsq. field. exact Hne.
    + field. exact Hne.
    + transitivity ((dx * dx + dy * dy) / d * speed).
      * field. exact Hne.
      * rewrite <- Hsq. field. exact Hne.
Qed.

Lemma enemy_pursuit_velocity_witness :
  (Enemy.vx (advanceEnemy tableSqrt [] initialPlayer 1.3 stacked) = 0
   /\ Enemy.vy (advanceEnemy tableSqrt [] initialPlayer 1.3 stacked) = 0)
  /\ (let e := advanceEnemy tableSqrt [] initialPlayer 1.3 chaser in
      Enemy.vx e * Enemy.vx e + Enemy.vy e * Enemy.vy e == 1.3 * 1.3).
Proof.
  split.
  - apply (enemy_pursuit_velocity tableSqrt [] initialPlayer 1.3 stacked).
    + vm_compute. discriminate.
    + reflexivity.
    + split; reflexivity.
  - destruct (enemy_pursuit_velocity tableSqrt [] initialPlayer 1.3 chaser)
      as [_ H].
    + vm_compute. discriminate.
    + reflexivity.
    + apply H. intros [H3 _]. vm_compute in H3. discriminate H3.
Defined.

(** X30.  The enemy-advance stage keeps the number of enemies and, for
    the enemy at each index, its radius and the end of its spawn window;
    its row ends within [[radius, canvasHeight - radius]] and its [x]
    within the trapezoid bound of the candidate row, which is the bound of
    the enemy's own row whenever the candidate row is not below
    [canvasHeight - radius]. *)
Theorem enemy_advance_bounds (sqrt : Q -> Q) (s : Game)
        (prev : list Enemy.t) (i : nat) (enemy : Enemy.t) :
  nth_error prev i = Some enemy ->
  let next := advanceEnemies sqrt s prev in
  let r := Enemy.radius enemy in
  let candY :=
    enemyCandY (obstacles s)
      (snd (enemyVelocity sqrt (player s) (enemySpeed s) enemy)) enemy in
  List.length next = List.length prev
  /\ exists e,
      nth_error next i = Some e
      /\ Enemy.radius e = r
      /\ Enemy.spawnInvulUntil e = Enemy.spawnInvulUntil enemy
      /\ (r <= canvasHeight - r ->
          r <= Enemy.y e /\ Enemy.y e <= canvasHeight - r)
      /\ (r <= halfWAt candY ->
          cxArena - (halfWAt candY - r) <= Enemy.x e
          /\ Enemy.x e <= cxArena + (halfWAt candY - r))
      /\ (r <= halfWAt candY -> candY <= canvasHeight - r ->
          cxArena - (halfWAt (Enemy.y e) - r) <= Enemy.x e
          /\ Enemy.x e <= cxArena + (halfWAt (Enemy.y e) - r)).
Proof.
  intros Hi next r candY.
  split; [apply length_map|].
  exists (advanceEnemy sqrt (obstacles s) (player s) (enemySpeed s) enemy).
  split; [apply map_nth_error, Hi|].
  set (e := advanceEnemy sqrt (obstacles s) (player s) (enemySpeed s) enemy).
  set (candX :=
         enemyCandX (obstacles s)
           (fst (enemyVelocity sqrt (player s) (enemySpeed s) enemy)) enemy).
  assert (Px : Enemy.x e
               = Qmax (cxArena - (halfWAt candY - r))
                      (Qmin (cxArena + (halfWAt candY - r)) candX))
    by reflexivity.
  assert (Py : Enemy.y e = Qmax r (Qmin (canvasHeight - r) candY))
    by reflexivity.
  assert (Hx : r <= halfWAt candY ->
               cxArena - (halfWAt candY - r) <= Enemy.x e
               /\ Enemy.x e <= cxArena + (halfWAt candY - r)).
  { intro Hr. rewrite Px. split.
    - apply clamp_lower.
    - apply clamp_upper. lra. }
  split; [reflexivity|]. split; [reflexivity|].
  split; [|split; [exact Hx|]].
  - intro Hr. rewrite Py. split.
    + apply clamp_lower.
    + apply clamp_upper, Hr.
  - intros Hr Hc. destruct (Hx Hr) as [Hlo Hhi].
    assert (Hm : halfWAt candY <= halfWAt (Enemy.y e)).
    { apply halfWAt_mono. rewrite Py. apply clamp_ge, Hc. }
    split; lra.
Qed.

Lemma enemy_advance_bounds_witness :
  exists e,
    nth_error (advanceEnemies tableSqrt initialGame [stacked; chaser]) 1
    = Some e
    /\ Enemy.spawnInvulUntil e = 300
    /\ (12 <= Enemy.y e /\ Enemy.y e <= canvasHeight - 12)
    /\ (cxArena - (halfWAt (Enemy.y e) - 12) <= Enemy.x e
        /\ Enemy.x e <= cxArena + (halfWAt (Enemy.y e) - 12)).
Proof.
  destruct (enemy_advance_bounds tableSqrt initialGame [stacked; chaser] 1
              chaser eq_refl)
    as (_ & e & Hn & _ & Hw & Hy & _ & Hrow).
  exists e.
  split; [exact Hn|]. split; [exact Hw|].
  split.
  - apply Hy. vm_compute. discriminate.
  - apply Hrow; vm_compute; discriminate.
Defined.
